(** * HKDF (RFC 5869) and the RDRAND entropy source of aws-lc

    A shallow embedding of

    - [crypto/fipsmodule/hkdf/hkdf.c]: [HKDF], [HKDF_extract],
      [HKDF_expand];
    - the generated x86-64 assembly of [CRYPTO_rdrand] and
      [CRYPTO_rdrand_multiple8_buf].

    Machine integers are [Z] with the wrap-around written out; buffers are
    lists of bytes (HKDF) or a byte-addressed memory (RDRAND). *)

From Stdlib Require Import ZArith List Bool Lia.
From Stdlib.Strings Require Import Byte.
Import ListNotations.
Local Open Scope Z_scope.

(* ===================================================================== *)
(** * Part I: the hardware entropy source *)
(* ===================================================================== *)

Module Rdrand.

(** ** A small x86-64 machine: the registers, flags and memory the two
    routines touch. *)

Definition wrap64 (z : Z) : Z := z mod 2 ^ 64.

(** The 64-bit pattern with every bit set: the encoding of [$-1]. *)
Definition all_ones : Z := 2 ^ 64 - 1.

Inductive reg : Set := RAX | RCX | RDX | RSI | RDI.

(** [mem] is byte addressed; [draws] counts the RDRAND instructions executed
    so far and indexes the hardware's answers. *)
Record machine : Type := mkMachine {
  rax : Z; rcx : Z; rdx : Z; rsi : Z; rdi : Z;
  CF : bool; ZF : bool;
  mem : Z -> Z;
  draws : nat
}.

Definition get (r : reg) (s : machine) : Z :=
  match r with
  | RAX => rax s | RCX => rcx s | RDX => rdx s | RSI => rsi s | RDI => rdi s
  end.

Definition set (r : reg) (v : Z) (s : machine) : machine :=
  match r with
  | RAX => mkMachine v (rcx s) (rdx s) (rsi s) (rdi s) (CF s) (ZF s) (mem s) (draws s)
  | RCX => mkMachine (rax s) v (rdx s) (rsi s) (rdi s) (CF s) (ZF s) (mem s) (draws s)
  | RDX => mkMachine (rax s) (rcx s) v (rsi s) (rdi s) (CF s) (ZF s) (mem s) (draws s)
  | RSI => mkMachine (rax s) (rcx s) (rdx s) v (rdi s) (CF s) (ZF s) (mem s) (draws s)
  | RDI => mkMachine (rax s) (rcx s) (rdx s) (rsi s) v (CF s) (ZF s) (mem s) (draws s)
  end.

Definition set_flags (c z : bool) (s : machine) : machine :=
  mkMachine (rax s) (rcx s) (rdx s) (rsi s) (rdi s) c z (mem s) (draws s).

Definition set_mem (m : Z -> Z) (s : machine) : machine :=
  mkMachine (rax s) (rcx s) (rdx s) (rsi s) (rdi s) (CF s) (ZF s) m (draws s).

Definition tick (s : machine) : machine :=
  mkMachine (rax s) (rcx s) (rdx s) (rsi s) (rdi s) (CF s) (ZF s) (mem s) (S (draws s)).

(** Byte [k] (little endian) of a 64-bit value. *)
Definition byte_of (v k : Z) : Z := Z.land (Z.shiftr v (8 * k)) 255.

Definition store8 (m : Z -> Z) (a b : Z) : Z -> Z :=
  fun x => if x =? a then b else m x.

(** [movq %r, 0(%base)]: eight bytes, little endian, addresses modulo 2^64. *)
Definition store64 (m : Z -> Z) (a v : Z) : Z -> Z :=
  fold_left (fun m' k => store8 m' (wrap64 (a + k)) (byte_of v k))
            [0; 1; 2; 3; 4; 5; 6; 7] m.

Section Hardware.

(** The hardware RNG: the [n]-th execution of RDRAND delivers the pair
    [(value, carry)], carry set meaning that the instruction reports
    success.  Nothing is assumed about the value delivered with a clear
    carry. *)
Variable hw : nat -> Z * bool.

(** ** Instructions *)

(** [xorq %src, %dst] *)
Definition xorq (src dst : reg) (s : machine) : machine :=
  let v := Z.lxor (get dst s) (get src s) in
  set_flags false (v =? 0) (set dst v s).

(** [rdrand %dst] ([.byte 72,15,199,242] is [rdrand %rdx],
    [.byte 72,15,199,241] is [rdrand %rcx]): CF reports success, ZF is
    cleared. *)
Definition rdrand (dst : reg) (s : machine) : machine :=
  let '(v, ok) := hw (draws s) in
  tick (set_flags ok false (set dst (wrap64 v) s)).

(** [testq %src, %dst]: flags of the bitwise and, CF cleared. *)
Definition testq (src dst : reg) (s : machine) : machine :=
  set_flags false (Z.land (get dst s) (get src s) =? 0) s.

(** [cmpq $imm, %dst]: flags of [dst - imm]; CF is the borrow. *)
Definition cmpq_imm (imm : Z) (dst : reg) (s : machine) : machine :=
  set_flags (get dst s <? wrap64 imm) (get dst s =? wrap64 imm) s.

(** [adcq %src, %dst] *)
Definition adcq (src dst : reg) (s : machine) : machine :=
  let sum := get dst s + get src s + (if CF s then 1 else 0) in
  set_flags (2 ^ 64 <=? sum) (wrap64 sum =? 0) (set dst (wrap64 sum) s).

(** [addq %src, %dst] *)
Definition addq (src dst : reg) (s : machine) : machine :=
  let sum := get dst s + get src s in
  set_flags (2 ^ 64 <=? sum) (wrap64 sum =? 0) (set dst (wrap64 sum) s).

(** [subq %src, %dst] *)
Definition subq (src dst : reg) (s : machine) : machine :=
  let d := get dst s - get src s in
  set_flags (d <? 0) (wrap64 d =? 0) (set dst (wrap64 d) s).

(** [movq $imm, %dst] *)
Definition movq_imm (imm : Z) (dst : reg) (s : machine) : machine :=
  set dst (wrap64 imm) s.

(** [movq %src, 0(%base)] *)
Definition movq_store (src base : reg) (s : machine) : machine :=
  set_mem (store64 (mem s) (get base s) (get src s)) s.

(** ** [CRYPTO_rdrand]

    [int CRYPTO_rdrand(uint8_t out[8])]: [out] arrives in [%rdi], the result
    leaves in [%rax]. *)

(** [L$err: xorq %rax,%rax; ret] *)
Definition L_err (s : machine) : machine := xorq RAX RAX s.

Definition CRYPTO_rdrand (s : machine) : machine :=
  let s := xorq RAX RAX s in
  let s := rdrand RDX s in
  let s := testq RDX RDX s in
  if ZF s then L_err s else                    (* jz L$err *)
  let s := cmpq_imm (-1) RDX s in
  if ZF s then L_err s else                    (* je L$err *)
  let s := adcq RAX RAX s in
  let s := movq_store RDX RDI s in
  s.                                            (* ret *)

(** ** [CRYPTO_rdrand_multiple8_buf]

    [int CRYPTO_rdrand_multiple8_buf(uint8_t *buf, size_t len)]: [buf] in
    [%rdi], [len] in [%rsi]. *)

(** [L$out: movq $1,%rax; ret] *)
Definition L_out (s : machine) : machine := movq_imm 1 RAX s.

(** [L$err_multiple: xorq %rax,%rax; ret] *)
Definition L_err_multiple (s : machine) : machine := xorq RAX RAX s.

(** The body between [L$loop] and [jnz L$loop].  Each unit of fuel pays for
    one trip round the loop; [None] is "fuel exhausted". *)
Fixpoint L_loop (fuel : nat) (s : machine) : option machine :=
  match fuel with
  | O => None
  | S fuel' =>
      let s := rdrand RCX s in
      if negb (CF s) then Some (L_err_multiple s) else   (* jnc L$err_multiple *)
      let s := testq RCX RCX s in
      if ZF s then Some (L_err_multiple s) else          (* jz L$err_multiple *)
      let s := cmpq_imm (-1) RCX s in
      if ZF s then Some (L_err_multiple s) else          (* je L$err_multiple *)
      let s := movq_store RCX RDI s in
      let s := addq RDX RDI s in
      let s := subq RDX RSI s in
      if negb (ZF s) then L_loop fuel' s                 (* jnz L$loop *)
      else Some (L_out s)
  end.

Definition CRYPTO_rdrand_multiple8_buf (fuel : nat) (s : machine)
  : option machine :=
  let s := testq RSI RSI s in
  if ZF s then Some (L_out s) else               (* jz L$out *)
  let s := movq_imm 8 RDX s in
  L_loop fuel s.

(** ** Vocabulary of the specification *)

(** The value the [n]-th draw leaves in the destination register. *)
Definition drawn (n : nat) : Z := wrap64 (fst (hw n)).

(** The instruction itself reports success on draw [n]. *)
Definition reported_ok (n : nat) : bool := snd (hw n).

(** The stuck-at patterns. *)
Definition stuck (v : Z) : bool := (v =? 0) || (v =? all_ones).

(** Draw [n] is usable: reported successful and not a stuck-at pattern. *)
Definition good (n : nat) : bool := reported_ok n && negb (stuck (drawn n)).

(** Memory after chunks [0..k) of a buffer at [a] received draws
    [d, d+1, ...]. *)
Fixpoint filled (k : nat) (m : Z -> Z) (a : Z) (d : nat) : Z -> Z :=
  match k with
  | O => m
  | S k' => filled k' (store64 m a (drawn d)) (wrap64 (a + 8)) (S d)
  end.

End Hardware.

(** ** Sample machines and hardware for the concrete runs *)

(** A machine entering a routine with [%rdi = out], [%rsi = len], a zeroed
    memory and no draw made yet. *)
Definition entry (out len : Z) : machine :=
  mkMachine 0 0 0 len out false false (fun _ => 0) 0.

(** Every draw is reported failed, yet leaves 5 in the register. *)
Definition hw_unreported : nat -> Z * bool := fun _ => (5, false).

(** The first draw is reported failed (register zeroed); every later one
    succeeds with 5. *)
Definition hw_transient : nat -> Z * bool :=
  fun n => match n with O => (0, false) | S _ => (5, true) end.

(** Every draw succeeds with 5. *)
Definition hw_five : nat -> Z * bool := fun _ => (5, true).

(** Every draw is reported successful but stuck at zero. *)
Definition hw_stuck : nat -> Z * bool := fun _ => (0, true).

(** One usable draw, then one stuck at all ones, then usable ones. *)
Definition hw_second_stuck : nat -> Z * bool :=
  fun n => match n with 1%nat => (-1, true) | _ => (5, true) end.

(** ** Reading a stored word back, and repeated single draws *)

(** The 64-bit little-endian word at address [a]. *)
Definition load64 (m : Z -> Z) (a : Z) : Z :=
  fold_right (fun k acc => acc + m (wrap64 (a + k)) * 2 ^ (8 * k)) 0
             [0; 1; 2; 3; 4; 5; 6; 7].

(** [k] calls of [CRYPTO_rdrand], the [i]-th with [out = a + 8 i]. *)
Fixpoint singles (hw : nat -> Z * bool) (k : nat) (a : Z) (s : machine)
  : machine :=
  match k with
  | O => s
  | S k' => singles hw k' (wrap64 (a + 8)) (CRYPTO_rdrand hw (set RDI a s))
  end.

End Rdrand.

(* ===================================================================== *)
(** * Part II: HKDF *)
(* ===================================================================== *)

Module HKDF.

(** [size_t] arithmetic on the 64-bit platform. *)
Definition size_t (z : Z) : Z := z mod 2 ^ 64.

Definition EVP_MAX_MD_SIZE : Z := 64.

(** Conversion to [uint8_t]. *)
Definition uint8 (z : Z) : byte :=
  match Byte.of_N (Z.to_N (z mod 256)) with
  | Some b => b
  | None => x00
  end.

(** The bytes [p[0..len)] of a buffer given as pointer and length. *)
Definition span (p : list byte) (len : Z) : list byte := firstn (Z.to_nat len) p.

(** [OPENSSL_memcpy(dst + off, src, n)] on a buffer held as a list. *)
Definition OPENSSL_memcpy (dst : list byte) (off : Z) (src : list byte) (n : Z)
  : list byte :=
  firstn (Z.to_nat off) dst ++ span src n ++ skipn (Z.to_nat (off + n)) dst.

(** Reasons handed to [OPENSSL_PUT_ERROR(HKDF, ...)]:
    [HKDF_R_OUTPUT_TOO_LARGE] is the specification's [InvalidLength],
    [ERR_R_HMAC_LIB] its [PrimitiveFailure]. *)
Inductive err_reason : Set := HKDF_R_OUTPUT_TOO_LARGE | ERR_R_HMAC_LIB.

(** The digest selector and the keyed hash behind it, with the environment's
    decision, call by call, whether a call into the keyed-hash library
    fails. *)
Class KeyedHashAdapter : Type := {
  EVP_MD : Type;
  EVP_MD_size : EVP_MD -> Z;
  KeyedHash : EVP_MD -> list byte -> list byte -> list byte;
  hmac_fault : nat -> bool
}.

Section Model.

Context {A : KeyedHashAdapter}.

(** Calls into the service-indicator subsystem, as a trace. *)
Inductive indicator_event : Type :=
| lock_state
| unlock_state
| HKDF_verify (digest : EVP_MD) (salt : list byte) (salt_len info_len : Z)
| HKDFExpand_verify (digest : EVP_MD).

(** What the functions share with their environment: the number of calls made
    into the keyed-hash library, the error queue (newest first) and the trace
    of service-indicator calls (newest first). *)
Record world : Type := mkWorld {
  hmac_calls : nat;
  err_queue : list err_reason;
  indicator : list indicator_event
}.

(** ** The state monad the code runs in *)

Definition M (X : Type) : Type := world -> X * world.

Definition ret {X} (x : X) : M X := fun w => (x, w).

Definition bind {X Y} (c : M X) (k : X -> M Y) : M Y :=
  fun w => let (x, w') := c w in k x w'.

Notation "x <- c ;; k" := (bind c (fun x => k))
  (at level 61, c at next level, right associativity).
Notation "' p <- c ;; k" := (bind c (fun x => let 'p := x in k))
  (at level 61, p pattern, c at next level, right associativity).
Notation "c ;;; k" := (bind c (fun _ => k))
  (at level 61, right associativity).

Definition OPENSSL_PUT_ERROR (r : err_reason) : M unit :=
  fun w => (tt, mkWorld (hmac_calls w) (r :: err_queue w) (indicator w)).

Definition signal (e : indicator_event) : M unit :=
  fun w => (tt, mkWorld (hmac_calls w) (err_queue w) (e :: indicator w)).

Definition FIPS_service_indicator_lock_state : M unit := signal lock_state.
Definition FIPS_service_indicator_unlock_state : M unit := signal unlock_state.
Definition HKDF_verify_service_indicator digest salt salt_len info_len : M unit :=
  signal (HKDF_verify digest salt salt_len info_len).
Definition HKDFExpand_verify_service_indicator digest : M unit :=
  signal (HKDFExpand_verify digest).

(** One call into the keyed-hash library: [true] when the environment makes
    this call fail. *)
Definition hmac_call : M bool :=
  fun w => (hmac_fault (hmac_calls w),
            mkWorld (S (hmac_calls w)) (err_queue w) (indicator w)).

(** ** The keyed-hash adapter *)

(** Modelled from the spec: the keyed-hash context of the Init / Update /
    Final capability, which is not part of the sources.  It holds the digest
    and key it was initialised with and the message fed so far. *)
Record HMAC_CTX : Type := mkCtx {
  ctx_md : option EVP_MD;
  ctx_key : list byte;
  ctx_msg : list byte
}.

(** Modelled from the spec: [HMAC_CTX_init], the context before any key is
    set. *)
Definition HMAC_CTX_init : HMAC_CTX := mkCtx None [] [].

(** Modelled from the spec: [HMAC_CTX_cleanup], which wipes the context. *)
Definition HMAC_CTX_cleanup (_ : HMAC_CTX) : HMAC_CTX := mkCtx None [] [].

(** Modelled from the spec: [HMAC_Init_ex(ctx, key, key_len, md, NULL)].  A
    [None] key or digest stands for the NULL argument and re-uses what the
    context holds, so that a context can be re-initialised with the same key;
    the fed message restarts empty.  The call fails when the environment says
    so or when no digest is known. *)
Definition HMAC_Init_ex (ctx : HMAC_CTX) (key : option (list byte))
    (md : option EVP_MD) : M (Z * HMAC_CTX) :=
  bad <- hmac_call ;;
  let md' := match md with Some d => Some d | None => ctx_md ctx end in
  let key' := match key with Some k => k | None => ctx_key ctx end in
  match bad, md' with
  | false, Some d => ret (1, mkCtx (Some d) key' [])
  | _, _ => ret (0, ctx)
  end.

(** Modelled from the spec: [HMAC_Update(ctx, data, data_len)] appends to the
    message. *)
Definition HMAC_Update (ctx : HMAC_CTX) (data : list byte) : M (Z * HMAC_CTX) :=
  bad <- hmac_call ;;
  match bad, ctx_md ctx with
  | false, Some d => ret (1, mkCtx (Some d) (ctx_key ctx) (ctx_msg ctx ++ data))
  | _, _ => ret (0, ctx)
  end.

(** Modelled from the spec: [HMAC_Final(ctx, out, NULL)] writes the keyed hash
    of the message fed since the last initialisation to [out]. *)
Definition HMAC_Final (ctx : HMAC_CTX) (out : list byte)
  : M (Z * HMAC_CTX * list byte) :=
  bad <- hmac_call ;;
  match bad, ctx_md ctx with
  | false, Some d =>
      let mac := KeyedHash d (ctx_key ctx) (ctx_msg ctx) in
      ret (1, ctx, OPENSSL_memcpy out 0 mac (Z.of_nat (length mac)))
  | _, _ => ret (0, ctx, out)
  end.

(** Modelled from the spec: the one-shot [HMAC(md, key, key_len, data,
    data_len, out, &len)].  [None] is the NULL result; otherwise the buffer
    with the keyed hash written to its front and the number of bytes
    written. *)
Definition HMAC (md : EVP_MD) (key data : list byte) (out : list byte)
  : M (option (list byte * Z)) :=
  bad <- hmac_call ;;
  if bad then ret None
  else
    let mac := KeyedHash md key data in
    ret (Some (OPENSSL_memcpy out 0 mac (Z.of_nat (length mac)),
               Z.of_nat (length mac))).

(** ** [HKDF_extract]

    Returns [ret] with the final contents of [*out_key] and [*out_len].  The
    [assert] of line 75 is theorem C8 below. *)
Definition HKDF_extract (out_key : list byte) (out_len : Z) (digest : EVP_MD)
    (secret : list byte) (secret_len : Z) (salt : list byte) (salt_len : Z)
  : M (Z * list byte * Z) :=
  FIPS_service_indicator_lock_state ;;;
  r <- HMAC digest (span salt salt_len) (span secret secret_len) out_key ;;
  match r with
  | None =>
      OPENSSL_PUT_ERROR ERR_R_HMAC_LIB ;;;
      (* out: *)
      FIPS_service_indicator_unlock_state ;;;
      ret (0, out_key, out_len)
  | Some (out_key', len) =>
      (* out: *)
      FIPS_service_indicator_unlock_state ;;;
      ret (1, out_key', len)
  end.

(** ** [HKDF_expand] *)

(** The locals the loop of [HKDF_expand] updates. *)
Record frame : Type := mkFrame {
  fr_hmac : HMAC_CTX;
  fr_previous : list byte;
  fr_done : Z;
  fr_out_key : list byte
}.

Section Expand.

Variables (out_len : Z) (digest : EVP_MD) (info : list byte) (info_len : Z).

Let digest_len : Z := EVP_MD_size digest.

(** One trip through the body of the [for] loop, lines 112-130.  The boolean
    is [false] when the body leaves through [goto out]. *)
Definition expand_block (i : Z) (f : frame) : M (bool * frame) :=
  let ctr := uint8 (i + 1) in
  '(ok, h) <-
    (if i =? 0 then ret (1, fr_hmac f)
     else
       '(r, h) <- HMAC_Init_ex (fr_hmac f) None None ;;
       if r =? 0 then ret (0, h)
       else HMAC_Update h (span (fr_previous f) digest_len)) ;;
  if ok =? 0 then ret (false, mkFrame h (fr_previous f) (fr_done f) (fr_out_key f)) else
  '(r, h) <- HMAC_Update h (span info info_len) ;;
  if r =? 0 then ret (false, mkFrame h (fr_previous f) (fr_done f) (fr_out_key f)) else
  '(r, h) <- HMAC_Update h [ctr] ;;
  if r =? 0 then ret (false, mkFrame h (fr_previous f) (fr_done f) (fr_out_key f)) else
  '(r, h, prev) <- HMAC_Final h (fr_previous f) ;;
  if r =? 0 then ret (false, mkFrame h prev (fr_done f) (fr_out_key f)) else
  let todo := digest_len in
  let todo := if todo >? size_t (out_len - fr_done f)
              then size_t (out_len - fr_done f) else todo in
  ret (true, mkFrame h prev (size_t (fr_done f + todo))
                     (OPENSSL_memcpy (fr_out_key f) (fr_done f) prev todo)).

(** [for (i = ...; i < n; i++)] with [count] trips left. *)
Fixpoint expand_loop (count : nat) (i : Z) (f : frame) : M (bool * frame) :=
  match count with
  | O => ret (true, f)
  | S count' =>
      '(ok, f') <- expand_block i f ;;
      if ok then expand_loop count' (i + 1) f' else ret (false, f')
  end.

End Expand.

(** [previous] is the content of the uninitialised local at entry.  Returns
    [ret], the final content of the caller's [out_key], and what the local
    [previous] holds when the function returns. *)
Definition HKDF_expand (previous : list byte)
    (out_key : list byte) (out_len : Z) (digest : EVP_MD)
    (prk : list byte) (prk_len : Z) (info : list byte) (info_len : Z)
  : M (Z * list byte * list byte) :=
  let digest_len := EVP_MD_size digest in
  let n := size_t (out_len + digest_len - 1) / digest_len in
  if (size_t (out_len + digest_len) <? out_len) || (n >? 255) then
    OPENSSL_PUT_ERROR HKDF_R_OUTPUT_TOO_LARGE ;;;
    ret (0, out_key, previous)
  else
    let hmac := HMAC_CTX_init in
    FIPS_service_indicator_lock_state ;;;
    '(r, hmac) <- HMAC_Init_ex hmac (Some (span prk prk_len)) (Some digest) ;;
    '(ok, f) <-
      (if r =? 0 then ret (false, mkFrame hmac previous 0 out_key)
       else expand_loop out_len digest info info_len (Z.to_nat n) 0
                        (mkFrame hmac previous 0 out_key)) ;;
    let ret_ := if ok then 1 else 0 in
    (* out: *)
    FIPS_service_indicator_unlock_state ;;;
    HKDFExpand_verify_service_indicator digest ;;;
    let _ := HMAC_CTX_cleanup (fr_hmac f) in
    (if negb (ret_ =? 1) then OPENSSL_PUT_ERROR ERR_R_HMAC_LIB else ret tt) ;;;
    ret (ret_, fr_out_key f, fr_previous f).

(** ** [HKDF]

    [prk], [prk_len] and [previous] are the contents of the uninitialised
    locals (the last one of the callee) at entry.  Returns [ret], the final
    content of the caller's [out_key], and what the local [prk] holds when the
    function returns. *)
Definition HKDF (prk : list byte) (prk_len : Z) (previous : list byte)
    (out_key : list byte) (out_len : Z) (digest : EVP_MD)
    (secret : list byte) (secret_len : Z) (salt : list byte) (salt_len : Z)
    (info : list byte) (info_len : Z)
  : M (Z * list byte * list byte) :=
  FIPS_service_indicator_lock_state ;;;
  '(r1, prk, prk_len) <-
    HKDF_extract prk prk_len digest secret secret_len salt salt_len ;;
  '(ret_, out_key) <-
    (if r1 =? 0 then ret (0, out_key)
     else
       '(r2, out_key', _) <-
         HKDF_expand previous out_key out_len digest prk prk_len info info_len ;;
       if r2 =? 0 then ret (0, out_key') else ret (1, out_key')) ;;
  (* out: *)
  FIPS_service_indicator_unlock_state ;;;
  HKDF_verify_service_indicator digest salt salt_len info_len ;;;
  ret (ret_, out_key, prk).

End Model.

(** ** The construction in the words of the specification *)

(** [ceil (a / b)]. *)
Definition ceil_div (a b : Z) : Z :=
  if a mod b =? 0 then a / b else a / b + 1.

Section Construction.

Context {A : KeyedHashAdapter}.
Variables (digest : EVP_MD) (PRK info : list byte).

(** [T(0)] is empty; [T(i) = KeyedHash(PRK, T(i-1) || info || i)]. *)
Fixpoint T (i : nat) : list byte :=
  match i with
  | O => []
  | S j => KeyedHash digest PRK (T j ++ info ++ [uint8 (Z.of_nat i)])
  end.

(** [T(1) || ... || T(N)]. *)
Definition blocks (N : nat) : list byte := concat (map T (seq 1 N)).

(** The first [L] bytes of [T(1) || ... || T(N)], [N = ceil (L / HashLen)]. *)
Definition OKM (L : Z) : list byte :=
  firstn (Z.to_nat L)
         (blocks (Z.to_nat (ceil_div L (EVP_MD_size digest)))).

End Construction.

(** Calling Extract and then, unless it failed, Expand on its PRK. *)
Definition Extract_then_Expand {A : KeyedHashAdapter}
    (prk : list byte) (prk_len : Z) (previous : list byte)
    (out_key : list byte) (out_len : Z) (digest : EVP_MD)
    (secret : list byte) (secret_len : Z) (salt : list byte) (salt_len : Z)
    (info : list byte) (info_len : Z)
  : M (Z * list byte) :=
  bind (HKDF_extract prk prk_len digest secret secret_len salt salt_len)
    (fun '(r1, prk', prk_len') =>
       if r1 =? 0 then ret (0, out_key)
       else
         bind (HKDF_expand previous out_key out_len digest prk' prk_len'
                           info info_len)
           (fun '(r2, out_key', _) => ret (r2, out_key'))).

(** ** Closed forms used by the proofs *)

(** The test of line 96, on [size_t] operands. *)
Definition too_large_test (out_len digest_len : Z) : bool :=
  (size_t (out_len + digest_len) <? out_len)
  || (size_t (out_len + digest_len - 1) / digest_len >? 255).

Section Forms.

Context {A : KeyedHashAdapter}.

(** The world after one more call into the keyed-hash library. *)
Definition bump (w : world) : world :=
  mkWorld (S (hmac_calls w)) (err_queue w) (indicator w).

(** A computation that only talks to the keyed-hash library: such a
    computation leaves the error queue and the indicator trace alone,
    and what it returns depends on the incoming world through the call count
    only. *)
Definition tame {X : Type} (c : M X) : Prop :=
  forall w v, hmac_calls w = hmac_calls v ->
  exists x n, c w = (x, mkWorld n (err_queue w) (indicator w)) /\
              c v = (x, mkWorld n (err_queue v) (indicator v)).

(** The keyed-hash phase of [HKDF_expand]: lines 107-131. *)
Definition expand_core (previous out_key : list byte) (out_len : Z)
    (digest : EVP_MD) (prk : list byte) (prk_len : Z)
    (info : list byte) (info_len : Z) : M (bool * frame) :=
  bind (HMAC_Init_ex HMAC_CTX_init (Some (span prk prk_len)) (Some digest))
    (fun '(r, hmac) =>
       if r =? 0 then ret (false, mkFrame hmac previous 0 out_key)
       else expand_loop out_len digest info info_len
              (Z.to_nat (size_t (out_len + EVP_MD_size digest - 1)
                         / EVP_MD_size digest))
              0 (mkFrame hmac previous 0 out_key)).

Section Block.

Variables (out_len : Z) (digest : EVP_MD) (info : list byte) (info_len : Z).

(** The message the keyed hash has been fed when block [i] is finalised. *)
Definition fed (i : Z) (f : frame) : list byte :=
  ((if i =? 0 then ctx_msg (fr_hmac f)
    else span (fr_previous f) (EVP_MD_size digest))
   ++ span info info_len) ++ [uint8 (i + 1)].

(** The locals after a trip through the loop body in which no call failed. *)
Definition next_frame (i : Z) (f : frame) : frame :=
  let mac := KeyedHash digest (ctx_key (fr_hmac f)) (fed i f) in
  let prev := OPENSSL_memcpy (fr_previous f) 0 mac (Z.of_nat (length mac)) in
  let todo := if EVP_MD_size digest >? size_t (out_len - fr_done f)
              then size_t (out_len - fr_done f) else EVP_MD_size digest in
  mkFrame (mkCtx (Some digest) (ctx_key (fr_hmac f)) (fed i f)) prev
          (size_t (fr_done f + todo))
          (OPENSSL_memcpy (fr_out_key f) (fr_done f) prev todo).

Variables (PRK out0 : list byte).

(** After [j] blocks: the context is keyed with the PRK, [previous] holds
    [T(j)], [done] bytes of [T(1) || ... || T(j)] are in the caller's
    buffer. *)
Definition block_inv (j : nat) (f : frame) : Prop :=
  ctx_md (fr_hmac f) = Some digest /\
  ctx_key (fr_hmac f) = PRK /\
  (j = 0%nat -> ctx_msg (fr_hmac f) = []) /\
  (j <> 0%nat ->
   span (fr_previous f) (EVP_MD_size digest) = T digest PRK (span info info_len) j) /\
  fr_done f = Z.min (Z.of_nat j * EVP_MD_size digest) out_len /\
  fr_out_key f =
    firstn (Z.to_nat (fr_done f)) (blocks digest PRK (span info info_len) j)
    ++ skipn (Z.to_nat (fr_done f)) out0.

End Block.

End Forms.

(** ** Lock discipline of the indicator trace *)

Section Locks.

Context {A : KeyedHashAdapter}.

(** Replays a trace, oldest call first, from lock depth [d]: [None] when an
    unlock meets depth 0, otherwise the depth at the end. *)
Fixpoint run_locks (d : nat) (chron : list indicator_event) : option nat :=
  match chron with
  | [] => Some d
  | lock_state :: r => run_locks (S d) r
  | unlock_state :: r =>
      match d with
      | O => None
      | S d' => run_locks d' r
      end
  | _ :: r => run_locks d r
  end.

(** The lock depths at which the verification calls of a trace are made. *)
Fixpoint verify_depths (d : nat) (chron : list indicator_event) : list nat :=
  match chron with
  | [] => []
  | lock_state :: r => verify_depths (S d) r
  | unlock_state :: r => verify_depths (Nat.pred d) r
  | _ :: r => d :: verify_depths d r
  end.

End Locks.

(** The number of keyed-hash calls [count] trips round the loop of
    [HKDF_expand] make when none fails, the first trip being trip [j]. *)
Fixpoint loop_calls (j count : nat) : nat :=
  match count with
  | O => O
  | S c => (if Nat.eqb j 0 then 3 else 5) + loop_calls (S j) c
  end.

(** The same for a whole [HKDF_expand] of [N] blocks, the initial
    [HMAC_Init_ex] included. *)
Definition expand_calls (N : nat) : nat := S (loop_calls 0 N).

(** A call that returned [r], taking the world from [w] to [w'], reports
    its failure: it returns 0 or 1, 1 with the error queue as it was, 0 with
    exactly one reason added. *)
Definition reports {A : KeyedHashAdapter} (r : Z) (w w' : world) : Prop :=
  (r = 0 \/ r = 1) /\
  (r = 1 <-> err_queue w' = err_queue w) /\
  (r = 0 <-> exists e, err_queue w' = e :: err_queue w).

(** ** A small keyed hash for the concrete runs *)

Inductive toy_md : Set := toy4 | toy32.

Definition toy_size (md : toy_md) : Z :=
  match md with toy4 => 4 | toy32 => 32 end.

Definition toy_sum (l : list byte) : Z :=
  fold_right (fun b acc => Z.of_N (Byte.to_N b) + acc) 0 l.

(** Byte [j] is [sum key + 3 * sum msg + j + 1], modulo 256. *)
Definition toy_hash (md : toy_md) (key msg : list byte) : list byte :=
  map (fun j => uint8 (toy_sum key + 3 * toy_sum msg + Z.of_nat j + 1))
      (seq 0 (Z.to_nat (toy_size md))).

Definition toy (faults : nat -> bool) : KeyedHashAdapter :=
  {| EVP_MD := toy_md; EVP_MD_size := toy_size; KeyedHash := toy_hash;
     hmac_fault := faults |}.

(** No call into the keyed-hash library ever fails. *)
Definition no_fault : nat -> bool := fun _ => false.

(** Exactly the [k]-th call into the keyed-hash library fails. *)
Definition fault_at (k : nat) : nat -> bool := fun n => Nat.eqb n k.

(** The world before anything happened. *)
Definition w0 {A : KeyedHashAdapter} : world := mkWorld 0 [] [].

(** Extract of a two-byte secret under a two-byte salt. *)
Definition extract_run : Z * list byte * Z * @world (toy no_fault) :=
  @HKDF_extract (toy no_fault) (repeat x00 64) 0 toy32
                [x0b; x0b] 2 [x00; x01] 2 w0.

(** Expand of 3 and of 6 bytes from the same PRK and info. *)
Definition expand_run (L : Z) : Z * list byte * list byte * @world (toy no_fault) :=
  @HKDF_expand (toy no_fault) [] (repeat x00 8) L toy4
               [x01; x02; x03; x04] 4 [x10] 1 w0.

End HKDF.

(* ===================================================================== *)
(** * Part II b: the [x509] tool *)
(* ===================================================================== *)

Module X509.

(** A path, as the bytes of the [std::string]. *)
Definition path : Type := list byte.

Definition empty (p : path) : bool :=
  match p with [] => true | _ => false end.

(** What [GetString], [GetBoolArgument] and [GetUnsigned] leave in the locals
    of [X509Tool]; [checkend] and [days] are [int]s. *)
Record options : Type := mkOptions {
  in_path : path; out_path : path; signkey_path : path;
  noout : bool; modulus : bool; dates : bool; req : bool;
  checkend : Z; days : Z
}.

Inductive mode : Set := rb | wb.

(** The calls into the C library and libcrypto whose outcome the tool looks
    at.  [X509_gmtime_adj_notAfter] carries the offset in seconds it is
    given; [EVP_PKEY_is_RSA] is the test
    [EVP_PKEY_base_id(pkey) == EVP_PKEY_RSA]. *)
Inductive call : Type :=
| fopen (p : path) (m : mode)
| PEM_write_X509
| PEM_read_PrivateKey
| X509_sign
| PEM_read_X509_REQ
| X509_new
| X509_set_subject_name
| X509_REQ_get_pubkey
| X509_set_pubkey
| X509_set_issuer_name
| X509_gmtime_adj_notBefore
| X509_gmtime_adj_notAfter (seconds : Z)
| PEM_read_X509
| ASN1_TIME_print_notBefore
| ASN1_TIME_print_notAfter
| X509_get_pubkey
| EVP_PKEY_is_RSA
| EVP_PKEY_get0_RSA
| RSA_get0_n
| ASN1_TIME_diff.

(** The messages written to [stderr]. *)
Inductive diagnostic : Type :=
| unable_to_open_output (p : path)
| error_writing_certificate (p : path)
| unable_to_load_private_key (p : path)
| error_reading_private_key (p : path)
| error_signing_certificate (p : path)
| missing_in
| req_without_signkey
| noout_conflict
| req_conflict
| signkey_conflict
| days_conflict
| unable_to_load_certificate (p : path)
| error_parsing_CSR (p : path)
| unable_to_create_X509
| unable_to_set_subject
| unable_to_set_public_key
| unable_to_set_issuer
| unable_to_set_validity
| error_parsing_certificate (p : path)
| unable_to_load_public_key
| unable_to_load_RSA_key
| unable_to_load_modulus
| not_an_RSA_key
| time_difference_failed.

(** The lines written to [stdout]. *)
Inductive output : Set :=
| notBefore_line
| notAfter_line
| Modulus_line
| will_expire
| will_not_expire.

(** What a run does, in order.  A call is recorded with its outcome:
    [true] for a non-null pointer, a non-zero return or a test that
    holds. *)
Inductive event : Type :=
| Call (c : call) (r : bool)
| Stderr (d : diagnostic)
| Stdout (o : output)
| PrintUsage
| ERR_print_errors_fp.

(** The environment: the outcome of a call, given what the run has done so
    far. *)
Definition env : Type := list event -> call -> bool.

(** The environment after the events [t]. *)
Definition after (t : list event) (ok : env) : env :=
  fun h => ok (t ++ h).

(** A computation: from the environment, the events it adds and its
    value. *)
Definition W (X : Type) : Type := env -> list event * X.

Definition ret {X} (x : X) : W X := fun _ => ([], x).

Definition bind {X Y} (c : W X) (k : X -> W Y) : W Y :=
  fun ok =>
    let (t, x) := c ok in
    let (t', y) := k x (after t ok) in
    (t ++ t', y).

Definition say (e : event) : W unit := fun _ => ([e], tt).

Definition do_call (c : call) : W bool :=
  fun ok => let r := ok [] c in ([Call c r], r).

Section Tool.

(** What [ASN1_TIME_diff] stores in [days_left] and [seconds_left]. *)
Variables days_left seconds_left : Z.

Notation "x <- c ;; k" := (bind c (fun x => k))
  (at level 61, c at next level, right associativity).
Notation "c ;;; k" := (bind c (fun _ => k))
  (at level 61, right associativity).

(** [WriteSignedCertificate], lines 24-36. *)
Definition WriteSignedCertificate (out_path : path) : W bool :=
  out_file <- do_call (fopen out_path wb) ;;
  if negb out_file then
    say (Stderr (unable_to_open_output out_path)) ;;; ret false
  else
  written <- do_call PEM_write_X509 ;;
  if negb written then
    say (Stderr (error_writing_certificate out_path)) ;;;
    say ERR_print_errors_fp ;;; ret false
  else ret true.

(** [LoadAndSignCertificate], lines 38-57. *)
Definition LoadAndSignCertificate (signkey_path : path) : W bool :=
  signkey_file <- do_call (fopen signkey_path rb) ;;
  if negb signkey_file then
    say (Stderr (unable_to_load_private_key signkey_path)) ;;; ret false
  else
  pkey <- do_call PEM_read_PrivateKey ;;
  if negb pkey then
    say (Stderr (error_reading_private_key signkey_path)) ;;;
    say ERR_print_errors_fp ;;; ret false
  else
  signed <- do_call X509_sign ;;
  if negb signed then
    say (Stderr (error_signing_certificate signkey_path)) ;;;
    say ERR_print_errors_fp ;;; ret false
  else ret true.

(** Lines 158-170 and 241-251: sign when a key is given, then write when an
    output is wanted. *)
Definition sign_and_write (o : options) : W bool :=
  signed <- (if negb (empty (signkey_path o))
             then LoadAndSignCertificate (signkey_path o) else ret true) ;;
  if negb signed then ret false else
  written <- (if negb (noout o) && negb (empty (out_path o))
              then WriteSignedCertificate (out_path o) else ret true) ;;
  if negb written then ret false else ret true.

(** The [-req] branch, lines 117-170. *)
Definition from_request (o : options) : W bool :=
  csr <- do_call PEM_read_X509_REQ ;;
  if negb csr then
    say (Stderr (error_parsing_CSR (in_path o))) ;;;
    say ERR_print_errors_fp ;;; ret false
  else
  x509 <- do_call X509_new ;;
  if negb x509 then say (Stderr unable_to_create_X509) ;;; ret false else
  subject <- do_call X509_set_subject_name ;;
  if negb subject then say (Stderr unable_to_set_subject) ;;; ret false else
  csr_pkey <- do_call X509_REQ_get_pubkey ;;
  pubkey <- (if negb csr_pkey then ret false else do_call X509_set_pubkey) ;;
  if negb pubkey then say (Stderr unable_to_set_public_key) ;;; ret false else
  issuer <- do_call X509_set_issuer_name ;;
  if negb issuer then say (Stderr unable_to_set_issuer) ;;; ret false else
  let valid_days := if days o >? 0 then days o else 30 in
  not_before <- do_call X509_gmtime_adj_notBefore ;;
  validity <- (if negb not_before then ret false
               else do_call (X509_gmtime_adj_notAfter
                               (60 * 60 * 24 * valid_days))) ;;
  if negb validity then say (Stderr unable_to_set_validity) ;;; ret false else
  sign_and_write o.

(** The certificate branch, lines 171-252.  The comparison of line 234 is
    made on [int]s; it is the one below as long as the left side stays
    within [int]. *)
Definition from_certificate (o : options) : W bool :=
  x509 <- do_call PEM_read_X509 ;;
  if negb x509 then
    say (Stderr (error_parsing_certificate (in_path o))) ;;;
    say ERR_print_errors_fp ;;; ret false
  else
  (if dates o then
     nb <- do_call ASN1_TIME_print_notBefore ;;
     (if nb then say (Stdout notBefore_line) else ret tt) ;;;
     na <- do_call ASN1_TIME_print_notAfter ;;
     (if na then say (Stdout notAfter_line) else ret tt)
   else ret tt) ;;;
  shown <-
    (if modulus o then
       pkey <- do_call X509_get_pubkey ;;
       if negb pkey then say (Stderr unable_to_load_public_key) ;;; ret false
       else
       is_rsa <- do_call EVP_PKEY_is_RSA ;;
       if is_rsa then
         rsa <- do_call EVP_PKEY_get0_RSA ;;
         if negb rsa then say (Stderr unable_to_load_RSA_key) ;;; ret false
         else
         n <- do_call RSA_get0_n ;;
         if negb n then say (Stderr unable_to_load_modulus) ;;; ret false
         else say (Stdout Modulus_line) ;;; ret true
       else say (Stderr not_an_RSA_key) ;;; ret true
     else ret true) ;;
  if negb shown then ret false else
  checked <-
    (if negb (checkend o =? 0) then
       diff <- do_call ASN1_TIME_diff ;;
       if negb diff then say (Stderr time_difference_failed) ;;; ret false
       else
       (if days_left * 86400 + seconds_left <? checkend o
        then say (Stdout will_expire)
        else say (Stdout will_not_expire)) ;;; ret true
     else ret true) ;;
  if negb checked then ret false else
  sign_and_write o.

(** Lines 110-252: what [X509Tool] does once the options are accepted. *)
Definition run_tool (o : options) : W bool :=
  in_file <- do_call (fopen (in_path o) rb) ;;
  if negb in_file then
    say (Stderr (unable_to_load_certificate (in_path o))) ;;; ret false
  else
  if req o then from_request o else from_certificate o.

(** [X509Tool], lines 60-254.  [parsed] is what [ParseKeyValueArguments]
    returned. *)
Definition X509Tool (parsed : bool) (o : options) : W bool :=
  if negb parsed then say PrintUsage ;;; ret false else
  if empty (in_path o) then
    say (Stderr missing_in) ;;; say PrintUsage ;;; ret false
  else
  if req o && empty (signkey_path o) then
    say (Stderr req_without_signkey) ;;; ret false
  else
  if noout o && (negb (empty (out_path o)) || modulus o || dates o
                 || negb (checkend o =? 0)) then
    say (Stderr noout_conflict) ;;; ret false
  else
  if req o && (dates o || negb (checkend o =? 0)) then
    say (Stderr req_conflict) ;;; ret false
  else
  if negb (empty (signkey_path o)) && (dates o || negb (checkend o =? 0)) then
    say (Stderr signkey_conflict) ;;; ret false
  else
  if negb (days o =? 0) && (dates o || negb (checkend o =? 0)) then
    say (Stderr days_conflict) ;;; ret false
  else
  run_tool o.

End Tool.

(** ** Vocabulary for the facts *)

(** The option sets [X509Tool] turns down before it opens any file. *)
Definition conflicting (o : options) : bool :=
  let inspect := dates o || negb (checkend o =? 0) in
  empty (in_path o)
  || (req o && empty (signkey_path o))
  || (noout o && (negb (empty (out_path o)) || modulus o))
  || (inspect && (noout o || req o || negb (empty (signkey_path o))
                  || negb (days o =? 0))).

(** The range of an [int]. *)
Definition int_range (z : Z) : Prop := - 2 ^ 31 <= z < 2 ^ 31.

Definition is_call (e : event) : bool :=
  match e with Call _ _ => true | _ => false end.

Definition is_write (e : event) : bool :=
  match e with Call PEM_write_X509 _ => true | _ => false end.

Definition is_verdict (e : event) : bool :=
  match e with
  | Stdout will_expire | Stdout will_not_expire => true
  | _ => false
  end.

(** What the user is told when something is wrong: a message on [stderr]
    or the usage text. *)
Definition is_complaint (e : event) : bool :=
  match e with Stderr _ | PrintUsage => true | _ => false end.

(** The certificates written in a trace. *)
Definition writes (t : list event) : list event := filter is_write t.

(** Every certificate written in the trace is written after a signing call
    that succeeded; [seen] tells whether one has been met already. *)
Fixpoint signed_first (seen : bool) (t : list event) : bool :=
  match t with
  | [] => true
  | Call PEM_write_X509 _ :: r => seen && signed_first seen r
  | Call X509_sign true :: r => signed_first true r
  | _ :: r => signed_first seen r
  end.

(** The calls whose failure does not end the run: the two that print the
    dates, and the test for an RSA key. *)
Definition may_fail (c : call) : bool :=
  match c with
  | ASN1_TIME_print_notBefore | ASN1_TIME_print_notAfter
  | EVP_PKEY_is_RSA => true
  | _ => false
  end.

(** A call that failed, other than those. *)
Definition failed (e : event) : bool :=
  match e with Call c false => negb (may_fail c) | _ => false end.

(** No call follows one that failed. *)
Fixpoint stops_at_failure (t : list event) : bool :=
  match t with
  | [] => true
  | e :: r =>
      if failed e then forallb (fun e' => negb (is_call e')) r
      else stops_at_failure r
  end.

(** The range of a 64-bit [long]. *)
Definition long_range (z : Z) : Prop := - 2 ^ 63 <= z < 2 ^ 63.

(** ** Sample options and environments for the concrete runs *)

Definition cert_pem : path := [x63; x2e; x70; x65; x6d].
Definition key_pem : path := [x6b; x2e; x70; x65; x6d].
Definition out_pem : path := [x6f; x2e; x70; x65; x6d].

(** Every call succeeds. *)
Definition all_ok : env := fun _ _ => true.


(** [-in c.pem -out o.pem -req -signkey k.pem]. *)
Definition req_options : options :=
  mkOptions cert_pem out_pem key_pem false false false true 0 0.

(** [-in c.pem -checkend 3600]. *)
Definition checkend_options : options :=
  mkOptions cert_pem [] [] false false false false 3600 0.

(** [-in c.pem -dates -days 5]. *)
Definition clashing_options : options :=
  mkOptions cert_pem [] [] false false true false 0 5.

End X509.

(* ===================================================================== *)
(** * Part III: facts about the entropy source *)
(* ===================================================================== *)

Import Rdrand.

Lemma two_64 : 2 ^ 64 = 18446744073709551616.
Proof. reflexivity. Qed.

Lemma wrap64_range (z : Z) : 0 <= wrap64 z < 2 ^ 64.
Proof. unfold wrap64. apply Z.mod_pos_bound. reflexivity. Qed.

Lemma wrap64_small (z : Z) : 0 <= z < 2 ^ 64 -> wrap64 z = z.
Proof. unfold wrap64. apply Z.mod_small. Qed.

Lemma wrap64_minus_one : wrap64 (-1) = all_ones.
Proof. reflexivity. Qed.

(** An address is hit by the byte store at [a + k] exactly when it lies [k]
    bytes past [a], modulo 2^64. *)
Lemma hit_offset (a x k : Z) :
  0 <= x < 2 ^ 64 -> 0 <= k < 2 ^ 64 ->
  (x =? wrap64 (a + k)) = (wrap64 (x - a) =? k).
Proof.
  intros Hx Hk. unfold wrap64. rewrite two_64 in *.
  destruct (Z.eqb_spec x ((a + k) mod 18446744073709551616));
    destruct (Z.eqb_spec ((x - a) mod 18446744073709551616) k);
    try reflexivity; exfalso;
    match goal with H : _ <> _ |- _ => apply H end; clear - Hx Hk e;
    Z.div_mod_to_equations; lia.
Qed.

Lemma store64_read (m : Z -> Z) (a v x : Z) :
  0 <= x < 2 ^ 64 ->
  store64 m a v x =
  if wrap64 (x - a) <? 8 then byte_of v (wrap64 (x - a)) else m x.
Proof.
  intros Hx. unfold store64, store8. cbn [fold_left].
  rewrite !hit_offset by (rewrite ?two_64; lia).
  pose proof (wrap64_range (x - a)) as Hd.
  set (d := wrap64 (x - a)) in *.
  repeat match goal with
         | |- context [d =? ?k] => destruct (Z.eqb_spec d k); [subst d; rewrite e; reflexivity |]
         end.
  destruct (Z.ltb_spec d 8); [lia | reflexivity].
Qed.

Section RdrandFacts.

Variable hw : nat -> Z * bool.

Lemma drawn_range (n : nat) : 0 <= drawn hw n < 2 ^ 64.
Proof. apply wrap64_range. Qed.

Lemma stuck_false (v : Z) : stuck v = false -> v <> 0 /\ v <> all_ones.
Proof.
  unfold stuck. intros H. apply orb_false_iff in H. destruct H as [H0 H1].
  split; [apply Z.eqb_neq, H0 | apply Z.eqb_neq, H1].
Qed.

Lemma rdrand_eq (dst : reg) (s : machine) :
  rdrand hw dst s =
  tick (set_flags (reported_ok hw (draws s)) false
                  (set dst (drawn hw (draws s)) s)).
Proof.
  unfold rdrand, reported_ok, drawn. destruct (hw (draws s)); reflexivity.
Qed.

(** What [CRYPTO_rdrand] computes, whatever the carry flag of the draw. *)
Lemma CRYPTO_rdrand_result (s : machine) :
  let v := drawn hw (draws s) in
  let s' := CRYPTO_rdrand hw s in
  draws s' = S (draws s) /\
  (stuck v = true -> rax s' = 0 /\ mem s' = mem s) /\
  (stuck v = false -> rax s' = 1 /\ mem s' = store64 (mem s) (rdi s) v).
Proof.
  cbv zeta. unfold CRYPTO_rdrand. rewrite rdrand_eq.
  unfold testq, cmpq_imm, L_err, adcq, movq_store, xorq.
  cbn -[wrap64 Z.pow store64 Z.land Z.lxor drawn reported_ok].
  pose proof (drawn_range (draws s)) as Hv.
  set (r := drawn hw (draws s)) in *.
  rewrite Z.land_diag, wrap64_minus_one.
  unfold stuck.
  destruct (Z.eqb_spec r 0) as [E0 | N0];
    cbn -[wrap64 Z.pow store64 Z.lxor drawn reported_ok].
  - split; [reflexivity |]. split; [| discriminate].
    intros _. rewrite Z.lxor_nilpotent. split; reflexivity.
  - destruct (Z.eqb_spec r all_ones) as [E1 | N1];
      cbn -[wrap64 Z.pow store64 Z.lxor drawn reported_ok].
    + split; [reflexivity |]. split; [| discriminate].
      intros _. rewrite Z.lxor_nilpotent. split; reflexivity.
    + split; [reflexivity |]. split; [discriminate |].
      intros _. rewrite Z.lxor_nilpotent.
      assert (Hlt : (r <? all_ones) = true)
        by (apply Z.ltb_lt; unfold all_ones in *; lia).
      rewrite Hlt. split; reflexivity.
Qed.

(** One trip round the loop with a usable draw. *)
Lemma L_loop_step (fuel : nat) (s : machine) :
  good hw (draws s) = true -> rdx s = 8 ->
  L_loop hw (S fuel) s =
  let s1 := mkMachine (rax s) (drawn hw (draws s)) 8
                      (wrap64 (rsi s - 8)) (wrap64 (rdi s + 8))
                      (rsi s - 8 <? 0) (wrap64 (rsi s - 8) =? 0)
                      (store64 (mem s) (rdi s) (drawn hw (draws s)))
                      (S (draws s)) in
  if wrap64 (rsi s - 8) =? 0 then Some (L_out s1) else L_loop hw fuel s1.
Proof.
  unfold good. intros Hg Hdx. apply andb_true_iff in Hg. destruct Hg as [Hok Hns].
  apply negb_true_iff, stuck_false in Hns. destruct Hns as [N0 N1].
  cbn [L_loop]. rewrite rdrand_eq.
  unfold testq, cmpq_imm, movq_store, addq, subq.
  cbn -[wrap64 Z.pow store64 Z.land drawn reported_ok L_loop].
  rewrite Hok, Z.land_diag, wrap64_minus_one, Hdx.
  cbn -[wrap64 Z.pow store64 drawn reported_ok L_loop].
  apply Z.eqb_neq in N0, N1. rewrite N0, N1.
  cbn -[wrap64 Z.pow store64 drawn reported_ok L_loop].
  destruct (wrap64 (rsi s - 8) =? 0); reflexivity.
Qed.

(** One trip round the loop with a draw that is reported failed or stuck:
    the routine leaves through [L$err_multiple] without storing. *)
Lemma L_loop_stop (fuel : nat) (s : machine) :
  good hw (draws s) = false ->
  exists s', L_loop hw (S fuel) s = Some s' /\
             rax s' = 0 /\ mem s' = mem s /\ draws s' = S (draws s).
Proof.
  unfold good, stuck. intros Hb.
  cbn [L_loop]. rewrite rdrand_eq.
  unfold testq, cmpq_imm, L_err_multiple, xorq.
  cbn -[wrap64 Z.pow store64 Z.land Z.lxor drawn reported_ok L_loop].
  rewrite Z.land_diag, wrap64_minus_one.
  destruct (reported_ok hw (draws s));
    cbn -[wrap64 Z.pow store64 Z.lxor drawn reported_ok L_loop] in *.
  - destruct (drawn hw (draws s) =? 0);
      cbn -[wrap64 Z.pow store64 Z.lxor drawn reported_ok L_loop] in *.
    + eexists; split; [reflexivity |]. rewrite Z.lxor_nilpotent. auto.
    + rewrite negb_false_iff in Hb. rewrite Hb.
      eexists; split; [reflexivity |]. cbn. rewrite Z.lxor_nilpotent. auto.
  - eexists; split; [reflexivity |]. rewrite Z.lxor_nilpotent. auto.
Qed.

(** With [k >= 1] usable draws ahead and [len = 8k], the loop stores the [k]
    chunks and leaves through [L$out]. *)
Lemma L_loop_fill (k : nat) : forall (fuel : nat) (s : machine),
  (0 < k <= fuel)%nat ->
  rsi s = 8 * Z.of_nat k -> 8 * Z.of_nat k < 2 ^ 64 -> rdx s = 8 ->
  (forall j, (j < k)%nat -> good hw (draws s + j) = true) ->
  exists s', L_loop hw fuel s = Some s' /\
             rax s' = 1 /\ draws s' = (draws s + k)%nat /\
             mem s' = filled hw k (mem s) (rdi s) (draws s).
Proof.
  induction k as [| k IH]; intros fuel s Hk Hsi Hlt Hdx Hgood; [lia |].
  destruct fuel as [| fuel]; [lia |].
  rewrite L_loop_step;
    [| specialize (Hgood O); rewrite Nat.add_0_r in Hgood; apply Hgood; lia | exact Hdx].
  cbv zeta. rewrite Hsi.
  replace (8 * Z.of_nat (S k) - 8) with (8 * Z.of_nat k) by lia.
  rewrite (wrap64_small (8 * Z.of_nat k)) by lia.
  destruct (Z.eqb_spec (8 * Z.of_nat k) 0) as [E | N].
  - assert (k = 0%nat) by lia. subst k.
    eexists; split; [reflexivity |]. cbn -[wrap64 store64 drawn].
    repeat split. lia.
  - destruct (IH fuel
                (mkMachine (rax s) (drawn hw (draws s)) 8 (8 * Z.of_nat k)
                   (wrap64 (rdi s + 8)) (8 * Z.of_nat k <? 0) false
                   (store64 (mem s) (rdi s) (drawn hw (draws s)))
                   (S (draws s))))
      as (s' & Hrun & Hax & Hd & Hm);
      cbn [rsi rdx draws mem rdi]; try lia; try reflexivity.
    + intros j Hj. replace (S (draws s) + j)%nat with (draws s + S j)%nat by lia.
      apply Hgood. lia.
    + exists s'. split; [exact Hrun |]. split; [exact Hax |].
      cbn [draws mem rdi] in Hd, Hm. split; [lia | exact Hm].
Qed.

(** With [j] usable draws followed by one that is not, inside a buffer of
    [k > j] chunks, the loop stores [j] chunks and leaves through
    [L$err_multiple] on draw [j]: nothing is drawn again. *)
Lemma L_loop_abort (j : nat) : forall (k fuel : nat) (s : machine),
  (j < k)%nat -> (j < fuel)%nat ->
  rsi s = 8 * Z.of_nat k -> 8 * Z.of_nat k < 2 ^ 64 -> rdx s = 8 ->
  (forall i, (i < j)%nat -> good hw (draws s + i) = true) ->
  good hw (draws s + j) = false ->
  exists s', L_loop hw fuel s = Some s' /\
             rax s' = 0 /\ draws s' = S (draws s + j) /\
             mem s' = filled hw j (mem s) (rdi s) (draws s).
Proof.
  induction j as [| j IH]; intros k fuel s Hjk Hjf Hsi Hlt Hdx Hgood Hbad;
    (destruct fuel as [| fuel]; [lia |]).
  - rewrite Nat.add_0_r in *.
    destruct (L_loop_stop fuel s Hbad) as (s' & Hrun & Hax & Hm & Hd).
    exists s'. cbn [filled]. auto.
  - destruct k as [| k]; [lia |].
    rewrite L_loop_step;
      [| specialize (Hgood O); rewrite Nat.add_0_r in Hgood; apply Hgood; lia | exact Hdx].
    cbv zeta. rewrite Hsi.
    replace (8 * Z.of_nat (S k) - 8) with (8 * Z.of_nat k) by lia.
    rewrite (wrap64_small (8 * Z.of_nat k)) by lia.
    destruct (Z.eqb_spec (8 * Z.of_nat k) 0) as [E | N]; [lia |].
    destruct (IH k fuel
                (mkMachine (rax s) (drawn hw (draws s)) 8 (8 * Z.of_nat k)
                   (wrap64 (rdi s + 8)) (8 * Z.of_nat k <? 0) false
                   (store64 (mem s) (rdi s) (drawn hw (draws s)))
                   (S (draws s))))
      as (s' & Hrun & Hax & Hd & Hm);
      cbn [rsi rdx draws mem rdi]; try lia; try reflexivity.
    + intros i Hi. replace (S (draws s) + i)%nat with (draws s + S i)%nat by lia.
      apply Hgood. lia.
    + replace (S (draws s) + j)%nat with (draws s + S j)%nat by lia. exact Hbad.
    + exists s'. split; [exact Hrun |]. split; [exact Hax |].
      cbn [draws mem rdi] in Hd, Hm. split; [lia | exact Hm].
Qed.

(** Bytes outside the [k] chunks at [a] are not touched. *)
Lemma filled_frame (k : nat) : forall (m : Z -> Z) (a : Z) (d : nat) (x : Z),
  0 <= x < 2 ^ 64 -> 8 * Z.of_nat k <= wrap64 (x - a) ->
  filled hw k m a d x = m x.
Proof.
  induction k as [| k IH]; intros m a d x Hx Hout; [reflexivity |].
  cbn [filled]. rewrite IH; [| exact Hx |].
  - rewrite store64_read by exact Hx.
    destruct (Z.ltb_spec (wrap64 (x - a)) 8); [lia | reflexivity].
  - revert Hout. unfold wrap64. rewrite two_64 in *.
    intros Hout. Z.div_mod_to_equations. lia.
Qed.

(** Byte [i] of the buffer holds byte [i mod 8] of draw [i / 8]. *)
Lemma filled_read (k : nat) : forall (m : Z -> Z) (a : Z) (d : nat) (i : Z),
  8 * Z.of_nat k < 2 ^ 64 -> 0 <= i < 8 * Z.of_nat k ->
  filled hw k m a d (wrap64 (a + i)) =
  byte_of (drawn hw (d + Z.to_nat (i / 8))) (i mod 8).
Proof.
  induction k as [| k IH]; intros m a d i Hk Hi; [lia |].
  cbn [filled].
  destruct (Z.ltb_spec i 8) as [Hlo | Hhi].
  - rewrite filled_frame.
    + rewrite store64_read by apply wrap64_range.
      assert (E : wrap64 (wrap64 (a + i) - a) = i).
      { unfold wrap64. rewrite two_64 in *. Z.div_mod_to_equations. lia. }
      rewrite E. destruct (Z.ltb_spec i 8); [| lia].
      rewrite Z.div_small, Z.mod_small by lia.
      rewrite Nat.add_0_r. reflexivity.
    + apply wrap64_range.
    + unfold wrap64. rewrite two_64 in *. Z.div_mod_to_equations. lia.
  - replace (wrap64 (a + i)) with (wrap64 (wrap64 (a + 8) + (i - 8))).
    + rewrite IH by lia.
      replace (i / 8) with ((i - 8) / 8 + 1).
      * replace (i mod 8) with ((i - 8) mod 8).
        -- f_equal. f_equal. rewrite Z2Nat.inj_add by (try apply Z.div_pos; lia).
           change (Z.to_nat 1) with 1%nat. lia.
        -- Z.div_mod_to_equations. lia.
      * Z.div_mod_to_equations. lia.
    + unfold wrap64. rewrite two_64 in *. Z.div_mod_to_equations. lia.
Qed.

(** On hardware that zeroes the destination whenever it reports failure, a
    reported failure is caught by the test for zero. *)
Lemma CRYPTO_rdrand_on_zeroing_hardware (s : machine) :
  (reported_ok hw (draws s) = false -> drawn hw (draws s) = 0) ->
  reported_ok hw (draws s) = false ->
  rax (CRYPTO_rdrand hw s) = 0 /\ mem (CRYPTO_rdrand hw s) = mem s.
Proof.
  intros Hzero Hfail.
  destruct (CRYPTO_rdrand_result s) as (_ & Hstuck & _).
  apply Hstuck. unfold stuck. rewrite (Hzero Hfail). reflexivity.
Qed.

(** C10: whenever the single-word draw returns failure, the caller's word is
    left as it was: no failing path stores through [%rdi]. *)
Theorem CRYPTO_rdrand_failure_writes_nothing (s : machine) :
  rax (CRYPTO_rdrand hw s) = 0 -> mem (CRYPTO_rdrand hw s) = mem s.
Proof.
  intros Hfail.
  destruct (CRYPTO_rdrand_result s) as (_ & Hstuck & Hfree).
  destruct (stuck (drawn hw (draws s))) eqn:E.
  - apply Hstuck. reflexivity.
  - destruct (Hfree eq_refl) as [Hone _]. rewrite Hone in Hfail. discriminate.
Qed.

(** C7: bulk fill of [len = 8k] bytes, the [k] draws it needs all being
    reported successful and none stuck, returns 1 after exactly [k] draws;
    byte [i] of the buffer is byte [i mod 8] of draw [i / 8], and no byte
    outside the buffer changes.  With [k = 0] it returns 1 with the memory
    untouched and nothing drawn. *)
Theorem CRYPTO_rdrand_multiple8_buf_fills (s : machine) (k fuel : nat) :
  rsi s = 8 * Z.of_nat k -> 8 * Z.of_nat k < 2 ^ 64 ->
  (forall j, (j < k)%nat -> good hw (draws s + j) = true) ->
  (k <= fuel)%nat ->
  exists s',
    CRYPTO_rdrand_multiple8_buf hw fuel s = Some s' /\
    rax s' = 1 /\
    draws s' = (draws s + k)%nat /\
    (k = 0%nat -> mem s' = mem s) /\
    (forall i, 0 <= i < 8 * Z.of_nat k ->
       mem s' (wrap64 (rdi s + i)) =
       byte_of (drawn hw (draws s + Z.to_nat (i / 8))) (i mod 8)) /\
    (forall x, 0 <= x < 2 ^ 64 -> 8 * Z.of_nat k <= wrap64 (x - rdi s) ->
       mem s' x = mem s x).
Proof.
  intros Hsi Hlt Hgood Hfuel. unfold CRYPTO_rdrand_multiple8_buf, testq.
  cbn -[wrap64 Z.pow Z.land L_loop]. rewrite Z.land_diag.
  destruct (Z.eqb_spec (rsi s) 0) as [E | N].
  - assert (k = 0%nat) by lia. subst k.
    eexists; split; [reflexivity |]. cbn -[wrap64 Z.pow].
    repeat split; try lia; auto.
  - destruct (L_loop_fill k fuel
                (mkMachine (rax s) (rcx s) (wrap64 8) (rsi s) (rdi s)
                           false false (mem s) (draws s)))
      as (s' & Hrun & Hax & Hd & Hm);
      cbn [rsi rdx draws mem rdi]; try lia; try reflexivity.
    + exact Hgood.
    + exists s'. split; [exact Hrun |]. split; [exact Hax |].
      cbn [draws mem rdi] in Hd, Hm.
      split; [exact Hd |]. split; [lia |]. rewrite Hm. split.
      * intros i Hi. apply filled_read; assumption.
      * intros x Hx Hout. apply filled_frame; assumption.
Qed.

(** C3, as the code has it: every chunk is given one draw.  The first draw
    that the instruction reports failed, or reports successful with an
    all-zero or all-one value, ends the bulk fill with result 0; it is the
    last draw made, and the chunks before it stay written. *)
Theorem CRYPTO_rdrand_multiple8_buf_aborts (s : machine) (k j fuel : nat) :
  rsi s = 8 * Z.of_nat k -> 8 * Z.of_nat k < 2 ^ 64 ->
  (j < k)%nat ->
  (forall i, (i < j)%nat -> good hw (draws s + i) = true) ->
  good hw (draws s + j) = false ->
  (j < fuel)%nat ->
  exists s',
    CRYPTO_rdrand_multiple8_buf hw fuel s = Some s' /\
    rax s' = 0 /\
    draws s' = S (draws s + j) /\
    mem s' = filled hw j (mem s) (rdi s) (draws s).
Proof.
  intros Hsi Hlt Hjk Hgood Hbad Hfuel. unfold CRYPTO_rdrand_multiple8_buf, testq.
  cbn -[wrap64 Z.pow Z.land L_loop]. rewrite Z.land_diag.
  destruct (Z.eqb_spec (rsi s) 0) as [E | N]; [lia |].
  destruct (L_loop_abort j k fuel
              (mkMachine (rax s) (rcx s) (wrap64 8) (rsi s) (rdi s)
                         false false (mem s) (draws s)))
    as (s' & Hrun & Hax & Hd & Hm);
    cbn [rsi rdx draws mem rdi]; try lia; try reflexivity; try assumption.
  exists s'. auto.
Qed.

End RdrandFacts.

Lemma CRYPTO_rdrand_failure_writes_nothing_witness :
  rax (CRYPTO_rdrand hw_stuck (entry 4096 0)) = 0 /\
  mem (CRYPTO_rdrand hw_stuck (entry 4096 0)) = mem (entry 4096 0).
Proof.
  split; [reflexivity |].
  apply (CRYPTO_rdrand_failure_writes_nothing hw_stuck (entry 4096 0)).
  reflexivity.
Defined.

Lemma CRYPTO_rdrand_multiple8_buf_fills_witness :
  exists s',
    CRYPTO_rdrand_multiple8_buf hw_five 2 (entry 4096 16) = Some s' /\
    rax s' = 1 /\
    draws s' = 2%nat /\
    (2%nat = 0%nat -> mem s' = mem (entry 4096 16)) /\
    (forall i, 0 <= i < 8 * Z.of_nat 2 ->
       mem s' (wrap64 (4096 + i)) =
       byte_of (drawn hw_five (0 + Z.to_nat (i / 8))) (i mod 8)) /\
    (forall x, 0 <= x < 2 ^ 64 -> 8 * Z.of_nat 2 <= wrap64 (x - 4096) ->
       mem s' x = mem (entry 4096 16) x).
Proof.
  apply (CRYPTO_rdrand_multiple8_buf_fills hw_five (entry 4096 16) 2 2).
  - reflexivity.
  - reflexivity.
  - intros j _. reflexivity.
  - lia.
Defined.

Lemma CRYPTO_rdrand_multiple8_buf_aborts_witness :
  exists s',
    CRYPTO_rdrand_multiple8_buf hw_second_stuck 3 (entry 4096 24) = Some s' /\
    rax s' = 0 /\
    draws s' = 2%nat /\
    mem s' = filled hw_second_stuck 1 (mem (entry 4096 24)) 4096 0.
Proof.
  apply (CRYPTO_rdrand_multiple8_buf_aborts hw_second_stuck (entry 4096 24) 3 1 3).
  - reflexivity.
  - reflexivity.
  - lia.
  - intros i Hi. assert (i = 0%nat) by lia. subst i. reflexivity.
  - reflexivity.
  - lia.
Defined.

(** C3, as stated, fails: here the first draw is reported failed and every
    later draw would be usable, yet the bulk fill of one chunk returns 0 after
    that single draw, with nothing stored: the failure is fatal, not
    retried. *)
Lemma CRYPTO_rdrand_multiple8_buf_no_retry :
  reported_ok hw_transient 0 = false /\
  good hw_transient 1 = true /\
  option_map rax (CRYPTO_rdrand_multiple8_buf hw_transient 8 (entry 4096 8))
    = Some 0 /\
  option_map draws (CRYPTO_rdrand_multiple8_buf hw_transient 8 (entry 4096 8))
    = Some 1%nat /\
  option_map (fun s => mem s 4096)
             (CRYPTO_rdrand_multiple8_buf hw_transient 8 (entry 4096 8))
    = Some 0.
Proof. repeat split; reflexivity. Qed.

(** C4, at the failing input: the instruction reports failure (carry clear)
    while leaving 5 in [%rdx]; the routine nevertheless returns 1 and stores
    the value through [%rdi]. *)
Theorem CRYPTO_rdrand_accepts_unreported_draw :
  reported_ok hw_unreported 0 = false /\
  rax (CRYPTO_rdrand hw_unreported (entry 4096 0)) = 1 /\
  mem (CRYPTO_rdrand hw_unreported (entry 4096 0)) 4096 = 5.
Proof. repeat split; reflexivity. Qed.

(* ===================================================================== *)
(** * Part IV: facts about HKDF *)
(* ===================================================================== *)

Import HKDF.

(** ** Arithmetic of the length check *)

Lemma ceil_div_eq (a b : Z) : 0 <= a -> 0 < b -> ceil_div a b = (a + b - 1) / b.
Proof.
  intros Ha Hb. unfold ceil_div.
  destruct (Z.eqb_spec (a mod b) 0); Z.div_mod_to_equations; nia.
Qed.

Lemma ceil_div_bounds (a b : Z) :
  0 <= a -> 0 < b -> (ceil_div a b - 1) * b < a + (if a =? 0 then 1 else 0)
                     /\ a <= ceil_div a b * b /\ 0 <= ceil_div a b.
Proof.
  intros Ha Hb. rewrite ceil_div_eq by assumption.
  destruct (Z.eqb_spec a 0); Z.div_mod_to_equations; nia.
Qed.

(** The test fires exactly when [out_len + digest_len] overflows or more
    than 255 blocks are needed. *)
Lemma too_large_test_spec (out_len digest_len : Z) :
  0 <= out_len < 2 ^ 64 -> 0 < digest_len <= EVP_MAX_MD_SIZE ->
  too_large_test out_len digest_len = true <->
  (2 ^ 64 <= out_len + digest_len \/ 255 < ceil_div out_len digest_len).
Proof.
  intros Ho Hd. unfold too_large_test, size_t, EVP_MAX_MD_SIZE in *.
  rewrite ceil_div_eq by lia. rewrite two_64 in *.
  rewrite orb_true_iff, Z.ltb_lt, Z.gtb_gt.
  destruct (Z.le_gt_cases 18446744073709551616 (out_len + digest_len)) as [Hov | Hno].
  - split; [intros _; left; exact Hov | intros _; left].
    Z.div_mod_to_equations. lia.
  - rewrite (Z.mod_small (out_len + digest_len)) by lia.
    rewrite (Z.mod_small (out_len + digest_len - 1)) by lia.
    split; (intros [H | H]; [lia | right; lia]).
Qed.

Lemma valid_block_count (out_len digest_len : Z) :
  0 <= out_len < 2 ^ 64 -> 0 < digest_len <= EVP_MAX_MD_SIZE ->
  too_large_test out_len digest_len = false ->
  size_t (out_len + digest_len - 1) / digest_len = ceil_div out_len digest_len
  /\ ceil_div out_len digest_len <= 255.
Proof.
  intros Ho Hd Hv.
  assert (Hn : ~ (2 ^ 64 <= out_len + digest_len
                  \/ 255 < ceil_div out_len digest_len)).
  { rewrite <- too_large_test_spec by assumption. rewrite Hv. discriminate. }
  unfold size_t. rewrite Z.mod_small by lia.
  rewrite ceil_div_eq by lia. split; [reflexivity |].
  rewrite <- ceil_div_eq by lia. lia.
Qed.

Section HKDFFacts.

Context {A : KeyedHashAdapter}.

(** Every digest has an output of 1 to [EVP_MAX_MD_SIZE] bytes, and the keyed
    hash delivers that many. *)
Hypothesis EVP_MD_size_range :
  forall md, 0 < EVP_MD_size md <= EVP_MAX_MD_SIZE.
Hypothesis KeyedHash_length :
  forall md key msg, Z.of_nat (length (KeyedHash md key msg)) = EVP_MD_size md.

(** ** The operations, run *)

Lemma HMAC_Init_ex_run ctx key md w :
  HMAC_Init_ex ctx key md w =
  (match hmac_fault (hmac_calls w),
         match md with Some d => Some d | None => ctx_md ctx end with
   | false, Some d =>
       (1, mkCtx (Some d) (match key with Some k => k | None => ctx_key ctx end) [])
   | _, _ => (0, ctx)
   end, bump w).
Proof.
  unfold HMAC_Init_ex, bind, hmac_call, bump.
  destruct (hmac_fault (hmac_calls w)), md, (ctx_md ctx); reflexivity.
Qed.

Lemma HMAC_Update_run ctx data w :
  HMAC_Update ctx data w =
  (match hmac_fault (hmac_calls w), ctx_md ctx with
   | false, Some d => (1, mkCtx (Some d) (ctx_key ctx) (ctx_msg ctx ++ data))
   | _, _ => (0, ctx)
   end, bump w).
Proof.
  unfold HMAC_Update, bind, hmac_call, bump.
  destruct (hmac_fault (hmac_calls w)), (ctx_md ctx); reflexivity.
Qed.

Lemma HMAC_Final_run ctx out w :
  HMAC_Final ctx out w =
  (match hmac_fault (hmac_calls w), ctx_md ctx with
   | false, Some d =>
       (1, ctx,
        OPENSSL_memcpy out 0 (KeyedHash d (ctx_key ctx) (ctx_msg ctx))
          (Z.of_nat (length (KeyedHash d (ctx_key ctx) (ctx_msg ctx)))))
   | _, _ => (0, ctx, out)
   end, bump w).
Proof.
  unfold HMAC_Final, bind, hmac_call, bump.
  destruct (hmac_fault (hmac_calls w)), (ctx_md ctx); reflexivity.
Qed.

Lemma HMAC_run md key data out w :
  HMAC md key data out w =
  (if hmac_fault (hmac_calls w) then None
   else Some (OPENSSL_memcpy out 0 (KeyedHash md key data)
                (Z.of_nat (length (KeyedHash md key data))),
              Z.of_nat (length (KeyedHash md key data))),
   bump w).
Proof.
  unfold HMAC, bind, hmac_call, bump.
  destruct (hmac_fault (hmac_calls w)); reflexivity.
Qed.

(** Writing a whole block to the front of a buffer. *)
Lemma memcpy_front (dst src : list byte) :
  OPENSSL_memcpy dst 0 src (Z.of_nat (length src)) =
  src ++ skipn (length src) dst.
Proof.
  unfold OPENSSL_memcpy, span. rewrite Z.add_0_l, Nat2Z.id.
  change (Z.to_nat 0) with 0%nat. cbn [firstn app].
  rewrite firstn_all. reflexivity.
Qed.

(** ** [HKDF_extract], run *)

Lemma HKDF_extract_run out_key out_len digest secret secret_len salt salt_len w :
  let PRK := KeyedHash digest (span salt salt_len) (span secret secret_len) in
  HKDF_extract out_key out_len digest secret secret_len salt salt_len w =
  if hmac_fault (hmac_calls w)
  then (0, out_key, out_len,
        mkWorld (S (hmac_calls w)) (ERR_R_HMAC_LIB :: err_queue w)
                (unlock_state :: lock_state :: indicator w))
  else (1, PRK ++ skipn (length PRK) out_key, Z.of_nat (length PRK),
        mkWorld (S (hmac_calls w)) (err_queue w)
                (unlock_state :: lock_state :: indicator w)).
Proof.
  cbv zeta. unfold HKDF_extract, bind.
  unfold FIPS_service_indicator_lock_state, signal at 1. rewrite HMAC_run.
  cbn [hmac_calls]. destruct (hmac_fault (hmac_calls w)).
  - reflexivity.
  - rewrite memcpy_front. reflexivity.
Qed.

(** ** Computations that only talk to the keyed-hash library *)

Lemma tame_ret {X} (x : X) : tame (ret x).
Proof.
  intros [c e i] [c' e' i'] H. cbn in H. subst c'.
  exists x, c. split; reflexivity.
Qed.

Lemma tame_bind {X Y} (c : M X) (k : X -> M Y) :
  tame c -> (forall x, tame (k x)) -> tame (bind c k).
Proof.
  intros Hc Hk w v H. unfold bind.
  destruct (Hc w v H) as (x & n & -> & ->).
  destruct (Hk x (mkWorld n (err_queue w) (indicator w))
                 (mkWorld n (err_queue v) (indicator v)) eq_refl)
    as (y & m & -> & ->).
  exists y, m. split; reflexivity.
Qed.

Lemma bind_assoc {X Y Z'} (c : M X) (k : X -> M Y) (h : Y -> M Z') (w : world) :
  bind (bind c k) h w = bind c (fun x => bind (k x) h) w.
Proof. unfold bind. destruct (c w) as [x w']. reflexivity. Qed.

Lemma tame_hmac_call : tame hmac_call.
Proof.
  intros w v H. unfold hmac_call. rewrite <- H.
  exists (hmac_fault (hmac_calls w)), (S (hmac_calls w)). split; reflexivity.
Qed.

Ltac tame_tac :=
  repeat first
    [ apply tame_ret
    | apply tame_hmac_call
    | assumption
    | apply tame_bind; [| intros ?]
    | match goal with
      | |- tame (match ?x with _ => _ end) => destruct x
      end ].

Lemma tame_HMAC_Init_ex ctx key md : tame (HMAC_Init_ex ctx key md).
Proof. unfold HMAC_Init_ex. tame_tac. Qed.

Lemma tame_HMAC_Update ctx data : tame (HMAC_Update ctx data).
Proof. unfold HMAC_Update. tame_tac. Qed.

Lemma tame_HMAC_Final ctx out : tame (HMAC_Final ctx out).
Proof. unfold HMAC_Final. tame_tac. Qed.

Lemma tame_expand_block out_len digest info info_len i f :
  tame (expand_block out_len digest info info_len i f).
Proof.
  unfold expand_block.
  pose proof tame_HMAC_Init_ex. pose proof tame_HMAC_Update.
  pose proof tame_HMAC_Final.
  repeat first
    [ apply tame_ret
    | match goal with H : forall _, _ |- _ => apply H end
    | apply tame_bind; [| intros ?]
    | match goal with
      | |- tame (match ?x with _ => _ end) => destruct x
      end ].
Qed.

Lemma tame_expand_loop out_len digest info info_len count :
  forall i f, tame (expand_loop out_len digest info info_len count i f).
Proof.
  induction count as [| count IH]; intros i f; cbn [expand_loop].
  - apply tame_ret.
  - apply tame_bind; [apply tame_expand_block |].
    intros [[] f']; [apply IH | apply tame_ret].
Qed.

Lemma tame_expand_core previous out_key out_len digest prk prk_len info info_len :
  tame (expand_core previous out_key out_len digest prk prk_len info info_len).
Proof.
  unfold expand_core. apply tame_bind; [apply tame_HMAC_Init_ex |].
  intros [r h]. destruct (r =? 0); [apply tame_ret | apply tame_expand_loop].
Qed.

(** [HKDF_expand], run: the length check, then the keyed-hash phase between
    the indicator calls, then the error report. *)
Lemma HKDF_expand_run previous out_key out_len digest prk prk_len info info_len w :
  HKDF_expand previous out_key out_len digest prk prk_len info info_len w =
  if too_large_test out_len (EVP_MD_size digest)
  then (0, out_key, previous,
        mkWorld (hmac_calls w) (HKDF_R_OUTPUT_TOO_LARGE :: err_queue w)
                (indicator w))
  else
    let '(ok, f, w1) :=
      expand_core previous out_key out_len digest prk prk_len info info_len w in
    (if ok then 1 else 0, fr_out_key f, fr_previous f,
     mkWorld (hmac_calls w1)
             (if ok then err_queue w else ERR_R_HMAC_LIB :: err_queue w)
             (HKDFExpand_verify digest :: unlock_state :: lock_state
                :: indicator w)).
Proof.
  unfold HKDF_expand, too_large_test. cbv zeta.
  destruct ((size_t (out_len + EVP_MD_size digest) <? out_len)
            || (size_t (out_len + EVP_MD_size digest - 1) / EVP_MD_size digest
                >? 255)); [reflexivity |].
  unfold bind at 1. unfold FIPS_service_indicator_lock_state, signal at 1.
  set (wl := mkWorld (hmac_calls w) (err_queue w) (lock_state :: indicator w)).
  set (rest := fun x : bool * frame => let '(ok, f) := x in
                  bind FIPS_service_indicator_unlock_state (fun _ =>
                  bind (HKDFExpand_verify_service_indicator digest) (fun _ =>
                  bind (if negb ((if ok then 1 else 0) =? 1)
                        then OPENSSL_PUT_ERROR ERR_R_HMAC_LIB else ret tt)
                       (fun _ => ret (if ok then 1 else 0, fr_out_key f,
                                      fr_previous f))))).
  transitivity
    (bind (expand_core previous out_key out_len digest prk prk_len info info_len)
          rest wl).
  { unfold expand_core. rewrite bind_assoc. unfold bind at 1 3.
    destruct (HMAC_Init_ex HMAC_CTX_init (Some (span prk prk_len)) (Some digest) wl)
      as [[r h] w']. reflexivity. }
  unfold bind at 1.
  destruct (tame_expand_core previous out_key out_len digest prk prk_len
              info info_len wl w eq_refl) as ([ok f] & n & -> & ->).
  subst rest wl.
  destruct ok; reflexivity.
Qed.

(** ** One block of [HKDF_expand] *)

Section ExpandFacts.

Variables (out_len : Z) (digest : EVP_MD) (info : list byte) (info_len : Z).

Ltac run_hmac :=
  repeat first
    [ rewrite HMAC_Init_ex_run | rewrite HMAC_Update_run
    | rewrite HMAC_Final_run ];
  cbn [hmac_calls bump ctx_md ctx_key ctx_msg fst snd].

Lemma expand_block_true i f w f' w' :
  ctx_md (fr_hmac f) = Some digest ->
  expand_block out_len digest info info_len i f w = (true, f', w') ->
  f' = next_frame out_len digest info info_len i f.
Proof.
  intros Hmd. unfold expand_block, bind, ret, next_frame, fed.
  destruct (i =? 0).
  - cbn -[uint8 OPENSSL_memcpy size_t]. run_hmac. rewrite Hmd.
    destruct (hmac_fault (hmac_calls w));
      cbn -[uint8 OPENSSL_memcpy size_t]; [congruence |].
    run_hmac.
    destruct (hmac_fault (S (hmac_calls w)));
      cbn -[uint8 OPENSSL_memcpy size_t]; [congruence |].
    run_hmac.
    destruct (hmac_fault (S (S (hmac_calls w))));
      cbn -[uint8 OPENSSL_memcpy size_t]; [congruence |].
    intros H. injection H as <- _. destruct f as [[md k m] p d o].
    cbn in Hmd. subst md. reflexivity.
  - run_hmac. rewrite Hmd.
    destruct (hmac_fault (hmac_calls w));
      cbn -[uint8 OPENSSL_memcpy size_t]; [congruence |].
    run_hmac.
    destruct (hmac_fault (S (hmac_calls w)));
      cbn -[uint8 OPENSSL_memcpy size_t]; [congruence |].
    run_hmac.
    destruct (hmac_fault (S (S (hmac_calls w))));
      cbn -[uint8 OPENSSL_memcpy size_t]; [congruence |].
    run_hmac.
    destruct (hmac_fault (S (S (S (hmac_calls w)))));
      cbn -[uint8 OPENSSL_memcpy size_t]; [congruence |].
    run_hmac.
    destruct (hmac_fault (S (S (S (S (hmac_calls w))))));
      cbn -[uint8 OPENSSL_memcpy size_t]; [congruence |].
    intros H. injection H as <- _. reflexivity.
Qed.

(** Under a schedule without failures the body runs to its end. *)
Lemma expand_block_nofault i f w :
  (forall n, hmac_fault n = false) ->
  ctx_md (fr_hmac f) = Some digest ->
  exists w', expand_block out_len digest info info_len i f w
             = (true, next_frame out_len digest info info_len i f, w').
Proof.
  intros Hnf Hmd.
  destruct (expand_block out_len digest info info_len i f w) as [[ok f'] w'] eqn:E.
  assert (Hok : ok = true).
  { revert E. unfold expand_block, bind, ret.
    destruct (i =? 0);
      do 6 (cbn -[uint8 OPENSSL_memcpy size_t HMAC_Init_ex HMAC_Update HMAC_Final];
            run_hmac; rewrite ?Hmd, ?Hnf);
      congruence. }
  subst ok. exists w'. rewrite (expand_block_true i f w f' w' Hmd E). reflexivity.
Qed.

(** ** The loop invariant *)

Variables (PRK out0 : list byte).

Lemma T_length (j : nat) :
  Z.of_nat (length (T digest PRK (span info info_len) (S j))) = EVP_MD_size digest.
Proof. cbn [T]. apply KeyedHash_length. Qed.

Lemma blocks_S (j : nat) :
  blocks digest PRK (span info info_len) (S j) =
  blocks digest PRK (span info info_len) j
  ++ T digest PRK (span info info_len) (S j).
Proof.
  unfold blocks. rewrite seq_S, map_app, concat_app. cbn [map concat Nat.add].
  rewrite app_nil_r. reflexivity.
Qed.

Lemma blocks_length (j : nat) :
  Z.of_nat (length (blocks digest PRK (span info info_len) j))
  = Z.of_nat j * EVP_MD_size digest.
Proof.
  induction j as [| j IH]; [reflexivity |].
  rewrite blocks_S, length_app, Nat2Z.inj_add, IH, T_length. lia.
Qed.

Lemma firstn_app_len {X} (l r : list X) (n : nat) :
  length l = n -> firstn n (l ++ r) = l.
Proof.
  intros <-. rewrite firstn_app, Nat.sub_diag, firstn_all. cbn [firstn].
  apply app_nil_r.
Qed.

Lemma block_inv_next (j : nat) (f : frame) :
  0 <= out_len < 2 ^ 64 ->
  Z.of_nat j * EVP_MD_size digest < out_len ->
  block_inv out_len digest info info_len PRK out0 j f ->
  block_inv out_len digest info info_len PRK out0 (S j) (next_frame out_len digest info info_len (Z.of_nat j) f).
Proof.
  intros Hlen Hj (Hmd & Hkey & Hmsg & Hprev & Hdone & Hout).
  pose proof (EVP_MD_size_range digest) as Hdl. unfold EVP_MAX_MD_SIZE in Hdl.
  assert (Hfed : fed digest info info_len (Z.of_nat j) f =
                 T digest PRK (span info info_len) j
                 ++ span info info_len ++ [uint8 (Z.of_nat (S j))]).
  { unfold fed. rewrite <- app_assoc.
    replace (Z.of_nat j + 1) with (Z.of_nat (S j)) by lia.
    destruct j as [| j'].
    - cbn [Z.of_nat Z.eqb T]. rewrite Hmsg by reflexivity. reflexivity.
    - replace (Z.of_nat (S j') =? 0) with false by (symmetry; apply Z.eqb_neq; lia).
      rewrite Hprev by discriminate. reflexivity. }
  assert (Hmac : KeyedHash digest (ctx_key (fr_hmac f)) (fed digest info info_len (Z.of_nat j) f)
                 = T digest PRK (span info info_len) (S j)).
  { rewrite Hfed, Hkey. reflexivity. }
  assert (Hd : fr_done f = Z.of_nat j * EVP_MD_size digest) by lia.
  pose proof (T_length j) as HT. pose proof (blocks_length j) as HB.
  unfold block_inv, next_frame. cbv zeta.
  cbn [fr_hmac fr_previous fr_done fr_out_key ctx_md ctx_key ctx_msg].
  rewrite Hmac, memcpy_front.
  set (mac := T digest PRK (span info info_len) (S j)) in *.
  set (bl := blocks digest PRK (span info info_len) j) in *.
  assert (Hspan : forall n, 0 <= n <= EVP_MD_size digest ->
            span (mac ++ skipn (length mac) (fr_previous f)) n
            = firstn (Z.to_nat n) mac).
  { intros n Hn. unfold span. rewrite firstn_app.
    replace (Z.to_nat n - length mac)%nat with 0%nat by lia.
    cbn [firstn]. apply app_nil_r. }
  unfold size_t. rewrite (Z.mod_small (out_len - fr_done f)) by lia.
  set (todo := if EVP_MD_size digest >? out_len - fr_done f
               then out_len - fr_done f else EVP_MD_size digest).
  assert (Htodo : todo = Z.min (EVP_MD_size digest) (out_len - fr_done f)).
  { unfold todo. destruct (Z.gtb_spec (EVP_MD_size digest) (out_len - fr_done f)); lia. }
  rewrite (Z.mod_small (fr_done f + todo)) by lia.
  split; [reflexivity |]. split; [exact Hkey |]. split; [discriminate |].
  split; [| split].
  - intros _. rewrite Hspan by lia. apply firstn_all2. lia.
  - lia.
  - unfold OPENSSL_memcpy. rewrite Hspan by lia.
    rewrite blocks_S. fold bl. fold mac.
    rewrite Hout.
    assert (Hl : length bl = Z.to_nat (fr_done f)) by lia.
    rewrite (firstn_all2 (n := Z.to_nat (fr_done f)) bl) by lia.
    rewrite firstn_app_len by exact Hl.
    replace (Z.to_nat (fr_done f + todo))
      with (length bl + Z.to_nat todo)%nat by lia.
    rewrite firstn_app_2, <- app_assoc. f_equal. f_equal.
    rewrite skipn_app.
    replace (length bl + Z.to_nat todo - length bl)%nat with (Z.to_nat todo) by lia.
    rewrite (skipn_all2 (n := (length bl + Z.to_nat todo)%nat) bl) by lia.
    cbn [app]. rewrite skipn_skipn. f_equal. lia.
Qed.

Lemma expand_loop_inv (count : nat) : forall (j : nat) f w f' w',
  0 <= out_len < 2 ^ 64 ->
  (Z.of_nat (j + count) - 1) * EVP_MD_size digest < out_len ->
  block_inv out_len digest info info_len PRK out0 j f ->
  expand_loop out_len digest info info_len count (Z.of_nat j) f w = (true, f', w') ->
  block_inv out_len digest info info_len PRK out0 (j + count) f'.
Proof.
  pose proof (EVP_MD_size_range digest) as Hdl.
  induction count as [| count IH]; intros j f w f' w' Hlen Hlast Hinv Hrun.
  - cbn in Hrun. injection Hrun as <- _. rewrite Nat.add_0_r. exact Hinv.
  - cbn [expand_loop] in Hrun. unfold bind in Hrun.
    destruct (expand_block out_len digest info info_len (Z.of_nat j) f w)
      as [[ok f1] w1] eqn:E.
    destruct ok; [| discriminate].
    destruct Hinv as (Hmd & Hrest).
    rewrite (expand_block_true _ _ _ _ _ Hmd E) in Hrun.
    replace (Z.of_nat j + 1) with (Z.of_nat (S j)) in Hrun by lia.
    replace (j + S count)%nat with (S j + count)%nat by lia.
    apply (IH (S j) _ _ _ _ Hlen) in Hrun; [exact Hrun | |].
    + replace (S j + count)%nat with (j + S count)%nat by lia. exact Hlast.
    + apply block_inv_next; [exact Hlen | nia | split; assumption].
Qed.

Lemma expand_loop_nofault (count : nat) : forall (i : Z) f w,
  (forall n, hmac_fault n = false) ->
  ctx_md (fr_hmac f) = Some digest ->
  exists f' w', expand_loop out_len digest info info_len count i f w
                = (true, f', w').
Proof.
  induction count as [| count IH]; intros i f w Hnf Hmd.
  - exists f, w. reflexivity.
  - cbn [expand_loop]. unfold bind.
    destruct (expand_block_nofault i f w Hnf Hmd) as (w1 & ->).
    apply IH; [exact Hnf | reflexivity].
Qed.

End ExpandFacts.

(** ** The whole of [HKDF_expand] *)

Lemma blocks_app digest PRK info (n k : nat) :
  exists r, blocks digest PRK info (n + k) = blocks digest PRK info n ++ r.
Proof.
  unfold blocks. rewrite seq_app, map_app, concat_app. eexists. reflexivity.
Qed.

Lemma OKM_length digest prk prk_len info info_len (L : Z) :
  0 <= L ->
  Z.of_nat (length (OKM digest (span prk prk_len) (span info info_len) L)) = L.
Proof.
  intros HL. unfold OKM. pose proof (EVP_MD_size_range digest) as Hdl.
  destruct (ceil_div_bounds L (EVP_MD_size digest)) as (_ & Hup & Hn0); try lia.
  rewrite length_firstn.
  pose proof (blocks_length digest info info_len (span prk prk_len)
                (Z.to_nat (ceil_div L (EVP_MD_size digest)))) as HB.
  rewrite Z2Nat.id in HB by lia. lia.
Qed.

Lemma expand_core_inv previous out_key out_len digest prk prk_len info info_len
      w f w1 :
  0 <= out_len < 2 ^ 64 ->
  too_large_test out_len (EVP_MD_size digest) = false ->
  expand_core previous out_key out_len digest prk prk_len info info_len w
  = (true, f, w1) ->
  block_inv out_len digest info info_len (span prk prk_len) out_key
            (Z.to_nat (ceil_div out_len (EVP_MD_size digest))) f.
Proof.
  intros Hlen Hv. pose proof (EVP_MD_size_range digest) as Hdl.
  destruct (valid_block_count _ _ Hlen Hdl Hv) as [Hn Hmax].
  destruct (ceil_div_bounds out_len (EVP_MD_size digest)) as (Hlo & Hup & Hn0);
    try lia.
  unfold expand_core, bind. rewrite HMAC_Init_ex_run.
  destruct (hmac_fault (hmac_calls w)); [cbn; discriminate |].
  cbn [Z.eqb]. rewrite Hn. intros Hrun.
  apply (expand_loop_inv out_len digest info info_len (span prk prk_len) out_key
           _ 0%nat _ _ _ _ Hlen) in Hrun; [exact Hrun | |].
  - cbn [Nat.add]. rewrite Z2Nat.id by lia.
    destruct (Z.eqb_spec out_len 0); [| lia].
    subst out_len. unfold ceil_div in *. rewrite Z.mod_0_l, Z.div_0_l in * by lia.
    cbn [Z.eqb] in *. lia.
  - unfold block_inv. cbn [fr_hmac fr_previous fr_done fr_out_key
                           ctx_md ctx_key ctx_msg HMAC_CTX_init].
    repeat split; try reflexivity; try lia; try congruence.
Qed.

Lemma expand_core_nofault previous out_key out_len digest prk prk_len
      info info_len w :
  (forall n, hmac_fault n = false) ->
  exists f w1,
    expand_core previous out_key out_len digest prk prk_len info info_len w
    = (true, f, w1).
Proof.
  intros Hnf. unfold expand_core, bind. rewrite HMAC_Init_ex_run, Hnf.
  cbn [Z.eqb]. apply expand_loop_nofault; [exact Hnf | reflexivity].
Qed.

(** A successful [HKDF_expand] has written the output keying material of the
    specification to the front of the caller's buffer, and leaves the last
    block in [previous]. *)
Lemma HKDF_expand_success previous out_key out_len digest prk prk_len
      info info_len w out' prev' w' :
  0 <= out_len < 2 ^ 64 ->
  HKDF_expand previous out_key out_len digest prk prk_len info info_len w
  = (1, out', prev', w') ->
  too_large_test out_len (EVP_MD_size digest) = false /\
  out' = OKM digest (span prk prk_len) (span info info_len) out_len
         ++ skipn (Z.to_nat out_len) out_key /\
  (0 < out_len ->
   span prev' (EVP_MD_size digest)
   = T digest (span prk prk_len) (span info info_len)
       (Z.to_nat (ceil_div out_len (EVP_MD_size digest)))).
Proof.
  intros Hlen. rewrite HKDF_expand_run.
  pose proof (EVP_MD_size_range digest) as Hdl.
  destruct (too_large_test out_len (EVP_MD_size digest)) eqn:Hv; [discriminate |].
  destruct (expand_core previous out_key out_len digest prk prk_len info info_len w)
    as [[ok f] w1] eqn:E.
  destruct ok; [| discriminate].
  intros H. injection H as <- <- _.
  destruct (expand_core_inv _ _ _ _ _ _ _ _ _ _ _ Hlen Hv E)
    as (_ & _ & _ & Hprev & Hdone & Hout).
  destruct (ceil_div_bounds out_len (EVP_MD_size digest)) as (Hlo & Hup & Hn0);
    try lia.
  rewrite Z2Nat.id in Hdone by lia.
  assert (Hd : fr_done f = out_len) by lia.
  split; [reflexivity |]. split.
  - rewrite Hout, Hd. reflexivity.
  - intros Hpos. apply Hprev.
    destruct (Z.eqb_spec out_len 0); [lia |].
    intros Hz. apply (f_equal Z.of_nat) in Hz. rewrite Z2Nat.id in Hz by lia.
    cbn in Hz. nia.
Qed.

(** For equal call counts and error queues, [HKDF_expand] returns the same
    and leaves equal call counts and error queues. *)
Lemma HKDF_expand_blind previous out_key out_len digest prk prk_len info info_len
      (w v : world) :
  hmac_calls w = hmac_calls v -> err_queue w = err_queue v ->
  fst (HKDF_expand previous out_key out_len digest prk prk_len info info_len w)
  = fst (HKDF_expand previous out_key out_len digest prk prk_len info info_len v)
  /\ hmac_calls (snd (HKDF_expand previous out_key out_len digest prk prk_len
                                  info info_len w))
     = hmac_calls (snd (HKDF_expand previous out_key out_len digest prk prk_len
                                    info info_len v))
  /\ err_queue (snd (HKDF_expand previous out_key out_len digest prk prk_len
                                 info info_len w))
     = err_queue (snd (HKDF_expand previous out_key out_len digest prk prk_len
                                   info info_len v)).
Proof.
  intros Hc He. rewrite !HKDF_expand_run.
  destruct (too_large_test out_len (EVP_MD_size digest)).
  - cbn. rewrite Hc, He. auto.
  - destruct (tame_expand_core previous out_key out_len digest prk prk_len
                info info_len w v Hc) as ([ok f] & n & -> & ->).
    cbn. rewrite He. auto.
Qed.

(** [HKDF_expand] returns 0 or 1. *)
Lemma HKDF_expand_ret previous out_key out_len digest prk prk_len info info_len w :
  let r := fst (fst (fst (HKDF_expand previous out_key out_len digest prk prk_len
                                      info info_len w))) in
  r = 0 \/ r = 1.
Proof.
  cbv zeta. rewrite HKDF_expand_run.
  destruct (too_large_test out_len (EVP_MD_size digest)); [left; reflexivity |].
  destruct (expand_core previous out_key out_len digest prk prk_len info info_len w)
    as [[[] f] w1]; cbn; auto.
Qed.

(** ** The claims *)

(** C1: for a valid length [L] (no overflow of [L + HashLen], at most 255
    blocks, [L = 0] included) and no failing keyed-hash call, [HKDF_expand]
    returns 1 and the caller's buffer starts with exactly the first [L] bytes
    of [T(1) || ... || T(N)], [N = ceil (L / HashLen)],
    [T(i) = KeyedHash(PRK, T(i-1) || info || i)], [T(0)] empty; the bytes
    past [L] are as before.  For [L = 0] the buffer is unchanged. *)
Theorem HKDF_expand_correct previous out_key out_len digest prk prk_len
        info info_len w :
  0 <= out_len ->
  out_len + EVP_MD_size digest < 2 ^ 64 ->
  ceil_div out_len (EVP_MD_size digest) <= 255 ->
  (forall n, hmac_fault n = false) ->
  let okm := OKM digest (span prk prk_len) (span info info_len) out_len in
  Z.of_nat (length okm) = out_len /\
  (out_len = 0 -> okm ++ skipn (Z.to_nat out_len) out_key = out_key) /\
  exists prev' w',
    HKDF_expand previous out_key out_len digest prk prk_len info info_len w
    = (1, okm ++ skipn (Z.to_nat out_len) out_key, prev', w').
Proof.
  intros H0 Hno Hmax Hnf. cbv zeta.
  pose proof (EVP_MD_size_range digest) as Hdl.
  assert (Hlen : 0 <= out_len < 2 ^ 64) by lia.
  split; [apply OKM_length; exact H0 |]. split.
  { intros ->. reflexivity. }
  assert (Hv : too_large_test out_len (EVP_MD_size digest) = false).
  { destruct (too_large_test out_len (EVP_MD_size digest)) eqn:E; [| reflexivity].
    apply too_large_test_spec in E; [lia | exact Hlen | exact Hdl]. }
  destruct (HKDF_expand previous out_key out_len digest prk prk_len info info_len w)
    as [[[r out'] prev'] w'] eqn:E.
  assert (Hr : r = 1).
  { revert E. rewrite HKDF_expand_run, Hv.
    destruct (expand_core_nofault previous out_key out_len digest prk prk_len
                info info_len w Hnf) as (f & w1 & ->).
    congruence. }
  subst r.
  destruct (HKDF_expand_success _ _ _ _ _ _ _ _ _ _ _ _ Hlen E) as (_ & -> & _).
  exists prev', w'. reflexivity.
Qed.

(** C2: [HKDF_expand] reports [HKDF_R_OUTPUT_TOO_LARGE] exactly when
    [L + HashLen] overflows [size_t] or [ceil (L / HashLen)] exceeds 255;
    it then returns 0 having written nothing and called nothing.  With
    [HashLen = 32], [L = 8193] is such a length. *)
Theorem HKDF_expand_invalid_length previous out_key out_len digest prk prk_len
        info info_len w :
  0 <= out_len < 2 ^ 64 ->
  let too_large :=
    2 ^ 64 <= out_len + EVP_MD_size digest
    \/ 255 < ceil_div out_len (EVP_MD_size digest) in
  let run :=
    HKDF_expand previous out_key out_len digest prk prk_len info info_len w in
  (too_large <->
   err_queue (snd run) = HKDF_R_OUTPUT_TOO_LARGE :: err_queue w) /\
  (too_large ->
   run = (0, out_key, previous,
          mkWorld (hmac_calls w) (HKDF_R_OUTPUT_TOO_LARGE :: err_queue w)
                  (indicator w))) /\
  (EVP_MD_size digest = 32 -> out_len = 8193 -> too_large).
Proof.
  intros Hlen. cbv zeta. pose proof (EVP_MD_size_range digest) as Hdl.
  rewrite <- too_large_test_spec by assumption.
  rewrite HKDF_expand_run.
  destruct (too_large_test out_len (EVP_MD_size digest)) eqn:Hv.
  - split; [split; intros _; reflexivity |]. split; [intros _; reflexivity |].
    intros _ _. reflexivity.
  - split; [| split].
    + split; [discriminate |].
      destruct (expand_core previous out_key out_len digest prk prk_len
                  info info_len w) as [[[] f] w1]; cbn [snd err_queue]; intros H.
      * apply (f_equal (@length _)) in H. cbn in H. lia.
      * discriminate.
    + discriminate.
    + intros H32 H8193. exfalso.
      assert (Ht : too_large_test out_len (EVP_MD_size digest) = true)
        by (rewrite H32, H8193; reflexivity).
      congruence.
Qed.

(** C8: whenever [HKDF_extract] returns 1, the length it reports is the
    digest's output size and the PRK it wrote, the keyed hash of the secret
    under the salt, has exactly that many bytes. *)
Theorem HKDF_extract_prk_length out_key out_len digest secret secret_len
        salt salt_len w out_key' out_len' w' :
  HKDF_extract out_key out_len digest secret secret_len salt salt_len w
  = (1, out_key', out_len', w') ->
  let PRK := KeyedHash digest (span salt salt_len) (span secret secret_len) in
  out_len' = EVP_MD_size digest /\
  Z.of_nat (length PRK) = EVP_MD_size digest /\
  out_key' = PRK ++ skipn (length PRK) out_key /\
  span out_key' out_len' = PRK.
Proof.
  rewrite HKDF_extract_run. cbv zeta.
  destruct (hmac_fault (hmac_calls w)); [discriminate |].
  intros H. injection H as <- <- _.
  rewrite KeyedHash_length.
  split; [reflexivity |]. split; [reflexivity |]. split; [reflexivity |].
  unfold span. apply firstn_app_len.
  rewrite <- (KeyedHash_length digest (span salt salt_len) (span secret secret_len)).
  rewrite Nat2Z.id. reflexivity.
Qed.

(** C6: when Expand succeeds for [L1] and for [L2 > L1] with the same digest,
    PRK and info, the first [L1] bytes written for [L2] are the [L1] bytes
    written for [L1]. *)
Theorem HKDF_expand_prefix prev1 prev2 out1 out2 L1 L2 digest prk prk_len
        info info_len w1 w2 o1 o2 p1 p2 w1' w2' :
  0 <= L1 < L2 -> L2 < 2 ^ 64 ->
  HKDF_expand prev1 out1 L1 digest prk prk_len info info_len w1
  = (1, o1, p1, w1') ->
  HKDF_expand prev2 out2 L2 digest prk prk_len info info_len w2
  = (1, o2, p2, w2') ->
  firstn (Z.to_nat L1) o2 = firstn (Z.to_nat L1) o1
  /\ Z.of_nat (length (firstn (Z.to_nat L1) o1)) = L1.
Proof.
  intros HL1 HL2 E1 E2. pose proof (EVP_MD_size_range digest) as Hdl.
  destruct (HKDF_expand_success _ _ _ _ _ _ _ _ _ _ _ _
              (conj (proj1 HL1) (Z.lt_trans _ _ _ (proj2 HL1) HL2)) E1)
    as (_ & -> & _).
  destruct (HKDF_expand_success _ _ _ _ _ _ _ _ _ _ _ _
              (conj (Z.le_trans _ _ _ (proj1 HL1) (Z.lt_le_incl _ _ (proj2 HL1))) HL2)
              E2)
    as (_ & -> & _).
  pose proof (OKM_length digest prk prk_len info info_len L1 (proj1 HL1)) as Hlen1.
  assert (Hlen2 : Z.of_nat (length (OKM digest (span prk prk_len)
                                        (span info info_len) L2)) = L2)
    by (apply OKM_length; lia).
  rewrite (firstn_app_len (OKM digest (span prk prk_len) (span info info_len) L1))
    by lia.
  split; [| exact Hlen1].
  rewrite firstn_app.
  replace (Z.to_nat L1 - length (OKM digest (span prk prk_len)
                                     (span info info_len) L2))%nat
    with 0%nat by lia.
  cbn [firstn]. rewrite app_nil_r.
  unfold OKM. rewrite firstn_firstn.
  replace (Nat.min (Z.to_nat L1) (Z.to_nat L2)) with (Z.to_nat L1) by lia.
  destruct (ceil_div_bounds L1 (EVP_MD_size digest)) as (Hlo1 & Hup1 & Hn1);
    try lia.
  destruct (ceil_div_bounds L2 (EVP_MD_size digest)) as (Hlo2 & Hup2 & Hn2);
    try lia.
  set (n1 := ceil_div L1 (EVP_MD_size digest)) in *.
  set (n2 := ceil_div L2 (EVP_MD_size digest)) in *.
  assert (Hle : n1 <= n2).
  { destruct (Z.eqb_spec L1 0); destruct (Z.eqb_spec L2 0); nia. }
  replace (Z.to_nat n2) with (Z.to_nat n1 + (Z.to_nat n2 - Z.to_nat n1))%nat by lia.
  destruct (blocks_app digest (span prk prk_len) (span info info_len)
              (Z.to_nat n1) (Z.to_nat n2 - Z.to_nat n1)) as (r & ->).
  pose proof (blocks_length digest info info_len (span prk prk_len) (Z.to_nat n1))
    as HB.
  rewrite Z2Nat.id in HB by lia.
  rewrite firstn_app.
  replace (Z.to_nat L1 - length (blocks digest (span prk prk_len)
                                        (span info info_len) (Z.to_nat n1)))%nat
    with 0%nat by lia.
  cbn [firstn]. rewrite app_nil_r. reflexivity.
Qed.

(** C5: the composite [HKDF] returns what calling Extract and then Expand
    on Extract's PRK returns, with the same bytes in the caller's buffer, the
    same error queue and the same number of keyed-hash calls.  It returns 1
    exactly when both phases do and 0 exactly when Extract fails or Expand
    fails; after a failed Extract the buffer is untouched, the error queue is
    Extract's and no further keyed-hash call is made. *)
Theorem HKDF_is_Extract_then_Expand prk prk_len previous out_key out_len digest
        secret secret_len salt salt_len info info_len w :
  let '(r, out, _, wc) :=
    HKDF prk prk_len previous out_key out_len digest secret secret_len
         salt salt_len info info_len w in
  let '(rm, outm, wm) :=
    Extract_then_Expand prk prk_len previous out_key out_len digest
                        secret secret_len salt salt_len info info_len w in
  let '(r1, prk', prk_len', w1) :=
    HKDF_extract prk prk_len digest secret secret_len salt salt_len w in
  let '(r2, out2, _, w2) :=
    HKDF_expand previous out_key out_len digest prk' prk_len' info info_len w1 in
  (r = rm /\ out = outm /\
   hmac_calls wc = hmac_calls wm /\ err_queue wc = err_queue wm) /\
  (r = 1 <-> r1 = 1 /\ r2 = 1) /\
  (r = 0 <-> r1 = 0 \/ (r1 = 1 /\ r2 = 0)) /\
  (r1 = 0 ->
   out = out_key /\
   hmac_calls wc = hmac_calls w1 /\ err_queue wc = err_queue w1) /\
  (r1 = 1 ->
   r = r2 /\ out = out2 /\
   hmac_calls wc = hmac_calls w2 /\ err_queue wc = err_queue w2).
Proof.
  unfold HKDF, Extract_then_Expand, bind.
  unfold FIPS_service_indicator_lock_state at 1, signal at 1.
  rewrite !HKDF_extract_run. cbn [hmac_calls err_queue indicator].
  destruct (hmac_fault (hmac_calls w)).
  - cbn.
    destruct (HKDF_expand previous out_key out_len digest prk prk_len info info_len _)
      as [[[r2 o2] p2] w2].
    repeat split; intros; try discriminate; try tauto; try lia.
  - set (PRK := KeyedHash digest (span salt salt_len) (span secret secret_len)).
    cbn [Z.eqb].
    set (wA := mkWorld (S (hmac_calls w)) (err_queue w)
                       (unlock_state :: lock_state :: lock_state :: indicator w)).
    set (w1 := mkWorld (S (hmac_calls w)) (err_queue w)
                       (unlock_state :: lock_state :: indicator w)).
    pose proof (HKDF_expand_blind previous out_key out_len digest
                  (PRK ++ skipn (length PRK) prk) (Z.of_nat (length PRK))
                  info info_len wA w1 eq_refl eq_refl) as (Hv & Hc & He).
    pose proof (HKDF_expand_ret previous out_key out_len digest
                  (PRK ++ skipn (length PRK) prk) (Z.of_nat (length PRK))
                  info info_len w1) as Hr.
    cbv zeta in Hr.
    destruct (HKDF_expand previous out_key out_len digest
                (PRK ++ skipn (length PRK) prk) (Z.of_nat (length PRK))
                info info_len wA) as [[[rA oA] pA] wA'].
    destruct (HKDF_expand previous out_key out_len digest
                (PRK ++ skipn (length PRK) prk) (Z.of_nat (length PRK))
                info info_len w1) as [[[r2 o2] p2] w2].
    cbn [fst snd] in Hv, Hc, He, Hr. injection Hv as -> -> ->.
    destruct Hr as [-> | ->]; cbn;
      repeat split; intros; try discriminate; try tauto; try lia;
      try assumption.
Qed.

(** C9, as the code has it: nothing wipes the two buffers.  When
    [HKDF_expand] has succeeded for a positive length, its local [previous]
    still holds the last block [T(N)] on return; when the keyed-hash call of
    the Extract phase has succeeded, the local [prk] of [HKDF] still holds the
    PRK on return, whatever Expand did. *)
Theorem HKDF_buffers_left_in_place prk prk_len previous out_key out_len digest
        secret secret_len salt salt_len info info_len key key_len w :
  0 < out_len < 2 ^ 64 ->
  (forall out' prev' w',
     HKDF_expand previous out_key out_len digest key key_len info info_len w
     = (1, out', prev', w') ->
     span prev' (EVP_MD_size digest)
     = T digest (span key key_len) (span info info_len)
         (Z.to_nat (ceil_div out_len (EVP_MD_size digest)))) /\
  (hmac_fault (hmac_calls w) = false ->
   span (snd (fst (HKDF prk prk_len previous out_key out_len digest
                        secret secret_len salt salt_len info info_len w)))
        (EVP_MD_size digest)
   = KeyedHash digest (span salt salt_len) (span secret secret_len)).
Proof.
  intros Hlen. split.
  - intros out' prev' w' E.
    destruct (HKDF_expand_success _ _ _ _ _ _ _ _ _ _ _ _
                (conj (Z.lt_le_incl _ _ (proj1 Hlen)) (proj2 Hlen)) E)
      as (_ & _ & Hprev).
    apply Hprev. lia.
  - intros Hok. unfold HKDF, bind.
    unfold FIPS_service_indicator_lock_state at 1, signal at 1.
    rewrite HKDF_extract_run. cbn [hmac_calls err_queue indicator].
    rewrite Hok. cbn [Z.eqb].
    destruct (HKDF_expand _ _ _ _ _ _ _ _ _) as [[[r2 o2] p2] w2].
    destruct (r2 =? 0); cbn [fst snd];
      (unfold span; apply firstn_app_len;
       rewrite <- (KeyedHash_length digest (span salt salt_len)
                                    (span secret secret_len));
       rewrite Nat2Z.id; reflexivity).
Qed.

End HKDFFacts.

(** ** Concrete runs with the small keyed hash *)

Lemma toy_size_range (faults : nat -> bool) :
  forall md : @EVP_MD (toy faults),
    0 < @EVP_MD_size (toy faults) md <= EVP_MAX_MD_SIZE.
Proof. intros []; cbn; unfold EVP_MAX_MD_SIZE; lia. Qed.

Lemma toy_hash_length (faults : nat -> bool) :
  forall (md : @EVP_MD (toy faults)) (key msg : list byte),
    Z.of_nat (length (@KeyedHash (toy faults) md key msg))
    = @EVP_MD_size (toy faults) md.
Proof.
  intros md key msg. cbn. unfold toy_hash.
  rewrite length_map, length_seq. destruct md; reflexivity.
Qed.

(** Two blocks, six bytes: [T(1)] and the first half of [T(2)] land in the
    buffer, its last two bytes stay. *)
Example expand_run_6 :
  fst (fst (expand_run 6))
  = (1, [x3e; x3f; x40; x41; x3b; x3c; x00; x00]).
Proof. vm_compute. reflexivity. Qed.

(** The sixth keyed-hash call, feeding [T(1)] for the second block, fails:
    the result is 0 with [ERR_R_HMAC_LIB] queued, and the bytes of the first
    block are already in the caller's buffer. *)
Example expand_fault_mid_loop :
  let r := @HKDF_expand (toy (fault_at 5)) [] (repeat x00 8) 6 toy4
                        [x01; x02; x03; x04] 4 [x10] 1 w0 in
  fst (fst r) = (0, [x3e; x3f; x40; x41; x00; x00; x00; x00])
  /\ err_queue (snd r) = [ERR_R_HMAC_LIB].
Proof. split; vm_compute; reflexivity. Qed.

(** [HMAC_Init_ex] is called before the loop, also for a zero length: when
    it fails, so does the call. *)
Example expand_zero_length_init_fault :
  let r := @HKDF_expand (toy (fault_at 0)) [] [] 0 toy4
                        [x01; x02; x03; x04] 4 [x10] 1 w0 in
  fst (fst (fst r)) = 0 /\ err_queue (snd r) = [ERR_R_HMAC_LIB].
Proof. split; vm_compute; reflexivity. Qed.

(** A failing Extract: one keyed-hash call, nothing written, Expand's
    indicator check never reached. *)
Example HKDF_extract_fault :
  @HKDF (toy (fault_at 0)) [] 0 [] (repeat x00 8) 6 toy4
        [x0b; x0b] 2 [x00; x01] 2 [x10] 1 w0
  = (0, repeat x00 8, [],
     @mkWorld (toy (fault_at 0)) 1 [ERR_R_HMAC_LIB]
       [@HKDF_verify (toy (fault_at 0)) toy4 [x00; x01] 2 1;
        unlock_state; unlock_state; lock_state; lock_state]).
Proof. vm_compute. reflexivity. Qed.

Lemma HKDF_expand_correct_witness :
  let okm := @OKM (toy no_fault) toy4 (span [x01; x02; x03; x04] 4)
                  (span [x10] 1) 6 in
  Z.of_nat (length okm) = 6 /\
  (6 = 0 -> okm ++ skipn (Z.to_nat 6) (repeat x00 8) = repeat x00 8) /\
  exists prev' w',
    @HKDF_expand (toy no_fault) [] (repeat x00 8) 6 toy4
                 [x01; x02; x03; x04] 4 [x10] 1 w0
    = (1, okm ++ skipn (Z.to_nat 6) (repeat x00 8), prev', w').
Proof.
  apply (@HKDF_expand_correct (toy no_fault) (toy_size_range no_fault)
           (toy_hash_length no_fault)).
  - lia.
  - reflexivity.
  - vm_compute. discriminate.
  - intros n. reflexivity.
Defined.

Lemma HKDF_expand_invalid_length_witness :
  let too_large :=
    2 ^ 64 <= 8193 + @EVP_MD_size (toy no_fault) toy32
    \/ 255 < ceil_div 8193 (@EVP_MD_size (toy no_fault) toy32) in
  let run :=
    @HKDF_expand (toy no_fault) [] (repeat x00 4) 8193 toy32
                 [x01; x02; x03; x04] 4 [] 0 w0 in
  (too_large <->
   err_queue (snd run) = HKDF_R_OUTPUT_TOO_LARGE :: err_queue (@w0 (toy no_fault))) /\
  (too_large ->
   run = (0, repeat x00 4, [],
          mkWorld (hmac_calls (@w0 (toy no_fault))) (HKDF_R_OUTPUT_TOO_LARGE :: err_queue (@w0 (toy no_fault)))
                  (indicator (@w0 (toy no_fault))))) /\
  (@EVP_MD_size (toy no_fault) toy32 = 32 -> 8193 = 8193 -> too_large).
Proof.
  apply (@HKDF_expand_invalid_length (toy no_fault) (toy_size_range no_fault)).
  lia.
Defined.

Lemma HKDF_extract_prk_length_witness :
  let PRK := @KeyedHash (toy no_fault) toy32 (span [x00; x01] 2)
                        (span [x0b; x0b] 2) in
  snd (fst extract_run) = @EVP_MD_size (toy no_fault) toy32 /\
  Z.of_nat (length PRK) = @EVP_MD_size (toy no_fault) toy32 /\
  snd (fst (fst extract_run)) = PRK ++ skipn (length PRK) (repeat x00 64) /\
  span (snd (fst (fst extract_run))) (snd (fst extract_run)) = PRK.
Proof.
  apply (@HKDF_extract_prk_length (toy no_fault) (toy_hash_length no_fault)
           (repeat x00 64) 0 toy32 [x0b; x0b] 2 [x00; x01] 2 w0
           (snd (fst (fst extract_run))) (snd (fst extract_run))
           (snd extract_run)).
  reflexivity.
Defined.

Lemma HKDF_expand_prefix_witness :
  firstn (Z.to_nat 3) (snd (fst (fst (expand_run 6))))
  = firstn (Z.to_nat 3) (snd (fst (fst (expand_run 3))))
  /\ Z.of_nat (length (firstn (Z.to_nat 3) (snd (fst (fst (expand_run 3)))))) = 3.
Proof.
  apply (@HKDF_expand_prefix (toy no_fault) (toy_size_range no_fault)
           (toy_hash_length no_fault)
           [] [] (repeat x00 8) (repeat x00 8) 3 6 toy4
           [x01; x02; x03; x04] 4 [x10] 1 w0 w0
           (snd (fst (fst (expand_run 3)))) (snd (fst (fst (expand_run 6))))
           (snd (fst (expand_run 3))) (snd (fst (expand_run 6)))
           (snd (expand_run 3)) (snd (expand_run 6))).
  - lia.
  - reflexivity.
  - reflexivity.
  - reflexivity.
Defined.

Lemma HKDF_buffers_left_in_place_witness :
  (forall out' prev' w',
     @HKDF_expand (toy no_fault) (repeat x00 64) (repeat x00 8) 6 toy4
                  [x01; x02; x03; x04] 4 [x10] 1 w0
     = (1, out', prev', w') ->
     span prev' (@EVP_MD_size (toy no_fault) toy4)
     = @T (toy no_fault) toy4 (span [x01; x02; x03; x04] 4) (span [x10] 1)
          (Z.to_nat (ceil_div 6 (@EVP_MD_size (toy no_fault) toy4)))) /\
  (@hmac_fault (toy no_fault) (hmac_calls (@w0 (toy no_fault))) = false ->
   span (snd (fst (@HKDF (toy no_fault) (repeat x00 64) 0 (repeat x00 64)
                         (repeat x00 8) 6 toy4 [x0b; x0b] 2 [x00; x01] 2
                         [x10] 1 w0)))
        (@EVP_MD_size (toy no_fault) toy4)
   = @KeyedHash (toy no_fault) toy4 (span [x00; x01] 2) (span [x0b; x0b] 2)).
Proof.
  apply (@HKDF_buffers_left_in_place (toy no_fault) (toy_size_range no_fault)
           (toy_hash_length no_fault)).
  lia.
Defined.

Lemma HKDF_is_Extract_then_Expand_witness :
  let '(r, out, _, wc) :=
    @HKDF (toy (fault_at 2)) [] 0 [] (repeat x00 8) 6 toy4
          [x0b; x0b] 2 [x00; x01] 2 [x10] 1 w0 in
  let '(rm, outm, wm) :=
    @Extract_then_Expand (toy (fault_at 2)) [] 0 [] (repeat x00 8) 6 toy4
          [x0b; x0b] 2 [x00; x01] 2 [x10] 1 w0 in
  let '(r1, prk', prk_len', w1) :=
    @HKDF_extract (toy (fault_at 2)) [] 0 toy4 [x0b; x0b] 2 [x00; x01] 2 w0 in
  let '(r2, out2, _, w2) :=
    @HKDF_expand (toy (fault_at 2)) [] (repeat x00 8) 6 toy4 prk' prk_len'
                 [x10] 1 w1 in
  (r = rm /\ out = outm /\
   hmac_calls wc = hmac_calls wm /\ err_queue wc = err_queue wm) /\
  (r = 1 <-> r1 = 1 /\ r2 = 1) /\
  (r = 0 <-> r1 = 0 \/ (r1 = 1 /\ r2 = 0)) /\
  (r1 = 0 ->
   out = repeat x00 8 /\
   hmac_calls wc = hmac_calls w1 /\ err_queue wc = err_queue w1) /\
  (r1 = 1 ->
   r = r2 /\ out = out2 /\
   hmac_calls wc = hmac_calls w2 /\ err_queue wc = err_queue w2).
Proof.
  exact (@HKDF_is_Extract_then_Expand (toy (fault_at 2)) [] 0 [] (repeat x00 8)
           6 toy4 [x0b; x0b] 2 [x00; x01] 2 [x10] 1 w0).
Defined.

(** C9, as stated, fails: with every byte of the locals zero at entry, a
    successful [HKDF_expand] returns with its block buffer holding the block
    it computed, and a successful [HKDF] returns with its PRK buffer holding
    the PRK. *)
Lemma HKDF_buffers_not_wiped :
  (fst (fst (fst (@HKDF_expand (toy no_fault) (repeat x00 64) (repeat x00 4) 4
                               toy4 [x01; x02; x03; x04] 4 [] 0 w0))) = 1 /\
   firstn 4 (snd (fst (@HKDF_expand (toy no_fault) (repeat x00 64)
                                    (repeat x00 4) 4 toy4
                                    [x01; x02; x03; x04] 4 [] 0 w0)))
   = [x0e; x0f; x10; x11]) /\
  (fst (fst (fst (@HKDF (toy no_fault) (repeat x00 64) 0 (repeat x00 64)
                        (repeat x00 4) 4 toy4 [x0b] 1 [] 0 [] 0 w0))) = 1 /\
   firstn 4 (snd (fst (@HKDF (toy no_fault) (repeat x00 64) 0 (repeat x00 64)
                             (repeat x00 4) 4 toy4 [x0b] 1 [] 0 [] 0 w0)))
   = [x22; x23; x24; x25]).
Proof. repeat split; vm_compute; reflexivity. Qed.

(* ===================================================================== *)
(** * Part V: further facts about the entropy source *)
(* ===================================================================== *)

(** The eight bytes of a 64-bit value put it together again. *)
Lemma bytes_of_word (v : Z) :
  0 <= v < 2 ^ 64 ->
  byte_of v 0 + byte_of v 1 * 2 ^ 8 + byte_of v 2 * 2 ^ 16
  + byte_of v 3 * 2 ^ 24 + byte_of v 4 * 2 ^ 32 + byte_of v 5 * 2 ^ 40
  + byte_of v 6 * 2 ^ 48 + byte_of v 7 * 2 ^ 56 = v.
Proof.
  intros Hv. unfold byte_of.
  change 255 with (Z.ones 8). rewrite !Z.land_ones by lia.
  rewrite !Z.shiftr_div_pow2 by lia.
  change (8 * 0) with 0; change (8 * 1) with 8; change (8 * 2) with 16;
  change (8 * 3) with 24; change (8 * 4) with 32; change (8 * 5) with 40;
  change (8 * 6) with 48; change (8 * 7) with 56.
  change (2 ^ 0) with 1; change (2 ^ 8) with 256; change (2 ^ 16) with 65536;
  change (2 ^ 24) with 16777216; change (2 ^ 32) with 4294967296;
  change (2 ^ 40) with 1099511627776; change (2 ^ 48) with 281474976710656;
  change (2 ^ 56) with 72057594037927936.
  rewrite two_64 in Hv.
  Z.div_mod_to_equations. lia.
Qed.

Lemma load64_store64 (m : Z -> Z) (a v : Z) :
  0 <= v < 2 ^ 64 -> load64 (store64 m a v) a = v.
Proof.
  intros Hv. unfold load64. cbn [fold_right].
  assert (Hb : forall k, 0 <= k < 8 ->
            store64 m a v (wrap64 (a + k)) = byte_of v k).
  { intros k Hk. rewrite store64_read by apply wrap64_range.
    assert (E : wrap64 (wrap64 (a + k) - a) = k).
    { unfold wrap64. rewrite two_64. Z.div_mod_to_equations. lia. }
    rewrite E. destruct (Z.ltb_spec k 8); [reflexivity | lia]. }
  rewrite !Hb by lia.
  pose proof (bytes_of_word v Hv) as H.
  change (8 * 0) with 0; change (8 * 1) with 8; change (8 * 2) with 16;
  change (8 * 3) with 24; change (8 * 4) with 32; change (8 * 5) with 40;
  change (8 * 6) with 48; change (8 * 7) with 56.
  change (2 ^ 0) with 1. lia.
Qed.

Section RdrandMore.

Variable hw : nat -> Z * bool.

Lemma good_not_stuck (n : nat) :
  good hw n = true -> stuck (drawn hw n) = false.
Proof.
  unfold good. intros H. apply andb_true_iff in H. destruct H as [_ H].
  apply negb_true_iff in H. exact H.
Qed.

(** X1: [CRYPTO_rdrand] returns 0 or 1; it returns 1 exactly when the value
    RDRAND left in the register is neither zero nor all ones, and then the
    64-bit little-endian word read back from [out] is that value. *)
Theorem CRYPTO_rdrand_returns_word (s : machine) :
  let v := drawn hw (draws s) in
  let s' := CRYPTO_rdrand hw s in
  (rax s' = 1 \/ rax s' = 0) /\
  (rax s' = 1 <-> v <> 0 /\ v <> all_ones) /\
  (rax s' = 1 -> load64 (mem s') (rdi s) = v).
Proof.
  cbv zeta. destruct (CRYPTO_rdrand_result hw s) as (_ & Hstuck & Hfree).
  destruct (stuck (drawn hw (draws s))) eqn:E.
  - destruct (Hstuck eq_refl) as [H0 _]. rewrite H0.
    split; [right; reflexivity |]. split; [| discriminate].
    split; [discriminate |]. intros [N0 N1]. exfalso.
    unfold stuck in E. apply orb_true_iff in E.
    destruct E as [E | E]; apply Z.eqb_eq in E; contradiction.
  - destruct (Hfree eq_refl) as [H1 Hm]. rewrite H1, Hm.
    split; [left; reflexivity |]. split.
    + split; [intros _; apply stuck_false; exact E | reflexivity].
    + intros _. apply load64_store64, drawn_range.
Qed.

(** X2: [CRYPTO_rdrand] executes RDRAND once, leaves [%rdi], [%rsi] and
    [%rcx] as they were, and changes no byte of memory outside the eight at
    [out]. *)
Theorem CRYPTO_rdrand_footprint (s : machine) :
  let s' := CRYPTO_rdrand hw s in
  draws s' = S (draws s) /\
  rdi s' = rdi s /\ rsi s' = rsi s /\ rcx s' = rcx s /\
  (forall x, 0 <= x < 2 ^ 64 -> 8 <= wrap64 (x - rdi s) -> mem s' x = mem s x).
Proof.
  cbv zeta. destruct (CRYPTO_rdrand_result hw s) as (Hd & Hstuck & Hfree).
  split; [exact Hd |].
  assert (Hregs : rdi (CRYPTO_rdrand hw s) = rdi s
                  /\ rsi (CRYPTO_rdrand hw s) = rsi s
                  /\ rcx (CRYPTO_rdrand hw s) = rcx s).
  { unfold CRYPTO_rdrand. rewrite rdrand_eq.
    unfold testq, cmpq_imm, L_err, adcq, movq_store, xorq.
    cbn -[wrap64 Z.pow store64 Z.land Z.lxor drawn reported_ok].
    destruct (Z.land (drawn hw (draws s)) (drawn hw (draws s)) =? 0);
      [cbn; auto |].
    cbn -[wrap64 Z.pow store64 Z.land Z.lxor drawn reported_ok].
    destruct (drawn hw (draws s) =? wrap64 (-1)); cbn; auto. }
  destruct Hregs as (H1 & H2 & H3).
  split; [exact H1 |]. split; [exact H2 |]. split; [exact H3 |].
  intros x Hx Hout.
  destruct (stuck (drawn hw (draws s))) eqn:E.
  - destruct (Hstuck eq_refl) as [_ Hm]. rewrite Hm. reflexivity.
  - destruct (Hfree eq_refl) as [_ Hm]. rewrite Hm, store64_read by exact Hx.
    destruct (Z.ltb_spec (wrap64 (x - rdi s)) 8); [lia | reflexivity].
Qed.

(** The routine past its entry test. *)
Lemma multiple8_entry (fuel : nat) (s : machine) :
  CRYPTO_rdrand_multiple8_buf hw fuel s =
  if rsi s =? 0
  then Some (mkMachine 1 (rcx s) (rdx s) (rsi s) (rdi s) false true
                       (mem s) (draws s))
  else L_loop hw fuel
         (mkMachine (rax s) (rcx s) 8 (rsi s) (rdi s) false false
                    (mem s) (draws s)).
Proof.
  unfold CRYPTO_rdrand_multiple8_buf, testq.
  cbn -[wrap64 Z.pow Z.land L_loop]. rewrite Z.land_diag.
  destruct (rsi s =? 0); reflexivity.
Qed.

(** Among the next [k] draws either all are usable or there is a first one
    that is not. *)
Lemma first_unusable (k : nat) (d : nat) :
  (forall i, (i < k)%nat -> good hw (d + i) = true)
  \/ exists j, (j < k)%nat /\ good hw (d + j) = false
               /\ forall i, (i < j)%nat -> good hw (d + i) = true.
Proof.
  induction k as [| k IH].
  - left. intros i Hi. lia.
  - destruct IH as [Hall | (j & Hj & Hbad & Hbefore)].
    + destruct (good hw (d + k)) eqn:E.
      * left. intros i Hi. destruct (Nat.eq_dec i k) as [-> | Hne];
          [exact E | apply Hall; lia].
      * right. exists k. split; [lia |]. split; [exact E | exact Hall].
    + right. exists j. split; [lia |]. split; [exact Hbad | exact Hbefore].
Qed.

(** X3: for a length of [8k] bytes the bulk fill ends within [k] trips round
    its loop whatever the hardware answers.  It returns 1 exactly when all
    [k] draws are usable, never draws more than [k] times, has stored whole
    chunks only, and changes no byte outside the buffer. *)
Theorem CRYPTO_rdrand_multiple8_buf_total (s : machine) (k fuel : nat) :
  rsi s = 8 * Z.of_nat k -> 8 * Z.of_nat k < 2 ^ 64 -> (k <= fuel)%nat ->
  exists s' j,
    CRYPTO_rdrand_multiple8_buf hw fuel s = Some s' /\
    (j <= k)%nat /\
    (draws s' <= draws s + k)%nat /\
    (rax s' = 1 \/ rax s' = 0) /\
    (rax s' = 1 <-> forall i, (i < k)%nat -> good hw (draws s + i) = true) /\
    mem s' = filled hw j (mem s) (rdi s) (draws s) /\
    (forall x, 0 <= x < 2 ^ 64 -> 8 * Z.of_nat k <= wrap64 (x - rdi s) ->
       mem s' x = mem s x).
Proof.
  intros Hsi Hlt Hfuel. rewrite multiple8_entry.
  destruct (Z.eqb_spec (rsi s) 0) as [E | N].
  - assert (k = 0%nat) by lia. subst k.
    eexists. exists 0%nat. split; [reflexivity |]. cbn [rax draws mem filled].
    split; [lia |]. split; [lia |]. split; [left; reflexivity |].
    split; [split; [intros _ i Hi; lia | reflexivity] |].
    split; [reflexivity |]. intros; reflexivity.
  - set (s0 := mkMachine (rax s) (rcx s) 8 (rsi s) (rdi s) false false
                         (mem s) (draws s)).
    destruct (first_unusable k (draws s)) as [Hall | (j & Hj & Hbad & Hbefore)].
    + destruct (L_loop_fill hw k fuel s0) as (s' & Hrun & Hax & Hd & Hm);
        try (cbn [rsi rdx draws mem rdi]; first [lia | reflexivity | assumption]).
      subst s0. cbn [draws mem rdi] in Hd, Hm.
      exists s', k. split; [exact Hrun |]. split; [lia |]. split; [lia |].
      split; [left; exact Hax |]. split; [split; [intros _; exact Hall | intros _; exact Hax] |].
      split; [exact Hm |]. intros x Hx Hout. rewrite Hm.
      apply filled_frame; assumption.
    + destruct (L_loop_abort hw j k fuel s0) as (s' & Hrun & Hax & Hd & Hm);
        try (cbn [rsi rdx draws mem rdi]; first [lia | reflexivity | assumption]).
      subst s0. cbn [draws mem rdi] in Hd, Hm.
      exists s', j. split; [exact Hrun |]. split; [lia |]. split; [lia |].
      split; [right; exact Hax |]. split.
      * split; [rewrite Hax; discriminate |]. intros Hall.
        rewrite (Hall j Hj) in Hbad. discriminate.
      * split; [exact Hm |]. intros x Hx Hout. rewrite Hm.
        apply filled_frame; [exact Hx | lia].
Qed.

(** With a length that is not a multiple of 8 the count in [%rsi] never
    reaches zero. *)
Lemma L_loop_misaligned (fuel : nat) : forall (s s' : machine),
  rsi s mod 8 <> 0 -> 0 <= rsi s < 2 ^ 64 -> rdx s = 8 ->
  L_loop hw fuel s = Some s' -> rax s' = 0.
Proof.
  induction fuel as [| fuel IH]; intros s s' Hmod Hr Hdx Hrun; [discriminate |].
  destruct (good hw (draws s)) eqn:G.
  - rewrite (L_loop_step hw fuel s G Hdx) in Hrun. cbv zeta in Hrun.
    assert (Hm : wrap64 (rsi s - 8) mod 8 <> 0 /\ 0 <= wrap64 (rsi s - 8) < 2 ^ 64).
    { split; [| apply wrap64_range].
      unfold wrap64. rewrite two_64 in *. Z.div_mod_to_equations. lia. }
    destruct Hm as [Hm Hr'].
    destruct (Z.eqb_spec (wrap64 (rsi s - 8)) 0) as [E | N].
    + rewrite E in Hm. cbn in Hm. contradiction.
    + apply (IH _ _) in Hrun; [exact Hrun | exact Hm | exact Hr' | reflexivity].
  - destruct (L_loop_stop hw fuel s G) as (s'' & Hrun' & Hax & _).
    rewrite Hrun in Hrun'. injection Hrun' as <-. exact Hax.
Qed.

Lemma L_loop_misaligned_spins (fuel : nat) : forall (s : machine),
  (forall n, good hw n = true) ->
  rsi s mod 8 <> 0 -> 0 <= rsi s < 2 ^ 64 -> rdx s = 8 ->
  L_loop hw fuel s = None.
Proof.
  induction fuel as [| fuel IH]; intros s Hgood Hmod Hr Hdx; [reflexivity |].
  rewrite (L_loop_step hw fuel s (Hgood _) Hdx). cbv zeta.
  assert (Hm : wrap64 (rsi s - 8) mod 8 <> 0 /\ 0 <= wrap64 (rsi s - 8) < 2 ^ 64).
  { split; [| apply wrap64_range].
    unfold wrap64. rewrite two_64 in *. Z.div_mod_to_equations. lia. }
  destruct Hm as [Hm Hr'].
  destruct (Z.eqb_spec (wrap64 (rsi s - 8)) 0) as [E | N].
  - rewrite E in Hm. cbn in Hm. contradiction.
  - apply IH; [exact Hgood | exact Hm | exact Hr' | reflexivity].
Qed.

(** X4: with a length that is not a multiple of 8 the bulk fill never returns
    1: it can only leave through the error exit, and on hardware whose every
    draw is usable it does not return at all, whatever the fuel. *)
Theorem CRYPTO_rdrand_multiple8_buf_misaligned (s : machine) :
  rsi s mod 8 <> 0 -> 0 <= rsi s < 2 ^ 64 ->
  (forall fuel s',
     CRYPTO_rdrand_multiple8_buf hw fuel s = Some s' -> rax s' = 0) /\
  ((forall n, good hw n = true) ->
   forall fuel, CRYPTO_rdrand_multiple8_buf hw fuel s = None).
Proof.
  intros Hmod Hr.
  assert (N : (rsi s =? 0) = false).
  { apply Z.eqb_neq. intros E. rewrite E in Hmod. cbn in Hmod. contradiction. }
  split.
  - intros fuel s'. rewrite multiple8_entry, N.
    apply L_loop_misaligned; cbn [rsi rdx]; [exact Hmod | exact Hr | reflexivity].
  - intros Hgood fuel. rewrite multiple8_entry, N.
    apply L_loop_misaligned_spins; cbn [rsi rdx];
      [exact Hgood | exact Hmod | exact Hr | reflexivity].
Qed.

Lemma singles_good (k : nat) : forall (a : Z) (s : machine),
  (forall i, (i < k)%nat -> good hw (draws s + i) = true) ->
  mem (singles hw k a s) = filled hw k (mem s) a (draws s) /\
  draws (singles hw k a s) = (draws s + k)%nat /\
  ((0 < k)%nat -> rax (singles hw k a s) = 1).
Proof.
  induction k as [| k IH]; intros a s Hgood.
  - cbn [singles filled]. split; [reflexivity |]. split; lia.
  - cbn [singles filled].
    destruct (CRYPTO_rdrand_result hw (set RDI a s)) as (Hd & _ & Hfree).
    change (draws (set RDI a s)) with (draws s) in Hd, Hfree.
    change (mem (set RDI a s)) with (mem s) in Hfree.
    change (rdi (set RDI a s)) with a in Hfree.
    assert (G : good hw (draws s) = true).
    { specialize (Hgood 0%nat). rewrite Nat.add_0_r in Hgood. apply Hgood. lia. }
    destruct (Hfree (good_not_stuck _ G)) as [Hax Hm].
    destruct (IH (wrap64 (a + 8)) (CRYPTO_rdrand hw (set RDI a s)))
      as (Hm' & Hd' & Hax').
    { intros i Hi. rewrite Hd.
      replace (S (draws s) + i)%nat with (draws s + S i)%nat by lia.
      apply Hgood. lia. }
    rewrite Hm', Hd', Hm, Hd. split; [reflexivity |]. split; [lia |].
    intros _. destruct k as [| k']; [exact Hax | apply Hax'; lia].
Qed.

(** X5: on usable draws the bulk fill of [k >= 1] chunks does what [k] calls
    of [CRYPTO_rdrand] on the successive chunks do: the same memory, the same
    result 1 and the same number of draws. *)
Theorem CRYPTO_rdrand_multiple8_buf_as_singles (s : machine) (k fuel : nat) :
  rsi s = 8 * Z.of_nat k -> 8 * Z.of_nat k < 2 ^ 64 -> (0 < k <= fuel)%nat ->
  (forall i, (i < k)%nat -> good hw (draws s + i) = true) ->
  exists s',
    CRYPTO_rdrand_multiple8_buf hw fuel s = Some s' /\
    mem s' = mem (singles hw k (rdi s) s) /\
    rax s' = rax (singles hw k (rdi s) s) /\
    rax s' = 1 /\
    draws s' = draws (singles hw k (rdi s) s).
Proof.
  intros Hsi Hlt Hk Hgood. rewrite multiple8_entry.
  destruct (Z.eqb_spec (rsi s) 0) as [E | N]; [lia |].
  destruct (L_loop_fill hw k fuel
              (mkMachine (rax s) (rcx s) 8 (rsi s) (rdi s) false false
                         (mem s) (draws s)))
    as (s' & Hrun & Hax & Hd & Hm);
    try (cbn [rsi rdx draws mem rdi]; first [lia | reflexivity | assumption]).
  cbn [draws mem rdi] in Hd, Hm.
  destruct (singles_good k (rdi s) s Hgood) as (Hm' & Hd' & Hax').
  exists s'. split; [exact Hrun |]. rewrite Hm, Hm', Hd, Hd', Hax, Hax' by lia.
  repeat split.
Qed.

End RdrandMore.

(* ===================================================================== *)
(** * Part VI: further facts about HKDF *)
(* ===================================================================== *)

Section HKDFMore.

Context {A : KeyedHashAdapter}.

Hypothesis EVP_MD_size_range :
  forall md, 0 < EVP_MD_size md <= EVP_MAX_MD_SIZE.
Hypothesis KeyedHash_length :
  forall md key msg, Z.of_nat (length (KeyedHash md key msg)) = EVP_MD_size md.

(** [HKDF], run: Extract's keyed-hash call, then Expand inside the
    composite's lock. *)
Lemma HKDF_run prk prk_len previous out_key out_len digest
      secret secret_len salt salt_len info info_len w :
  let PRK := KeyedHash digest (span salt salt_len) (span secret secret_len) in
  HKDF prk prk_len previous out_key out_len digest secret secret_len
       salt salt_len info info_len w =
  if hmac_fault (hmac_calls w)
  then (0, out_key, prk,
        mkWorld (S (hmac_calls w)) (ERR_R_HMAC_LIB :: err_queue w)
          (HKDF_verify digest salt salt_len info_len :: unlock_state
             :: unlock_state :: lock_state :: lock_state :: indicator w))
  else
    let '(r2, o2, _, w2) :=
      HKDF_expand previous out_key out_len digest
        (PRK ++ skipn (length PRK) prk) (Z.of_nat (length PRK)) info info_len
        (mkWorld (S (hmac_calls w)) (err_queue w)
           (unlock_state :: lock_state :: lock_state :: indicator w)) in
    (if r2 =? 0 then 0 else 1, o2, PRK ++ skipn (length PRK) prk,
     mkWorld (hmac_calls w2) (err_queue w2)
       (HKDF_verify digest salt salt_len info_len :: unlock_state
          :: indicator w2)).
Proof.
  cbv zeta. unfold HKDF, bind.
  unfold FIPS_service_indicator_lock_state at 1, signal at 1.
  rewrite HKDF_extract_run. cbn [hmac_calls err_queue indicator].
  destruct (hmac_fault (hmac_calls w)); [reflexivity |].
  cbn [Z.eqb].
  destruct (HKDF_expand _ _ _ _ _ _ _ _ _) as [[[r2 o2] p2] w2].
  destruct (r2 =? 0); reflexivity.
Qed.

(** X6: on every exit path the three functions leave the indicator lock as
    they found it.  The calls each one adds to the trace never unlock below
    the depth at entry and end at that depth.  [HKDF_extract] verifies
    nothing; [HKDF_expand] verifies at most once, at the entry depth, after
    its unlock; [HKDF] verifies once at the entry depth after its own unlock,
    and the verification Expand makes inside it happens one level deeper,
    under the composite's lock. *)
Theorem HKDF_lock_discipline prk prk_len previous out_key out_len digest
        secret secret_len salt salt_len info info_len w :
  (exists new,
     indicator (snd (HKDF_extract out_key out_len digest secret secret_len
                                  salt salt_len w))
     = new ++ indicator w /\
     forall d, run_locks d (rev new) = Some d /\ verify_depths d (rev new) = [])
  /\
  (exists new,
     indicator (snd (HKDF_expand previous out_key out_len digest prk prk_len
                                 info info_len w))
     = new ++ indicator w /\
     forall d, run_locks d (rev new) = Some d /\
               (verify_depths d (rev new) = []
                \/ verify_depths d (rev new) = [d]))
  /\
  (exists new,
     indicator (snd (HKDF prk prk_len previous out_key out_len digest
                          secret secret_len salt salt_len info info_len w))
     = new ++ indicator w /\
     forall d, run_locks d (rev new) = Some d /\
               (verify_depths d (rev new) = [d]
                \/ verify_depths d (rev new) = [S d; d])).
Proof.
  split; [| split].
  - rewrite HKDF_extract_run. cbv zeta.
    exists [unlock_state; lock_state].
    split; [destruct (hmac_fault (hmac_calls w)); reflexivity |].
    intros d. split; reflexivity.
  - rewrite HKDF_expand_run.
    destruct (too_large_test out_len (EVP_MD_size digest)).
    + exists []. split; [reflexivity |]. intros d. split; [reflexivity | left; reflexivity].
    + destruct (expand_core _ _ _ _ _ _ _ _ _) as [[ok f] w1].
      exists [HKDFExpand_verify digest; unlock_state; lock_state].
      split; [reflexivity |]. intros d. split; [reflexivity | right; reflexivity].
  - rewrite HKDF_run. cbv zeta.
    destruct (hmac_fault (hmac_calls w)).
    + exists [HKDF_verify digest salt salt_len info_len; unlock_state;
              unlock_state; lock_state; lock_state].
      split; [reflexivity |]. intros d. split; [reflexivity | left; reflexivity].
    + rewrite HKDF_expand_run.
      destruct (too_large_test out_len (EVP_MD_size digest)).
      * exists [HKDF_verify digest salt salt_len info_len; unlock_state;
                unlock_state; lock_state; lock_state].
        split; [reflexivity |]. intros d. split; [reflexivity | left; reflexivity].
      * destruct (expand_core _ _ _ _ _ _ _ _ _) as [[ok f] w1].
        exists [HKDF_verify digest salt salt_len info_len; unlock_state;
                HKDFExpand_verify digest; unlock_state; lock_state;
                unlock_state; lock_state; lock_state].
        split; [destruct ok; reflexivity |]. intros d.
        split; [reflexivity | right; reflexivity].
Qed.

Lemma cons_neq {X} (x : X) (l : list X) : l <> x :: l.
Proof. intros H. apply (f_equal (@length _)) in H. cbn in H. lia. Qed.

Lemma reports_success (w w' : world) :
  err_queue w' = err_queue w -> reports 1 w w'.
Proof.
  intros H. unfold reports. rewrite H.
  split; [right; reflexivity |]. split; [tauto |].
  split; [discriminate |]. intros [e He]. exfalso. exact (cons_neq _ _ He).
Qed.

Lemma reports_failure (e : err_reason) (w w' : world) :
  err_queue w' = e :: err_queue w -> reports 0 w w'.
Proof.
  intros H. unfold reports. rewrite H.
  split; [left; reflexivity |]. split.
  - split; [discriminate |]. intros He. exfalso.
    symmetry in He. exact (cons_neq _ _ He).
  - split; [intros _; exists e; reflexivity | reflexivity].
Qed.

(** X7: each of the three functions reports its failures: it returns 0 or 1;
    it returns 1 exactly when it leaves the error queue as it was, and 0
    exactly when it has queued one reason. *)
Theorem HKDF_failure_is_reported prk prk_len previous out_key out_len digest
        secret secret_len salt salt_len info info_len w :
  (let '(r, _, _, w') :=
     HKDF_extract out_key out_len digest secret secret_len salt salt_len w in
   reports r w w') /\
  (let '(r, _, _, w') :=
     HKDF_expand previous out_key out_len digest prk prk_len info info_len w in
   reports r w w') /\
  (let '(r, _, _, w') :=
     HKDF prk prk_len previous out_key out_len digest secret secret_len
          salt salt_len info info_len w in
   reports r w w').
Proof.
  split; [| split].
  - rewrite HKDF_extract_run. cbv zeta.
    destruct (hmac_fault (hmac_calls w));
      [apply (reports_failure ERR_R_HMAC_LIB) | apply reports_success];
      reflexivity.
  - rewrite HKDF_expand_run.
    destruct (too_large_test out_len (EVP_MD_size digest)).
    + apply (reports_failure HKDF_R_OUTPUT_TOO_LARGE). reflexivity.
    + destruct (expand_core _ _ _ _ _ _ _ _ _) as [[[] f] w1];
        [apply reports_success | apply (reports_failure ERR_R_HMAC_LIB)];
        reflexivity.
  - rewrite HKDF_run. cbv zeta.
    destruct (hmac_fault (hmac_calls w)).
    + apply (reports_failure ERR_R_HMAC_LIB). reflexivity.
    + rewrite HKDF_expand_run.
      destruct (too_large_test out_len (EVP_MD_size digest)).
      * apply (reports_failure HKDF_R_OUTPUT_TOO_LARGE). reflexivity.
      * destruct (expand_core _ _ _ _ _ _ _ _ _) as [[[] f] w1];
          [apply reports_success | apply (reports_failure ERR_R_HMAC_LIB)];
          reflexivity.
Qed.

(** The length test in closed form. *)
Lemma too_large_iff (out_len digest_len : Z) :
  0 <= out_len < 2 ^ 64 -> 0 < digest_len <= EVP_MAX_MD_SIZE ->
  too_large_test out_len digest_len = true <-> 255 * digest_len < out_len.
Proof.
  intros Ho Hd. rewrite too_large_test_spec by assumption.
  destruct (ceil_div_bounds out_len digest_len) as (Hlo & Hup & Hn0);
    try (unfold EVP_MAX_MD_SIZE in *; lia).
  unfold EVP_MAX_MD_SIZE in *. rewrite two_64 in *.
  destruct (Z.eqb_spec out_len 0) as [E | N].
  - split; [intros [H | H]; nia | intros H; lia].
  - split; [intros [H | H]; nia | intros H; right; nia].
Qed.

(** X8: [HKDF_expand] accepts exactly the lengths up to [255 * HashLen]:
    a longer one is turned down with [HKDF_R_OUTPUT_TOO_LARGE] before
    anything is locked, hashed or written; any other enters the locked
    keyed-hash phase and never reports that reason. *)
Theorem HKDF_expand_max_length previous out_key out_len digest prk prk_len
        info info_len w :
  0 <= out_len < 2 ^ 64 ->
  let run :=
    HKDF_expand previous out_key out_len digest prk prk_len info info_len w in
  (255 * EVP_MD_size digest < out_len ->
   run = (0, out_key, previous,
          mkWorld (hmac_calls w) (HKDF_R_OUTPUT_TOO_LARGE :: err_queue w)
                  (indicator w))) /\
  (out_len <= 255 * EVP_MD_size digest ->
   indicator (snd run)
   = HKDFExpand_verify digest :: unlock_state :: lock_state :: indicator w /\
   err_queue (snd run) <> HKDF_R_OUTPUT_TOO_LARGE :: err_queue w).
Proof.
  intros Hlen. cbv zeta. pose proof (EVP_MD_size_range digest) as Hdl.
  rewrite HKDF_expand_run.
  destruct (too_large_test out_len (EVP_MD_size digest)) eqn:Hv.
  - apply too_large_iff in Hv; [| assumption | assumption].
    split; [intros _; reflexivity | intros H; lia].
  - assert (Hn : ~ 255 * EVP_MD_size digest < out_len).
    { rewrite <- too_large_iff by assumption. rewrite Hv. discriminate. }
    split; [intros H; contradiction |]. intros _.
    destruct (expand_core _ _ _ _ _ _ _ _ _) as [[[] f] w1]; cbn [snd indicator err_queue].
    + split; [reflexivity |]. apply cons_neq.
    + split; [reflexivity | discriminate].
Qed.

Lemma HKDF_expand_nofault previous out_key out_len digest prk prk_len
      info info_len w :
  0 <= out_len <= 255 * EVP_MD_size digest ->
  (forall n, hmac_fault n = false) ->
  exists prev' w',
    HKDF_expand previous out_key out_len digest prk prk_len info info_len w
    = (1, OKM digest (span prk prk_len) (span info info_len) out_len
          ++ skipn (Z.to_nat out_len) out_key, prev', w')
    /\ err_queue w' = err_queue w.
Proof.
  intros Hlen Hnf. pose proof (EVP_MD_size_range digest) as Hdl.
  assert (Hr : 0 <= out_len < 2 ^ 64)
    by (unfold EVP_MAX_MD_SIZE in Hdl; rewrite two_64; lia).
  assert (Hv : too_large_test out_len (EVP_MD_size digest) = false).
  { destruct (too_large_test out_len (EVP_MD_size digest)) eqn:E; [| reflexivity].
    apply too_large_iff in E; [lia | exact Hr | exact Hdl]. }
  destruct (HKDF_expand previous out_key out_len digest prk prk_len info info_len w)
    as [[[r out'] prev'] w'] eqn:E.
  assert (Hq : r = 1 /\ err_queue w' = err_queue w).
  { revert E. rewrite HKDF_expand_run, Hv.
    destruct (expand_core_nofault previous out_key out_len digest prk prk_len
                info info_len w Hnf) as (f & w1 & ->).
    intros H. injection H as <- _ _ <-. split; reflexivity. }
  destruct Hq as [-> Hq].
  destruct (HKDF_expand_success EVP_MD_size_range KeyedHash_length
              _ _ _ _ _ _ _ _ _ _ _ _ Hr E) as (_ & -> & _).
  exists prev', w'. split; [reflexivity | exact Hq].
Qed.

Lemma span_front (l r : list byte) :
  span (l ++ r) (Z.of_nat (length l)) = l.
Proof. unfold span. rewrite Nat2Z.id. apply firstn_app_len. reflexivity. Qed.

(** X9: when no keyed-hash call fails and [L <= 255 * HashLen], the
    composite [HKDF] returns 1 with the error queue untouched, and the
    caller's buffer starts with the first [L] bytes of
    [T(1) || ... || T(N)] computed under the key
    [PRK = KeyedHash(salt, secret)], the bytes past [L] being as before. *)
Theorem HKDF_end_to_end prk prk_len previous out_key out_len digest
        secret secret_len salt salt_len info info_len w :
  0 <= out_len <= 255 * EVP_MD_size digest ->
  (forall n, hmac_fault n = false) ->
  let PRK := KeyedHash digest (span salt salt_len) (span secret secret_len) in
  exists prk' w',
    HKDF prk prk_len previous out_key out_len digest secret secret_len
         salt salt_len info info_len w
    = (1, OKM digest PRK (span info info_len) out_len
          ++ skipn (Z.to_nat out_len) out_key, prk', w')
    /\ err_queue w' = err_queue w.
Proof.
  intros Hlen Hnf. cbv zeta. rewrite HKDF_run. cbv zeta. rewrite Hnf.
  set (PRK := KeyedHash digest (span salt salt_len) (span secret secret_len)).
  destruct (HKDF_expand_nofault previous out_key out_len digest
              (PRK ++ skipn (length PRK) prk) (Z.of_nat (length PRK))
              info info_len
              (mkWorld (S (hmac_calls w)) (err_queue w)
                 (unlock_state :: lock_state :: lock_state :: indicator w))
              Hlen Hnf) as (prev' & w' & -> & Hq).
  rewrite span_front. cbn [Z.eqb].
  eexists. eexists. split; [reflexivity |]. exact Hq.
Qed.

(** X10: [HKDF] looks at the length only after Extract.  For
    [L > 255 * HashLen] it still makes Extract's keyed-hash call, and only
    that one; it returns 0 with the caller's buffer untouched, reporting
    [HKDF_R_OUTPUT_TOO_LARGE] when that call succeeded and [ERR_R_HMAC_LIB]
    when it failed. *)
Theorem HKDF_checks_length_after_extract prk prk_len previous out_key out_len
        digest secret secret_len salt salt_len info info_len w :
  0 <= out_len < 2 ^ 64 ->
  255 * EVP_MD_size digest < out_len ->
  let '(r, out', _, w') :=
    HKDF prk prk_len previous out_key out_len digest secret secret_len
         salt salt_len info info_len w in
  r = 0 /\ out' = out_key /\
  hmac_calls w' = S (hmac_calls w) /\
  err_queue w'
  = (if hmac_fault (hmac_calls w) then ERR_R_HMAC_LIB
     else HKDF_R_OUTPUT_TOO_LARGE) :: err_queue w.
Proof.
  intros Hlen Hbig. pose proof (EVP_MD_size_range digest) as Hdl.
  rewrite HKDF_run. cbv zeta.
  destruct (hmac_fault (hmac_calls w)); [repeat split |].
  rewrite HKDF_expand_run.
  rewrite (proj2 (too_large_iff _ _ Hlen Hdl) Hbig).
  repeat split.
Qed.

(** A trip through the loop body that leaves through [goto out] has not
    touched [done] or the caller's buffer. *)
Lemma expand_block_false out_len digest info info_len i f w f' w' :
  expand_block out_len digest info info_len i f w = (false, f', w') ->
  fr_done f' = fr_done f /\ fr_out_key f' = fr_out_key f.
Proof.
  unfold expand_block, bind, ret, HMAC_Init_ex, HMAC_Update, HMAC_Final,
    hmac_call, bind, ret.
  cbn -[uint8 OPENSSL_memcpy size_t Z.eqb].
  repeat match goal with
         | |- context [match ?x with _ => _ end] =>
             match x with
             | context [match _ with _ => _ end] => fail 1
             | _ => destruct x;
                    cbn -[uint8 OPENSSL_memcpy size_t];
                    try discriminate
             end
         end;
    intros H; injection H as <- _; split; reflexivity.
Qed.

Section PrefixFacts.

Variables (out_len : Z) (digest : EVP_MD) (info : list byte) (info_len : Z).
Variables (PRK out0 : list byte).

(** What the caller's buffer holds after [j] whole trips. *)
Let written (j : nat) (f : frame) : Prop :=
  fr_done f = Z.min (Z.of_nat j * EVP_MD_size digest) out_len /\
  fr_out_key f =
    firstn (Z.to_nat (fr_done f)) (blocks digest PRK (span info info_len) j)
    ++ skipn (Z.to_nat (fr_done f)) out0.

Lemma expand_loop_prefix (count : nat) : forall (j : nat) f w ok f' w',
  0 <= out_len < 2 ^ 64 ->
  (Z.of_nat (j + count) - 1) * EVP_MD_size digest < out_len ->
  block_inv out_len digest info info_len PRK out0 j f ->
  expand_loop out_len digest info info_len count (Z.of_nat j) f w = (ok, f', w') ->
  exists j', (j <= j' <= j + count)%nat /\
             (ok = true -> j' = (j + count)%nat) /\ written j' f'.
Proof.
  pose proof (EVP_MD_size_range digest) as Hdl.
  induction count as [| count IH]; intros j f w ok f' w' Hlen Hlast Hinv Hrun.
  - cbn in Hrun. injection Hrun as <- <- _.
    exists j. split; [lia |]. split; [intros _; lia |].
    destruct Hinv as (_ & _ & _ & _ & Hd & Ho). split; assumption.
  - cbn [expand_loop] in Hrun. unfold bind in Hrun.
    destruct (expand_block out_len digest info info_len (Z.of_nat j) f w)
      as [[ok1 f1] w1] eqn:E.
    destruct ok1.
    + destruct Hinv as (Hmd & Hrest).
      rewrite (expand_block_true _ _ _ _ _ _ _ _ _ Hmd E) in Hrun.
      replace (Z.of_nat j + 1) with (Z.of_nat (S j)) in Hrun by lia.
      apply (IH (S j)) in Hrun.
      * destruct Hrun as (j' & Hj' & Hok & Hw).
        exists j'. split; [lia |]. split; [intros H; rewrite (Hok H); lia | exact Hw].
      * exact Hlen.
      * replace (S j + count)%nat with (j + S count)%nat by lia. exact Hlast.
      * apply block_inv_next; try assumption; [nia | split; assumption].
    + injection Hrun as <- <- _.
      destruct (expand_block_false _ _ _ _ _ _ _ _ _ E) as [Hd Ho].
      destruct Hinv as (_ & _ & _ & _ & Hd0 & Ho0).
      exists j. split; [lia |]. split; [discriminate |].
      split; [rewrite Hd; exact Hd0 | rewrite Ho, Hd; exact Ho0].
Qed.

End PrefixFacts.

(** X11: on every exit path of [HKDF_expand], whatever calls fail: what the
    caller's buffer holds is, for some [j <= N], the first
    [min (j * HashLen, L)] bytes of [T(1) || ... || T(j)] followed by its own
    old bytes; so no byte at index [L] or beyond changes and a buffer of at
    least [L] bytes keeps its length.  On a successful return [j = N]. *)
Theorem HKDF_expand_writes_prefix previous out_key out_len digest prk prk_len
        info info_len w :
  0 <= out_len < 2 ^ 64 ->
  let '(r, out', _, _) :=
    HKDF_expand previous out_key out_len digest prk prk_len info info_len w in
  let N := Z.to_nat (ceil_div out_len (EVP_MD_size digest)) in
  (exists j : nat,
     (j <= N)%nat /\ (r = 1 -> j = N) /\
     let m := Z.to_nat (Z.min (Z.of_nat j * EVP_MD_size digest) out_len) in
     out' = firstn m (blocks digest (span prk prk_len) (span info info_len) j)
            ++ skipn m out_key) /\
  skipn (Z.to_nat out_len) out' = skipn (Z.to_nat out_len) out_key /\
  (out_len <= Z.of_nat (length out_key) -> length out' = length out_key).
Proof.
  intros Hlen. pose proof (EVP_MD_size_range digest) as Hdl.
  rewrite HKDF_expand_run.
  assert (Hshape : forall (r : Z) (out' : list byte) (j : nat),
    out' = firstn (Z.to_nat (Z.min (Z.of_nat j * EVP_MD_size digest) out_len))
             (blocks digest (span prk prk_len) (span info info_len) j)
           ++ skipn (Z.to_nat (Z.min (Z.of_nat j * EVP_MD_size digest) out_len))
                out_key ->
    skipn (Z.to_nat out_len) out' = skipn (Z.to_nat out_len) out_key /\
    (out_len <= Z.of_nat (length out_key) -> length out' = length out_key)).
  { intros r out' j ->.
    pose proof (blocks_length KeyedHash_length digest info info_len
                  (span prk prk_len) j) as HB.
    set (bl := blocks digest (span prk prk_len) (span info info_len) j) in *.
    set (m := Z.to_nat (Z.min (Z.of_nat j * EVP_MD_size digest) out_len)).
    assert (Hm : length (firstn m bl) = m) by (rewrite length_firstn; lia).
    split.
    - rewrite skipn_app, Hm.
      rewrite (skipn_all2 (n := Z.to_nat out_len) (firstn m bl)) by lia.
      cbn [app]. rewrite skipn_skipn. f_equal. lia.
    - intros Hbig. rewrite length_app, Hm, length_skipn. lia. }
  assert (H0 : out_key =
            firstn (Z.to_nat (Z.min (Z.of_nat 0 * EVP_MD_size digest) out_len))
              (blocks digest (span prk prk_len) (span info info_len) 0)
            ++ skipn (Z.to_nat (Z.min (Z.of_nat 0 * EVP_MD_size digest) out_len))
                 out_key).
  { replace (Z.min (Z.of_nat 0 * EVP_MD_size digest) out_len) with 0 by lia.
    reflexivity. }
  destruct (too_large_test out_len (EVP_MD_size digest)) eqn:Hv.
  - cbv zeta. split; [| apply (Hshape 0 out_key 0%nat); exact H0].
    exists 0%nat. split; [lia |]. split; [discriminate | exact H0].
  - destruct (valid_block_count _ _ Hlen Hdl Hv) as [Hn Hmax].
    destruct (ceil_div_bounds out_len (EVP_MD_size digest)) as (Hlo & Hup & Hn0);
      try lia.
    destruct (expand_core previous out_key out_len digest prk prk_len info info_len w)
      as [[ok f] w1] eqn:E.
    cbv zeta.
    assert (Hj : exists j : nat,
              (j <= Z.to_nat (ceil_div out_len (EVP_MD_size digest)))%nat /\
              (ok = true -> j = Z.to_nat (ceil_div out_len (EVP_MD_size digest))) /\
              fr_out_key f =
              firstn (Z.to_nat (Z.min (Z.of_nat j * EVP_MD_size digest) out_len))
                (blocks digest (span prk prk_len) (span info info_len) j)
              ++ skipn (Z.to_nat (Z.min (Z.of_nat j * EVP_MD_size digest) out_len))
                   out_key).
    { revert E. unfold expand_core, bind. rewrite HMAC_Init_ex_run.
      destruct (hmac_fault (hmac_calls w)).
      - cbn. intros H. injection H as <- <- _.
        exists 0%nat. split; [lia |]. split; [discriminate | exact H0].
      - cbn [Z.eqb]. rewrite Hn. intros Hrun.
        apply (expand_loop_prefix out_len digest info info_len
                 (span prk prk_len) out_key _ 0%nat) in Hrun.
        + destruct Hrun as (j' & Hj' & Hok & Hd & Ho).
          exists j'. split; [lia |]. split; [intros H; rewrite (Hok H); lia |].
          rewrite Ho, Hd. reflexivity.
        + exact Hlen.
        + cbn [Nat.add]. rewrite Z2Nat.id by lia.
          destruct (Z.eqb_spec out_len 0); [| lia].
          subst out_len. unfold ceil_div in *.
          rewrite Z.mod_0_l, Z.div_0_l in * by lia. cbn [Z.eqb] in *. lia.
        + unfold block_inv. cbn [fr_hmac fr_previous fr_done fr_out_key
                                 ctx_md ctx_key ctx_msg HMAC_CTX_init].
          repeat split; try reflexivity; try lia; try congruence. }
    destruct Hj as (j & Hjn & Hok & Ho).
    split; [| apply (Hshape 0 _ j); exact Ho].
    exists j. split; [exact Hjn |]. split; [| exact Ho].
    intros H1. apply Hok. destruct ok; [reflexivity | discriminate].
Qed.

(** ** The uninitialised locals are never read *)

Lemma span_app_short (l r : list byte) (n : Z) :
  n <= Z.of_nat (length l) -> span (l ++ r) n = span l n.
Proof.
  intros Hn. unfold span. rewrite firstn_app.
  replace (Z.to_nat n - length l)%nat with 0%nat by lia.
  cbn [firstn]. apply app_nil_r.
Qed.

Ltac run_hmac' :=
  repeat first
    [ rewrite HMAC_Init_ex_run | rewrite HMAC_Update_run
    | rewrite HMAC_Final_run ];
  cbn [hmac_calls bump ctx_md ctx_key ctx_msg fst snd].

Ltac fail_alike :=
  do 8 eexists; split; [reflexivity | split; [reflexivity | discriminate]].

(** Two frames that differ in [previous] only, and there only past the
    digest's length once a block has been computed, go through the loop body
    alike. *)
Lemma expand_block_garbage out_len digest info info_len i k m p1 p2 d o w :
  (i = 0 \/ span p1 (EVP_MD_size digest) = span p2 (EVP_MD_size digest)) ->
  exists ok k' m' p1' p2' d' o' w',
    expand_block out_len digest info info_len i
                 (mkFrame (mkCtx (Some digest) k m) p1 d o) w
    = (ok, mkFrame (mkCtx (Some digest) k' m') p1' d' o', w') /\
    expand_block out_len digest info info_len i
                 (mkFrame (mkCtx (Some digest) k m) p2 d o) w
    = (ok, mkFrame (mkCtx (Some digest) k' m') p2' d' o', w') /\
    (ok = true ->
     span p1' (EVP_MD_size digest) = span p2' (EVP_MD_size digest)).
Proof.
  intros Hp. pose proof (EVP_MD_size_range digest) as Hdl.
  unfold expand_block, bind, ret. cbn [fr_hmac fr_previous fr_done fr_out_key].
  assert (Htodo : (if EVP_MD_size digest >? size_t (out_len - d)
                   then size_t (out_len - d) else EVP_MD_size digest)
                  <= EVP_MD_size digest).
  { destruct (Z.gtb_spec (EVP_MD_size digest) (size_t (out_len - d))); lia. }
  set (todo := if EVP_MD_size digest >? size_t (out_len - d)
               then size_t (out_len - d) else EVP_MD_size digest) in *.
  destruct (Z.eqb_spec i 0) as [Hi | Hi].
  - cbn -[uint8 OPENSSL_memcpy size_t HMAC_Init_ex HMAC_Update HMAC_Final].
    run_hmac'.
    destruct (hmac_fault (hmac_calls w)); cbn [Z.eqb]; [fail_alike |].
    run_hmac'.
    destruct (hmac_fault (S (hmac_calls w))); cbn [Z.eqb]; [fail_alike |].
    run_hmac'.
    destruct (hmac_fault (S (S (hmac_calls w)))); cbn [Z.eqb]; [fail_alike |].
    rewrite !memcpy_front. unfold OPENSSL_memcpy.
    rewrite !(span_app_short _ _ todo) by (rewrite KeyedHash_length; exact Htodo).
    do 8 eexists. split; [reflexivity |]. split; [reflexivity |]. intros _.
    rewrite !(span_app_short _ _ (EVP_MD_size digest))
      by (rewrite KeyedHash_length; lia).
    reflexivity.
  - destruct Hp as [Hp | Hp]; [contradiction |]. rewrite Hp.
    run_hmac'.
    destruct (hmac_fault (hmac_calls w)); cbn [Z.eqb]; [fail_alike |].
    run_hmac'.
    destruct (hmac_fault (S (hmac_calls w))); cbn [Z.eqb]; [fail_alike |].
    run_hmac'.
    destruct (hmac_fault (S (S (hmac_calls w)))); cbn [Z.eqb]; [fail_alike |].
    run_hmac'.
    destruct (hmac_fault (S (S (S (hmac_calls w))))); cbn [Z.eqb];
      [fail_alike |].
    run_hmac'.
    destruct (hmac_fault (S (S (S (S (hmac_calls w)))))); cbn [Z.eqb];
      [fail_alike |].
    rewrite !memcpy_front. unfold OPENSSL_memcpy.
    rewrite !(span_app_short _ _ todo) by (rewrite KeyedHash_length; exact Htodo).
    do 8 eexists. split; [reflexivity |]. split; [reflexivity |]. intros _.
    rewrite !(span_app_short _ _ (EVP_MD_size digest))
      by (rewrite KeyedHash_length; lia).
    reflexivity.
Qed.

Lemma expand_loop_garbage out_len digest info info_len (count : nat) :
  forall i k m p1 p2 d o w,
  (i = 0 \/ span p1 (EVP_MD_size digest) = span p2 (EVP_MD_size digest)) ->
  exists ok h' p1' p2' d' o' w',
    expand_loop out_len digest info info_len count i
                (mkFrame (mkCtx (Some digest) k m) p1 d o) w
    = (ok, mkFrame h' p1' d' o', w') /\
    expand_loop out_len digest info info_len count i
                (mkFrame (mkCtx (Some digest) k m) p2 d o) w
    = (ok, mkFrame h' p2' d' o', w').
Proof.
  induction count as [| count IH]; intros i k m p1 p2 d o w Hp.
  - cbn [expand_loop]. unfold ret. do 7 eexists. split; reflexivity.
  - cbn [expand_loop]. unfold bind.
    destruct (expand_block_garbage out_len digest info info_len i k m p1 p2 d o w Hp)
      as (ok & k' & m' & p1' & p2' & d' & o' & w' & -> & -> & Hspan).
    destruct ok.
    + apply IH. right. apply Hspan. reflexivity.
    + unfold ret. do 7 eexists. split; reflexivity.
Qed.

Lemma expand_core_garbage previous1 previous2 out_key out_len digest prk prk_len
      info info_len w :
  exists ok h' p1' p2' d' o' w',
    expand_core previous1 out_key out_len digest prk prk_len info info_len w
    = (ok, mkFrame h' p1' d' o', w') /\
    expand_core previous2 out_key out_len digest prk prk_len info info_len w
    = (ok, mkFrame h' p2' d' o', w').
Proof.
  unfold expand_core, bind. rewrite HMAC_Init_ex_run.
  destruct (hmac_fault (hmac_calls w)); cbn [Z.eqb].
  - unfold ret. do 7 eexists. split; reflexivity.
  - apply expand_loop_garbage. left. reflexivity.
Qed.

(** [HKDF_expand] reads [prk[0..prk_len)] only. *)
Lemma HKDF_expand_span previous out_key out_len digest prkA lenA prkB lenB
      info info_len w :
  span prkA lenA = span prkB lenB ->
  HKDF_expand previous out_key out_len digest prkA lenA info info_len w
  = HKDF_expand previous out_key out_len digest prkB lenB info info_len w.
Proof. intros H. unfold HKDF_expand. rewrite H. reflexivity. Qed.

(** X12: neither function ever reads its uninitialised locals.  Whatever
    bytes [previous] holds at entry, [HKDF_expand] returns the same value,
    leaves the same bytes in the caller's buffer and the same world; and the
    same holds of [HKDF] for the bytes in [prk], the value in [prk_len] and
    the callee's [previous]. *)
Theorem HKDF_ignores_uninitialised_locals
        previous1 previous2 prk1 prk2 prk_len1 prk_len2
        out_key out_len digest key key_len
        secret secret_len salt salt_len info info_len w :
  (let r1 := HKDF_expand previous1 out_key out_len digest key key_len
                         info info_len w in
   let r2 := HKDF_expand previous2 out_key out_len digest key key_len
                         info info_len w in
   fst (fst r1) = fst (fst r2) /\ snd r1 = snd r2) /\
  (let c1 := HKDF prk1 prk_len1 previous1 out_key out_len digest
                  secret secret_len salt salt_len info info_len w in
   let c2 := HKDF prk2 prk_len2 previous2 out_key out_len digest
                  secret secret_len salt salt_len info info_len w in
   fst (fst c1) = fst (fst c2) /\ snd c1 = snd c2).
Proof.
  assert (Hexp : forall p1 p2 kk kl ww,
    fst (fst (HKDF_expand p1 out_key out_len digest kk kl info info_len ww))
    = fst (fst (HKDF_expand p2 out_key out_len digest kk kl info info_len ww))
    /\ snd (HKDF_expand p1 out_key out_len digest kk kl info info_len ww)
       = snd (HKDF_expand p2 out_key out_len digest kk kl info info_len ww)).
  { intros p1 p2 kk kl ww. rewrite !HKDF_expand_run.
    destruct (too_large_test out_len (EVP_MD_size digest)); [split; reflexivity |].
    destruct (expand_core_garbage p1 p2 out_key out_len digest kk kl
                info info_len ww)
      as (ok & h' & q1 & q2 & d' & o' & w' & -> & ->).
    split; reflexivity. }
  split; [apply Hexp |].
  cbv zeta. rewrite !HKDF_run. cbv zeta.
  destruct (hmac_fault (hmac_calls w)); [split; reflexivity |].
  set (PRK := KeyedHash digest (span salt salt_len) (span secret secret_len)).
  set (wA := mkWorld (S (hmac_calls w)) (err_queue w)
               (unlock_state :: lock_state :: lock_state :: indicator w)).
  rewrite (HKDF_expand_span previous2 out_key out_len digest
             (PRK ++ skipn (length PRK) prk2) (Z.of_nat (length PRK))
             (PRK ++ skipn (length PRK) prk1) (Z.of_nat (length PRK)))
    by (rewrite !span_front; reflexivity).
  destruct (Hexp previous1 previous2 (PRK ++ skipn (length PRK) prk1)
              (Z.of_nat (length PRK)) wA) as [Hv Hw].
  destruct (HKDF_expand previous1 _ _ _ _ _ _ _ _) as [[[r1 o1] q1] w1].
  destruct (HKDF_expand previous2 _ _ _ _ _ _ _ _) as [[[r2 o2] q2] w2].
  cbn [fst snd] in Hv, Hw. injection Hv as -> ->. subst w2.
  split; reflexivity.
Qed.

(** ** Keyed-hash calls made *)

Lemma loop_calls_later (j count : nat) :
  (0 < j)%nat -> loop_calls j count = (5 * count)%nat.
Proof.
  revert j. induction count as [| count IH]; intros j Hj; [reflexivity |].
  cbn [loop_calls]. rewrite IH by lia.
  destruct j; [lia |]. cbn [Nat.eqb]. lia.
Qed.

Lemma expand_calls_closed (N : nat) :
  expand_calls N = match N with O => 1%nat | S _ => (5 * N - 1)%nat end.
Proof.
  unfold expand_calls. destruct N as [| N]; [reflexivity |].
  cbn [loop_calls Nat.eqb]. rewrite loop_calls_later by lia. lia.
Qed.

(** A trip through the loop body succeeds exactly when none of its three
    (first trip) or five keyed-hash calls fails, and it then has made them
    all; it never makes more. *)
Lemma expand_block_calls out_len digest info info_len (j : nat) f w ok f' w' :
  ctx_md (fr_hmac f) = Some digest ->
  expand_block out_len digest info info_len (Z.of_nat j) f w = (ok, f', w') ->
  let c := if Nat.eqb j 0 then 3%nat else 5%nat in
  (ok = true <->
   forall k, (k < c)%nat -> hmac_fault (hmac_calls w + k) = false) /\
  (ok = true -> hmac_calls w' = (hmac_calls w + c)%nat) /\
  (hmac_calls w' <= hmac_calls w + c)%nat.
Proof.
  intros Hmd. cbv zeta. unfold expand_block, bind, ret.
  assert (F0 : hmac_fault (hmac_calls w + 0) = hmac_fault (hmac_calls w))
    by (rewrite Nat.add_0_r; reflexivity).
  assert (F1 : hmac_fault (hmac_calls w + 1) = hmac_fault (S (hmac_calls w)))
    by (f_equal; lia).
  assert (F2 : hmac_fault (hmac_calls w + 2) = hmac_fault (S (S (hmac_calls w))))
    by (f_equal; lia).
  assert (F3 : hmac_fault (hmac_calls w + 3)
               = hmac_fault (S (S (S (hmac_calls w))))) by (f_equal; lia).
  assert (F4 : hmac_fault (hmac_calls w + 4)
               = hmac_fault (S (S (S (S (hmac_calls w)))))) by (f_equal; lia).
  destruct j as [| j].
  - cbn -[uint8 OPENSSL_memcpy size_t HMAC_Init_ex HMAC_Update HMAC_Final].
    run_hmac'. rewrite Hmd.
    destruct (hmac_fault (hmac_calls w)) eqn:E0; cbn [Z.eqb].
    { intros H. injection H as <- _ <-. cbn [hmac_calls bump].
      split; [| split; [discriminate | lia]].
      split; [discriminate |]. intros Hall.
      specialize (Hall 0%nat ltac:(lia)). congruence. }
    run_hmac'.
    destruct (hmac_fault (S (hmac_calls w))) eqn:E1; cbn [Z.eqb].
    { intros H. injection H as <- _ <-. cbn [hmac_calls bump].
      split; [| split; [discriminate | lia]].
      split; [discriminate |]. intros Hall.
      specialize (Hall 1%nat ltac:(lia)). congruence. }
    run_hmac'.
    destruct (hmac_fault (S (S (hmac_calls w)))) eqn:E2; cbn [Z.eqb].
    { intros H. injection H as <- _ <-. cbn [hmac_calls bump].
      split; [| split; [discriminate | lia]].
      split; [discriminate |]. intros Hall.
      specialize (Hall 2%nat ltac:(lia)). congruence. }
    intros H. injection H as <- _ <-. cbn [hmac_calls bump].
    split; [| split; [intros _; lia | lia]].
    split; [| reflexivity]. intros _ k Hk.
    destruct k as [| [| [| k]]]; [exact F0 | exact F1 | exact F2 | lia].
  - replace (Z.of_nat (S j) =? 0) with false
      by (symmetry; apply Z.eqb_neq; lia).
    cbn [Nat.eqb].
    run_hmac'. rewrite Hmd.
    destruct (hmac_fault (hmac_calls w)) eqn:E0; cbn [Z.eqb].
    { intros H. injection H as <- _ <-. cbn [hmac_calls bump].
      split; [| split; [discriminate | lia]].
      split; [discriminate |]. intros Hall.
      specialize (Hall 0%nat ltac:(lia)). congruence. }
    run_hmac'.
    destruct (hmac_fault (S (hmac_calls w))) eqn:E1; cbn [Z.eqb].
    { intros H. injection H as <- _ <-. cbn [hmac_calls bump].
      split; [| split; [discriminate | lia]].
      split; [discriminate |]. intros Hall.
      specialize (Hall 1%nat ltac:(lia)). congruence. }
    run_hmac'.
    destruct (hmac_fault (S (S (hmac_calls w)))) eqn:E2; cbn [Z.eqb].
    { intros H. injection H as <- _ <-. cbn [hmac_calls bump].
      split; [| split; [discriminate | lia]].
      split; [discriminate |]. intros Hall.
      specialize (Hall 2%nat ltac:(lia)). congruence. }
    run_hmac'.
    destruct (hmac_fault (S (S (S (hmac_calls w))))) eqn:E3; cbn [Z.eqb].
    { intros H. injection H as <- _ <-. cbn [hmac_calls bump].
      split; [| split; [discriminate | lia]].
      split; [discriminate |]. intros Hall.
      specialize (Hall 3%nat ltac:(lia)). congruence. }
    run_hmac'.
    destruct (hmac_fault (S (S (S (S (hmac_calls w)))))) eqn:E4; cbn [Z.eqb].
    { intros H. injection H as <- _ <-. cbn [hmac_calls bump].
      split; [| split; [discriminate | lia]].
      split; [discriminate |]. intros Hall.
      specialize (Hall 4%nat ltac:(lia)). congruence. }
    intros H. injection H as <- _ <-. cbn [hmac_calls bump].
    split; [| split; [intros _; lia | lia]].
    split; [| reflexivity]. intros _ k Hk.
    destruct k as [| [| [| [| [| k]]]]];
      [exact F0 | exact F1 | exact F2 | exact F3 | exact F4 | lia].
Qed.

Lemma expand_loop_calls out_len digest info info_len (count : nat) :
  forall (j : nat) f w ok f' w',
  ctx_md (fr_hmac f) = Some digest ->
  expand_loop out_len digest info info_len count (Z.of_nat j) f w = (ok, f', w') ->
  (ok = true <->
   forall k, (k < loop_calls j count)%nat ->
             hmac_fault (hmac_calls w + k) = false) /\
  (ok = true -> hmac_calls w' = (hmac_calls w + loop_calls j count)%nat) /\
  (hmac_calls w' <= hmac_calls w + loop_calls j count)%nat.
Proof.
  induction count as [| count IH]; intros j f w ok f' w' Hmd Hrun.
  - cbn in Hrun. injection Hrun as <- _ <-. cbn [loop_calls].
    split; [split; [intros _ k Hk; lia | reflexivity] |]. split; [intros _; lia | lia].
  - cbn [expand_loop] in Hrun. unfold bind in Hrun.
    destruct (expand_block out_len digest info info_len (Z.of_nat j) f w)
      as [[ok1 f1] w1] eqn:E.
    destruct (expand_block_calls _ _ _ _ _ _ _ _ _ _ Hmd E) as (Hiff & Hc & Hle).
    cbn [loop_calls]. set (c := if Nat.eqb j 0 then 3%nat else 5%nat) in *.
    destruct ok1.
    + pose proof (expand_block_true _ _ _ _ _ _ _ _ _ Hmd E) as Hf1.
      replace (Z.of_nat j + 1) with (Z.of_nat (S j)) in Hrun by lia.
      apply IH in Hrun; [| rewrite Hf1; reflexivity].
      destruct Hrun as (Hiff2 & Hc2 & Hle2).
      rewrite (Hc eq_refl) in *.
      destruct Hiff as [Hall1 _]. specialize (Hall1 eq_refl).
      split; [| split; [intros H; rewrite (Hc2 H); lia | lia]].
      rewrite Hiff2. split.
      * intros Hall2 k Hk. destruct (Nat.lt_ge_cases k c) as [Hlt | Hge].
        -- apply Hall1. exact Hlt.
        -- replace (hmac_calls w + k)%nat with (hmac_calls w + c + (k - c))%nat
             by lia.
           apply Hall2. lia.
      * intros Hall k Hk.
        replace (hmac_calls w + c + k)%nat with (hmac_calls w + (c + k))%nat
          by lia.
        apply Hall. lia.
    + injection Hrun as <- _ <-.
      split; [| split; [discriminate | lia]].
      split; [discriminate |]. intros Hall.
      apply Hiff. intros k Hk. apply Hall. lia.
Qed.

(** X13: for [L <= 255 * HashLen] a whole [HKDF_expand] succeeds exactly when
    none of the next [5 N - 1] keyed-hash calls fails (one call when
    [N = 0]); a successful call has made exactly that many, and no call ever
    makes more. *)
Theorem HKDF_expand_call_count previous out_key out_len digest prk prk_len
        info info_len w :
  0 <= out_len <= 255 * EVP_MD_size digest ->
  let N := Z.to_nat (ceil_div out_len (EVP_MD_size digest)) in
  let calls := match N with O => 1%nat | S _ => (5 * N - 1)%nat end in
  let '(r, _, _, w') :=
    HKDF_expand previous out_key out_len digest prk prk_len info info_len w in
  (r = 1 <->
   forall k, (k < calls)%nat -> hmac_fault (hmac_calls w + k) = false) /\
  (r = 1 -> hmac_calls w' = (hmac_calls w + calls)%nat) /\
  (hmac_calls w' <= hmac_calls w + calls)%nat.
Proof.
  intros Hlen. pose proof (EVP_MD_size_range digest) as Hdl.
  assert (Hr : 0 <= out_len < 2 ^ 64)
    by (unfold EVP_MAX_MD_SIZE in Hdl; rewrite two_64; lia).
  assert (Hv : too_large_test out_len (EVP_MD_size digest) = false).
  { destruct (too_large_test out_len (EVP_MD_size digest)) eqn:E; [| reflexivity].
    apply too_large_iff in E; [lia | exact Hr | exact Hdl]. }
  destruct (valid_block_count _ _ Hr Hdl Hv) as [Hn _].
  cbv zeta. rewrite <- expand_calls_closed. unfold expand_calls.
  rewrite HKDF_expand_run, Hv.
  unfold expand_core, bind. rewrite HMAC_Init_ex_run, Hn.
  assert (F0 : hmac_fault (hmac_calls w + 0) = hmac_fault (hmac_calls w))
    by (rewrite Nat.add_0_r; reflexivity).
  destruct (hmac_fault (hmac_calls w)) eqn:E0; cbn [Z.eqb].
  - cbn [ret hmac_calls bump].
    split; [| split; [discriminate | lia]].
    split; [discriminate |]. intros Hall.
    specialize (Hall 0%nat ltac:(lia)). congruence.
  - destruct (expand_loop out_len digest info info_len
                (Z.to_nat (ceil_div out_len (EVP_MD_size digest))) 0
                (mkFrame (mkCtx (Some digest) (span prk prk_len) [])
                         previous 0 out_key) (bump w))
      as [[ok f] w1] eqn:E.
    apply (expand_loop_calls _ _ _ _ _ 0%nat) in E; [| reflexivity].
    destruct E as (Hiff & Hc & Hle). cbn [hmac_calls bump] in *.
    set (L := loop_calls 0 (Z.to_nat (ceil_div out_len (EVP_MD_size digest)))) in *.
    split; [| split].
    + split.
      * intros H1. assert (Hok : ok = true) by (destruct ok; [reflexivity | discriminate]).
        intros k Hk. destruct k as [| k]; [exact F0 |].
        replace (hmac_calls w + S k)%nat with (S (hmac_calls w) + k)%nat by lia.
        apply Hiff; [exact Hok | lia].
      * intros Hall. assert (Hok : ok = true).
        { apply Hiff. intros k Hk.
          replace (S (hmac_calls w) + k)%nat with (hmac_calls w + S k)%nat by lia.
          apply Hall. lia. }
        rewrite Hok. reflexivity.
    + intros H1. assert (Hok : ok = true) by (destruct ok; [reflexivity | discriminate]).
      rewrite (Hc Hok). lia.
    + lia.
Qed.

(** ** The block counter *)



End HKDFMore.

(** ** Concrete runs for the further facts *)

Lemma CRYPTO_rdrand_multiple8_buf_total_witness :
  exists s' j,
    CRYPTO_rdrand_multiple8_buf hw_second_stuck 3 (entry 4096 24) = Some s' /\
    (j <= 3)%nat /\
    (draws s' <= draws (entry 4096 24) + 3)%nat /\
    (rax s' = 1 \/ rax s' = 0) /\
    (rax s' = 1 <->
     forall i, (i < 3)%nat ->
               good hw_second_stuck (draws (entry 4096 24) + i) = true) /\
    mem s' = filled hw_second_stuck j (mem (entry 4096 24))
                    (rdi (entry 4096 24)) (draws (entry 4096 24)) /\
    (forall x, 0 <= x < 2 ^ 64 ->
       8 * Z.of_nat 3 <= wrap64 (x - rdi (entry 4096 24)) ->
       mem s' x = mem (entry 4096 24) x).
Proof.
  apply (CRYPTO_rdrand_multiple8_buf_total hw_second_stuck (entry 4096 24) 3 3).
  - reflexivity.
  - reflexivity.
  - lia.
Defined.

Lemma CRYPTO_rdrand_multiple8_buf_misaligned_witness :
  (forall fuel s',
     CRYPTO_rdrand_multiple8_buf hw_five fuel (entry 4096 12) = Some s' ->
     rax s' = 0) /\
  ((forall n, good hw_five n = true) ->
   forall fuel, CRYPTO_rdrand_multiple8_buf hw_five fuel (entry 4096 12) = None).
Proof.
  apply (CRYPTO_rdrand_multiple8_buf_misaligned hw_five (entry 4096 12)).
  - cbn. discriminate.
  - cbn. lia.
Defined.

Lemma CRYPTO_rdrand_multiple8_buf_as_singles_witness :
  exists s',
    CRYPTO_rdrand_multiple8_buf hw_five 2 (entry 4096 16) = Some s' /\
    mem s' = mem (singles hw_five 2 (rdi (entry 4096 16)) (entry 4096 16)) /\
    rax s' = rax (singles hw_five 2 (rdi (entry 4096 16)) (entry 4096 16)) /\
    rax s' = 1 /\
    draws s' = draws (singles hw_five 2 (rdi (entry 4096 16)) (entry 4096 16)).
Proof.
  apply (CRYPTO_rdrand_multiple8_buf_as_singles hw_five (entry 4096 16) 2 2).
  - reflexivity.
  - reflexivity.
  - lia.
  - intros i _. reflexivity.
Defined.

Lemma HKDF_expand_max_length_witness :
  let run :=
    @HKDF_expand (toy no_fault) [] (repeat x00 8) 6 toy4
                 [x01; x02; x03; x04] 4 [x10] 1 w0 in
  (255 * @EVP_MD_size (toy no_fault) toy4 < 6 ->
   run = (0, repeat x00 8, [],
          mkWorld (hmac_calls (@w0 (toy no_fault)))
                  (HKDF_R_OUTPUT_TOO_LARGE :: err_queue (@w0 (toy no_fault)))
                  (indicator (@w0 (toy no_fault))))) /\
  (6 <= 255 * @EVP_MD_size (toy no_fault) toy4 ->
   indicator (snd run)
   = @HKDFExpand_verify (toy no_fault) toy4 :: unlock_state :: lock_state
       :: indicator (@w0 (toy no_fault)) /\
   err_queue (snd run)
   <> HKDF_R_OUTPUT_TOO_LARGE :: err_queue (@w0 (toy no_fault))).
Proof.
  apply (@HKDF_expand_max_length (toy no_fault) (toy_size_range no_fault)).
  lia.
Defined.

Lemma HKDF_end_to_end_witness :
  let PRK := @KeyedHash (toy no_fault) toy4 (span [x00; x01] 2)
                        (span [x0b; x0b] 2) in
  exists prk' w',
    @HKDF (toy no_fault) [] 0 [] (repeat x00 8) 6 toy4
          [x0b; x0b] 2 [x00; x01] 2 [x10] 1 w0
    = (1, @OKM (toy no_fault) toy4 PRK (span [x10] 1) 6
          ++ skipn (Z.to_nat 6) (repeat x00 8), prk', w')
    /\ err_queue w' = err_queue (@w0 (toy no_fault)).
Proof.
  apply (@HKDF_end_to_end (toy no_fault) (toy_size_range no_fault)
           (toy_hash_length no_fault)).
  - cbn. lia.
  - intros n. reflexivity.
Defined.

Lemma HKDF_checks_length_after_extract_witness :
  let '(r, out', _, w') :=
    @HKDF (toy no_fault) [] 0 [] (repeat x00 8) 1021 toy4
          [x0b; x0b] 2 [x00; x01] 2 [x10] 1 w0 in
  r = 0 /\ out' = repeat x00 8 /\
  hmac_calls w' = S (hmac_calls (@w0 (toy no_fault))) /\
  err_queue w'
  = (if @hmac_fault (toy no_fault) (hmac_calls (@w0 (toy no_fault)))
     then ERR_R_HMAC_LIB else HKDF_R_OUTPUT_TOO_LARGE)
    :: err_queue (@w0 (toy no_fault)).
Proof.
  apply (@HKDF_checks_length_after_extract (toy no_fault)
           (toy_size_range no_fault) [] 0 [] (repeat x00 8) 1021 toy4
           [x0b; x0b] 2 [x00; x01] 2 [x10] 1 w0).
  - lia.
  - cbn. lia.
Defined.

Lemma HKDF_expand_writes_prefix_witness :
  let '(r, out', _, _) :=
    @HKDF_expand (toy (fault_at 5)) [] (repeat x00 8) 6 toy4
                 [x01; x02; x03; x04] 4 [x10] 1 w0 in
  let N := Z.to_nat (ceil_div 6 (@EVP_MD_size (toy (fault_at 5)) toy4)) in
  (exists j : nat,
     (j <= N)%nat /\ (r = 1 -> j = N) /\
     let m := Z.to_nat (Z.min (Z.of_nat j
                               * @EVP_MD_size (toy (fault_at 5)) toy4) 6) in
     out' = firstn m (@blocks (toy (fault_at 5)) toy4
                              (span [x01; x02; x03; x04] 4) (span [x10] 1) j)
            ++ skipn m (repeat x00 8)) /\
  skipn (Z.to_nat 6) out' = skipn (Z.to_nat 6) (repeat x00 8) /\
  (6 <= Z.of_nat (length (repeat x00 8)) ->
   length out' = length (repeat x00 8)).
Proof.
  apply (@HKDF_expand_writes_prefix (toy (fault_at 5))
           (toy_size_range (fault_at 5)) (toy_hash_length (fault_at 5))
           [] (repeat x00 8) 6 toy4 [x01; x02; x03; x04] 4 [x10] 1 w0).
  lia.
Defined.

Lemma HKDF_expand_call_count_witness :
  let N := Z.to_nat (ceil_div 6 (@EVP_MD_size (toy (fault_at 8)) toy4)) in
  let calls := match N with O => 1%nat | S _ => (5 * N - 1)%nat end in
  let '(r, _, _, w') :=
    @HKDF_expand (toy (fault_at 8)) [] (repeat x00 8) 6 toy4
                 [x01; x02; x03; x04] 4 [x10] 1 w0 in
  (r = 1 <->
   forall k, (k < calls)%nat ->
             @hmac_fault (toy (fault_at 8))
                         (hmac_calls (@w0 (toy (fault_at 8))) + k) = false) /\
  (r = 1 -> hmac_calls w' = (hmac_calls (@w0 (toy (fault_at 8))) + calls)%nat) /\
  (hmac_calls w' <= hmac_calls (@w0 (toy (fault_at 8))) + calls)%nat.
Proof.
  apply (@HKDF_expand_call_count (toy (fault_at 8))
           (toy_size_range (fault_at 8))
           [] (repeat x00 8) 6 toy4 [x01; x02; x03; x04] 4 [x10] 1 w0).
  cbn. lia.
Defined.



Lemma HKDF_ignores_uninitialised_locals_witness :
  (let r1 := @HKDF_expand (toy (fault_at 5)) [] (repeat x00 8) 6 toy4
                          [x01; x02; x03; x04] 4 [x10] 1 w0 in
   let r2 := @HKDF_expand (toy (fault_at 5)) (repeat xff 64) (repeat x00 8) 6
                          toy4 [x01; x02; x03; x04] 4 [x10] 1 w0 in
   fst (fst r1) = fst (fst r2) /\ snd r1 = snd r2) /\
  (let c1 := @HKDF (toy (fault_at 5)) [] 0 [] (repeat x00 8) 6 toy4
                   [x0b; x0b] 2 [x00; x01] 2 [x10] 1 w0 in
   let c2 := @HKDF (toy (fault_at 5)) (repeat xff 64) 7 (repeat xff 64)
                   (repeat x00 8) 6 toy4
                   [x0b; x0b] 2 [x00; x01] 2 [x10] 1 w0 in
   fst (fst c1) = fst (fst c2) /\ snd c1 = snd c2).
Proof.
  exact (@HKDF_ignores_uninitialised_locals (toy (fault_at 5))
           (toy_size_range (fault_at 5)) (toy_hash_length (fault_at 5))
           [] (repeat xff 64) [] (repeat xff 64) 0 7
           (repeat x00 8) 6 toy4 [x01; x02; x03; x04] 4
           [x0b; x0b] 2 [x00; x01] 2 [x10] 1 w0).
Defined.

(* ===================================================================== *)
(** * Part VII: facts about the [x509] tool *)
(* ===================================================================== *)

(** Follow the run: settle the next call or test the code branches on. *)
Ltac follow ok :=
  repeat (cbn -[Z.mul Z.add Z.ltb Z.gtb Z.eqb X509.sign_and_write
                X509.from_request X509.from_certificate X509.run_tool];
          match goal with
          | |- context [if ?b then _ else _] =>
              lazymatch b with
              | true => fail
              | false => fail
              | context [if _ then _ else _] => fail
              | context [ok _ _] =>
                  match b with
                  | context [ok ?h ?c] =>
                      lazymatch h with
                      | context [ok _ _] => fail
                      | _ => destruct (ok h c) eqn:?
                      end
                  end
              | negb ?x => destruct x eqn:?
              | negb ?x && negb ?y => destruct x eqn:?; destruct y eqn:?
              | _ => destruct b eqn:?
              end
          end);
  cbn -[Z.mul Z.add Z.ltb Z.gtb Z.eqb X509.sign_and_write
        X509.from_request X509.from_certificate X509.run_tool].

(** Settle a fact about a trace that is known but for its tail. *)
Ltac settle0 :=
  first [ reflexivity | assumption | discriminate | lia | congruence
        | intros; discriminate
        | intros; split; first [reflexivity | congruence]
        | split; intro; first [reflexivity | discriminate | assumption]
        | intro; discriminate
        | intro; intuition discriminate
        | intros; intuition congruence ].

Ltac settle :=
  cbn -[Z.mul Z.add Z.ltb Z.gtb Z.eqb] in *;
  first [ settle0 | left; settle0 | right; settle0
        | right; split; settle0 ].

(** The run succeeds when every call does. *)
Ltac succeed ok :=
  let Hall := fresh "Hall" in
  intros Hall;
  first [ reflexivity
        | match goal with
          | Hs : _ -> ?r = true |- ?r = true =>
              apply Hs; intros; apply Hall; assumption
          end
        | exfalso;
          match goal with
          | H : ok _ _ = false |- _ =>
              rewrite Hall in H by discriminate; discriminate H
          end ].

(** Bring in what is known of the tail of the run. *)
Ltac tail_facts lem o :=
  try match goal with
      | |- context [X509.sign_and_write o ?e] =>
          let Htail := fresh "Htail" in
          let ts := fresh "ts" in
          let rs := fresh "rs" in
          pose proof (lem e o) as Htail;
          destruct (X509.sign_and_write o e) as [ts rs];
          destruct Htail as (Hw1 & Hw2 & Hw3 & Hs & Hv & Hna & Hc & Hst & Hff
                             & Hsucc);
          destruct rs; rewrite ?Hc, ?Hv
      end.

Section X509Facts.

Variables dl sl : Z.

(** Signing and writing, the common end of both branches. *)
Lemma sign_and_write_facts (ok : X509.env) (o : X509.options) :
  let (t, r) := X509.sign_and_write o ok in
  (length (X509.writes t) <= 1)%nat /\
  (X509.writes t <> [] ->
   X509.empty (X509.out_path o) = false /\ X509.noout o = false) /\
  (r = true -> X509.noout o = false -> X509.empty (X509.out_path o) = false ->
   X509.writes t = [X509.Call X509.PEM_write_X509 true]) /\
  (X509.empty (X509.signkey_path o) = false ->
   X509.signed_first false t = true) /\
  filter X509.is_verdict t = [] /\
  (forall s b, ~ In (X509.Call (X509.X509_gmtime_adj_notAfter s) b) t) /\
  (if r then filter X509.is_complaint t = []
   else filter X509.is_complaint t <> []) /\
  X509.stops_at_failure t = true /\
  (r = true <-> filter X509.failed t = []) /\
  ((forall h c, c <> X509.EVP_PKEY_is_RSA -> ok h c = true) -> r = true).
Proof.
  unfold X509.sign_and_write, X509.LoadAndSignCertificate,
    X509.WriteSignedCertificate.
  unfold X509.bind, X509.ret, X509.say, X509.do_call, X509.after.
  follow ok; unfold X509.writes;
    (split; [settle |]); (split; [settle |]); (split; [settle |]);
    (split; [settle |]); (split; [settle |]); (split; [settle |]);
    (split; [settle |]); (split; [settle |]); (split; [settle |]);
    succeed ok.
Qed.

(** The [-req] branch. *)
Lemma from_request_facts (ok : X509.env) (o : X509.options) :
  let (t, r) := X509.from_request o ok in
  (length (X509.writes t) <= 1)%nat /\
  (X509.writes t <> [] ->
   X509.empty (X509.out_path o) = false /\ X509.noout o = false) /\
  (r = true -> X509.noout o = false -> X509.empty (X509.out_path o) = false ->
   X509.writes t = [X509.Call X509.PEM_write_X509 true]) /\
  (X509.empty (X509.signkey_path o) = false ->
   X509.signed_first false t = true) /\
  filter X509.is_verdict t = [] /\
  (forall s b, In (X509.Call (X509.X509_gmtime_adj_notAfter s) b) t ->
               s = 60 * 60 * 24 * (if X509.days o >? 0 then X509.days o
                                   else 30)) /\
  (if r then filter X509.is_complaint t = []
   else filter X509.is_complaint t <> []) /\
  X509.stops_at_failure t = true /\
  (r = true <-> filter X509.failed t = []) /\
  ((forall h c, c <> X509.EVP_PKEY_is_RSA -> ok h c = true) -> r = true).
Proof.
  unfold X509.from_request.
  unfold X509.bind, X509.ret, X509.say, X509.do_call, X509.after.
  follow ok; tail_facts sign_and_write_facts o; unfold X509.writes in *;
    (split; [settle |]); (split; [settle |]); (split; [settle |]);
    (split; [settle |]); (split; [settle |]);
    (split;
     [ intros s b Hin; cbn in Hin;
       repeat match goal with
              | H : _ \/ _ |- _ =>
                  destruct H as [H | H];
                  [first [discriminate H | injection H as <- _; reflexivity] |]
              end;
       first [exfalso; exact (Hna s b Hin) | contradiction] |]);
    (split; [settle |]); (split; [settle |]); (split; [settle |]);
    succeed ok.
Qed.

(** The certificate branch. *)
Lemma from_certificate_facts (ok : X509.env) (o : X509.options) :
  let (t, r) := X509.from_certificate dl sl o ok in
  (length (X509.writes t) <= 1)%nat /\
  (X509.writes t <> [] ->
   X509.empty (X509.out_path o) = false /\ X509.noout o = false) /\
  (r = true -> X509.noout o = false -> X509.empty (X509.out_path o) = false ->
   X509.writes t = [X509.Call X509.PEM_write_X509 true]) /\
  (X509.empty (X509.signkey_path o) = false ->
   X509.signed_first false t = true) /\
  ((filter X509.is_verdict t = [] \/
    filter X509.is_verdict t
    = [X509.Stdout (if dl * 86400 + sl <? X509.checkend o
                    then X509.will_expire else X509.will_not_expire)]) /\
   ((X509.checkend o =? 0) = true -> filter X509.is_verdict t = []) /\
   (r = true -> (X509.checkend o =? 0) = false ->
    filter X509.is_verdict t
    = [X509.Stdout (if dl * 86400 + sl <? X509.checkend o
                    then X509.will_expire else X509.will_not_expire)])) /\
  (forall s b, ~ In (X509.Call (X509.X509_gmtime_adj_notAfter s) b) t) /\
  (if r then filter X509.is_complaint t = [] \/
             filter X509.is_complaint t = [X509.Stderr X509.not_an_RSA_key]
   else filter X509.is_complaint t <> []) /\
  X509.stops_at_failure t = true /\
  (r = true <-> filter X509.failed t = []) /\
  ((forall h c, c <> X509.EVP_PKEY_is_RSA -> ok h c = true) -> r = true).
Proof.
  unfold X509.from_certificate.
  unfold X509.bind, X509.ret, X509.say, X509.do_call, X509.after.
  follow ok; tail_facts sign_and_write_facts o; unfold X509.writes in *;
    (split; [settle |]); (split; [settle |]); (split; [settle |]);
    (split; [settle |]);
    (split; [split; [settle | split; settle] |]);
    (split;
     [ intros s b Hin; cbn in Hin;
       repeat match goal with
              | H : _ \/ _ |- _ =>
                  destruct H as [H | H]; [discriminate H |]
              end;
       first [exact (Hna s b Hin) | contradiction] |]);
    (split; [settle |]); (split; [settle |]); (split; [settle |]);
    succeed ok.
Qed.

(** The run once the options are accepted. *)
Lemma run_tool_facts (ok : X509.env) (o : X509.options) :
  let (t, r) := X509.run_tool dl sl o ok in
  (exists t', t = X509.Call (X509.fopen (X509.in_path o) X509.rb)
                            (ok [] (X509.fopen (X509.in_path o) X509.rb))
                  :: t') /\
  (length (X509.writes t) <= 1)%nat /\
  (X509.writes t <> [] ->
   X509.empty (X509.out_path o) = false /\ X509.noout o = false) /\
  (r = true -> X509.noout o = false -> X509.empty (X509.out_path o) = false ->
   X509.writes t = [X509.Call X509.PEM_write_X509 true]) /\
  (X509.empty (X509.signkey_path o) = false ->
   X509.signed_first false t = true) /\
  ((filter X509.is_verdict t = [] \/
    filter X509.is_verdict t
    = [X509.Stdout (if dl * 86400 + sl <? X509.checkend o
                    then X509.will_expire else X509.will_not_expire)]) /\
   ((X509.checkend o =? 0) = true -> filter X509.is_verdict t = []) /\
   (r = true -> X509.req o = false -> (X509.checkend o =? 0) = false ->
    filter X509.is_verdict t
    = [X509.Stdout (if dl * 86400 + sl <? X509.checkend o
                    then X509.will_expire else X509.will_not_expire)])) /\
  (forall s b, In (X509.Call (X509.X509_gmtime_adj_notAfter s) b) t ->
               X509.req o = true /\
               s = 60 * 60 * 24 * (if X509.days o >? 0 then X509.days o
                                   else 30)) /\
  (if r then filter X509.is_complaint t = [] \/
             filter X509.is_complaint t = [X509.Stderr X509.not_an_RSA_key]
   else filter X509.is_complaint t <> []) /\
  X509.stops_at_failure t = true /\
  (r = true <-> filter X509.failed t = []) /\
  ((forall h c, c <> X509.EVP_PKEY_is_RSA -> ok h c = true) -> r = true).
Proof.
  unfold X509.run_tool.
  unfold X509.bind, X509.ret, X509.say, X509.do_call, X509.after.
  cbn -[X509.from_request X509.from_certificate].
  destruct (ok [] (X509.fopen (X509.in_path o) X509.rb)) eqn:Hin;
    cbn -[X509.from_request X509.from_certificate].
  2: { split; [eexists; reflexivity |].
       unfold X509.writes; cbn.
       split; [lia |]. split; [congruence |]. split; [discriminate |].
       split; [reflexivity |].
       split; [split; [left; reflexivity | split; [reflexivity | discriminate]] |].
       split; [intros s b H; cbn in H; intuition discriminate |].
       split; [discriminate |].
       split; [reflexivity |].
       split; [split; intro; discriminate |].
       intros Hall. rewrite Hall in Hin by discriminate. discriminate Hin. }
  set (e := fun h => ok (_ :: h)).
  assert (He : (forall h c, c <> X509.EVP_PKEY_is_RSA -> ok h c = true) ->
               forall h c, c <> X509.EVP_PKEY_is_RSA -> e h c = true)
    by (intros Hall h c Hc; apply Hall; exact Hc).
  destruct (X509.req o) eqn:Hreq.
  - pose proof (from_request_facts e o) as F.
    destruct (X509.from_request o e) as [t r].
    destruct F as (F1 & F2 & F3 & F4 & F5 & F6 & F7 & F9 & F10 & F8).
    unfold X509.writes in *; cbn.
    split; [eexists; reflexivity |].
    split; [exact F1 |]. split; [exact F2 |]. split; [exact F3 |].
    split; [exact F4 |].
    split; [split; [left; exact F5 | split; [intros _; exact F5 | discriminate]] |].
    split.
    { intros s b [H | H]; [discriminate H |].
      split; [reflexivity | exact (F6 s b H)]. }
    split; [destruct r; [left; exact F7 | exact F7] |].
    split; [exact F9 |]. split; [exact F10 |].
    intros Hall; exact (F8 (He Hall)).
  - pose proof (from_certificate_facts e o) as F.
    destruct (X509.from_certificate dl sl o e) as [t r].
    destruct F as (F1 & F2 & F3 & F4 & (F5 & F5' & F5'') & F6 & F7 & F9 & F10
                   & F8).
    unfold X509.writes in *; cbn.
    split; [eexists; reflexivity |].
    split; [exact F1 |]. split; [exact F2 |]. split; [exact F3 |].
    split; [exact F4 |].
    split; [split; [exact F5 | split; [exact F5' | intros Hr _; exact (F5'' Hr)]] |].
    split.
    { intros s b [H | H]; [discriminate H |]. exfalso; exact (F6 s b H). }
    split; [exact F7 |].
    split; [exact F9 |]. split; [exact F10 |].
    intros Hall; exact (F8 (He Hall)).
Qed.

(** The argument checks of [X509Tool]. *)
Lemma X509Tool_checks (ok : X509.env) (o : X509.options) :
  (X509.conflicting o = true ->
   exists t, X509.X509Tool dl sl true o ok = (t, false)
             /\ filter X509.is_call t = []
             /\ filter X509.is_verdict t = []
             /\ filter X509.is_complaint t <> []) /\
  (X509.conflicting o = false ->
   X509.X509Tool dl sl true o ok = X509.run_tool dl sl o ok
   /\ X509.empty (X509.in_path o) = false
   /\ (X509.req o = true -> X509.empty (X509.signkey_path o) = false)
   /\ (X509.empty (X509.out_path o) = false -> X509.noout o = false)
   /\ (X509.req o = true -> (X509.checkend o =? 0) = true)).
Proof.
  unfold X509.X509Tool, X509.conflicting.
  destruct (X509.empty (X509.in_path o));
    destruct (X509.req o);
    destruct (X509.empty (X509.signkey_path o));
    destruct (X509.noout o);
    destruct (X509.empty (X509.out_path o));
    destruct (X509.modulus o);
    destruct (X509.dates o);
    destruct (X509.checkend o =? 0);
    destruct (X509.days o =? 0);
    cbn [negb andb orb];
    (split;
     [ intros H;
       first [ discriminate H
             | eexists; split; [reflexivity |];
               split; [reflexivity |]; split; [reflexivity | discriminate] ]
     | intros H;
       first [ discriminate H | repeat split; intros; congruence ] ]).
Qed.

(** When the arguments do not parse. *)
Lemma X509Tool_unparsed (ok : X509.env) (o : X509.options) :
  X509.X509Tool dl sl false o ok = ([X509.PrintUsage], false).
Proof. reflexivity. Qed.

(** A trace without calls. *)
Lemma no_calls (t : list X509.event) :
  filter X509.is_call t = [] ->
  X509.writes t = [] /\
  (forall seen, X509.signed_first seen t = true) /\
  (forall c b, ~ In (X509.Call c b) t) /\
  X509.stops_at_failure t = true.
Proof.
  unfold X509.writes.
  induction t as [| e t IH]; intros H.
  - split; [reflexivity |]. split; [reflexivity |].
    split; [intros c b [] | reflexivity].
  - destruct e; cbn in H; try discriminate H;
      destruct (IH H) as (IH1 & IH2 & IH3 & IH4);
      (split; [exact IH1 |]);
      (split; [intros seen; exact (IH2 seen) |]);
      (split; [| exact IH4]);
      intros c b [Hin | Hin]; try discriminate Hin; exact (IH3 c b Hin).
Qed.

(** Split a run of [X509Tool] into its three kinds: arguments that do not
    parse, options turned down, options accepted. *)
Ltac by_kind ok o parsed :=
  let Hrej := fresh "Hrej" in
  let Hacc := fresh "Hacc" in
  let Hc := fresh "Hc" in
  destruct parsed;
  [ destruct (X509Tool_checks ok o) as [Hrej Hacc];
    destruct (X509.conflicting o) eqn:Hc;
    [ destruct (Hrej eq_refl) as (t & -> & Hcalls & Hverd & Hcomp);
      destruct (no_calls t Hcalls) as (Hnw & Hsf & Hnc & Hstop);
      clear Hrej Hacc
    | destruct (Hacc eq_refl) as (-> & Hin & Hreq & Hout & Hce);
      clear Hrej Hacc;
      pose proof (run_tool_facts ok o) as F;
      destruct (X509.run_tool dl sl o ok) as [t r];
      destruct F as (F0 & F1 & F2 & F3 & F4 & (F5 & F5' & F5'') & F6 & F7
                     & F9 & F10 & F8) ]
  | rewrite X509Tool_unparsed ].

(** X15: [X509Tool] checks the options before it touches anything.  Options
    that clash (no [-in]; [-req] without [-signkey]; [-noout] with [-out] or
    [-modulus]; [-dates] or [-checkend] with [-noout], [-req], [-signkey]
    or [-days]) make it return false without a single call to the C library
    or libcrypto; with any other options its first call opens the input
    file for reading. *)
Theorem X509Tool_checks_options_first (ok : X509.env) (o : X509.options) :
  let (t, r) := X509.X509Tool dl sl true o ok in
  if X509.conflicting o
  then r = false /\ filter X509.is_call t = []
  else exists b t',
      t = X509.Call (X509.fopen (X509.in_path o) X509.rb) b :: t'.
Proof.
  destruct (X509Tool_checks ok o) as [Hrej Hacc].
  destruct (X509.conflicting o) eqn:Hc.
  - destruct (Hrej eq_refl) as (t & -> & Hcalls & _).
    split; [reflexivity | exact Hcalls].
  - destruct (Hacc eq_refl) as (-> & _).
    pose proof (run_tool_facts ok o) as F.
    destruct (X509.run_tool dl sl o ok) as [t r].
    destruct F as ((t' & ->) & _).
    eexists; eexists; reflexivity.
Qed.

(** X16: a run of [X509Tool] calls [PEM_write_X509] at most once, and only
    when [-out] is given and [-noout] is not; when the tool returns true and
    [-out] was given, the certificate was written once and that write
    succeeded. *)
Theorem X509Tool_writes_once (parsed : bool) (ok : X509.env)
    (o : X509.options) :
  let (t, r) := X509.X509Tool dl sl parsed o ok in
  (length (X509.writes t) <= 1)%nat /\
  (X509.writes t <> [] ->
   X509.empty (X509.out_path o) = false /\ X509.noout o = false) /\
  (r = true -> X509.empty (X509.out_path o) = false ->
   X509.writes t = [X509.Call X509.PEM_write_X509 true]).
Proof.
  by_kind ok o parsed.
  - rewrite Hnw. split; [cbn; lia |].
    split; [congruence | discriminate].
  - split; [exact F1 |]. split; [exact F2 |].
    intros Hr Ho. exact (F3 Hr (Hout Ho) Ho).
  - split; [cbn; lia |]. split; [cbn; congruence | discriminate].
Qed.

(** X17: with [-signkey] (which [-req] requires) nothing is written that was
    not signed: in every run each call of [PEM_write_X509] comes after a call
    of [X509_sign] that succeeded. *)
Theorem X509Tool_signs_before_writing (parsed : bool) (ok : X509.env)
    (o : X509.options) :
  X509.req o = true \/ X509.empty (X509.signkey_path o) = false ->
  X509.signed_first false (fst (X509.X509Tool dl sl parsed o ok)) = true.
Proof.
  intros Hk. by_kind ok o parsed; cbn [fst].
  - exact (Hsf false).
  - apply F4. destruct Hk as [Hk | Hk]; [exact (Hreq Hk) | exact Hk].
  - reflexivity.
Qed.

(** X18: the verdict of [-checkend], as long as the arithmetic of line 234
    stays within [int].  A run prints at most one verdict; none without
    [-checkend]; and a run with [-checkend N] that returns true printed
    exactly one: that the certificate will expire when
    [days_left * 86400 + seconds_left < N], that it will not otherwise. *)
Theorem X509Tool_checkend_verdict (parsed : bool) (ok : X509.env)
    (o : X509.options) :
  X509.int_range (dl * 86400) -> X509.int_range (dl * 86400 + sl) ->
  let verdict :=
    X509.Stdout (if dl * 86400 + sl <? X509.checkend o
                 then X509.will_expire else X509.will_not_expire) in
  let (t, r) := X509.X509Tool dl sl parsed o ok in
  (filter X509.is_verdict t = [] \/ filter X509.is_verdict t = [verdict]) /\
  (X509.checkend o = 0 -> filter X509.is_verdict t = []) /\
  (r = true -> X509.checkend o <> 0 -> filter X509.is_verdict t = [verdict]).
Proof.
  intros _ _ verdict. subst verdict. by_kind ok o parsed.
  - rewrite Hverd. split; [left; reflexivity |].
    split; [reflexivity | discriminate].
  - split; [exact F5 |].
    split; [intros H0; apply F5'; apply Z.eqb_eq; exact H0 |].
    intros Hr Hn.
    assert (Hce' : (X509.checkend o =? 0) = false)
      by (apply Z.eqb_neq; exact Hn).
    apply F5''; [exact Hr | | exact Hce'].
    destruct (X509.req o); [| reflexivity].
    rewrite (Hce eq_refl) in Hce'. discriminate Hce'.
  - split; [left; reflexivity |]. split; [reflexivity | discriminate].
Qed.

(** X19: with options that do not clash, [X509Tool] returns true whenever
    every call it makes succeeds; neither the verdict of [-checkend] (what
    [ASN1_TIME_diff] stored) nor a key that is not an RSA key under
    [-modulus] makes it return false. *)
Theorem X509Tool_succeeds (ok : X509.env) (o : X509.options) :
  (forall h c, c <> X509.EVP_PKEY_is_RSA -> ok h c = true) ->
  X509.conflicting o = false ->
  snd (X509.X509Tool dl sl true o ok) = true.
Proof.
  intros Hall Hc.
  destruct (X509Tool_checks ok o) as [_ Hacc].
  destruct (Hacc Hc) as (-> & _).
  pose proof (run_tool_facts ok o) as F.
  destruct (X509.run_tool dl sl o ok) as [t r].
  destruct F as (_ & _ & _ & _ & _ & _ & _ & _ & _ & _ & F8).
  exact (F8 Hall).
Qed.

(** X20: the validity given to a certificate made from a request.  The end
    of validity is set only under [-req], to [86400 * days] seconds from now
    when [-days], an [int], is positive and to 30 days otherwise; so it is
    never set to less than a day ahead, and the product of line 153 stays
    within a 64-bit [long]. *)
Theorem X509Tool_validity_period (parsed : bool) (ok : X509.env)
    (o : X509.options) (s : Z) (b : bool) :
  X509.int_range (X509.days o) ->
  In (X509.Call (X509.X509_gmtime_adj_notAfter s) b)
     (fst (X509.X509Tool dl sl parsed o ok)) ->
  X509.req o = true /\
  s = 86400 * (if X509.days o >? 0 then X509.days o else 30) /\
  86400 <= s /\ X509.long_range s.
Proof.
  unfold X509.int_range, X509.long_range. intros Hd.
  by_kind ok o parsed; cbn [fst]; intros Hs.
  - exfalso. exact (Hnc _ _ Hs).
  - destruct (F6 s b Hs) as [Hr ->].
    split; [exact Hr |].
    destruct (X509.days o >? 0) eqn:Hd'; (split; [lia |]); split; lia.
  - destruct Hs as [Hs | []]. discriminate Hs.
Qed.

(** X21: [X509Tool] never fails in silence and never complains when it
    succeeds, with one exception.  A run that returns false wrote a message
    to [stderr] or printed the usage text; a run that returns true wrote
    nothing to [stderr], or the one message that the public key is not an
    RSA key. *)
Theorem X509Tool_diagnostics (parsed : bool) (ok : X509.env)
    (o : X509.options) :
  let (t, r) := X509.X509Tool dl sl parsed o ok in
  if r then filter X509.is_complaint t = [] \/
            filter X509.is_complaint t = [X509.Stderr X509.not_an_RSA_key]
  else filter X509.is_complaint t <> [].
Proof.
  by_kind ok o parsed.
  - exact Hcomp.
  - exact F7.
  - discriminate.
Qed.


End X509Facts.

(** ** Concrete runs of the tool *)

Lemma X509Tool_checks_options_first_witness :
  let (t, r) := X509.X509Tool 0 0 true X509.clashing_options X509.all_ok in
  r = false /\ filter X509.is_call t = [].
Proof.
  exact (X509Tool_checks_options_first 0 0 X509.all_ok X509.clashing_options).
Defined.

Lemma X509Tool_signs_before_writing_witness :
  X509.signed_first false
    (fst (X509.X509Tool 0 0 true X509.req_options X509.all_ok)) = true.
Proof.
  apply (X509Tool_signs_before_writing 0 0 true X509.all_ok X509.req_options).
  left. reflexivity.
Defined.

Lemma X509Tool_checkend_verdict_witness :
  let (t, r) := X509.X509Tool 0 100 true X509.checkend_options X509.all_ok in
  (filter X509.is_verdict t = [] \/
   filter X509.is_verdict t = [X509.Stdout X509.will_expire]) /\
  (X509.checkend X509.checkend_options = 0 -> filter X509.is_verdict t = []) /\
  (r = true -> X509.checkend X509.checkend_options <> 0 ->
   filter X509.is_verdict t = [X509.Stdout X509.will_expire]).
Proof.
  apply (X509Tool_checkend_verdict 0 100 true X509.all_ok
           X509.checkend_options);
    unfold X509.int_range; lia.
Defined.

Lemma X509Tool_succeeds_witness :
  snd (X509.X509Tool 0 100 true X509.checkend_options X509.all_ok) = true.
Proof.
  apply (X509Tool_succeeds 0 100 X509.all_ok X509.checkend_options).
  - intros h c _. reflexivity.
  - reflexivity.
Defined.

Lemma X509Tool_validity_period_witness :
  X509.req X509.req_options = true /\
  2592000 = 86400 * (if X509.days X509.req_options >? 0
                     then X509.days X509.req_options else 30) /\
  86400 <= 2592000 /\ X509.long_range 2592000.
Proof.
  apply (X509Tool_validity_period 0 0 true X509.all_ok X509.req_options
           2592000 true).
  - unfold X509.int_range. cbn. lia.
  - vm_compute. repeat (first [left; reflexivity | right]).
Defined.

